(** * Transportation-mode classifiers of the mix-dashboard

    A shallow embedding of the motion-algorithms module that is bundled in
    [src/js/firestore-browser.js] (lines 476-888): the helpers [percentile],
    [getDistanceBetweenPoints], [calculateHeading], [normalizeAngle],
    [calculateHeadingChanges] and [findStops], the four classifiers,
    [buildConfusionMatrix] and the metrics [calculateAccuracy],
    [calculatePrecision] and [calculateRecall]; and of the text helpers
    [truncateText] and [formatFieldLabel] of the browser in the same file.

    JavaScript numbers are modelled as exact rationals extended with the
    two infinities and NaN: comparisons, [Math.max], [Math.abs],
    [Math.ceil], sorting and the special values behave as in JavaScript,
    while the rounding of binary64 arithmetic is not modelled.  Decimal
    literals of the source ([0.5], [3.6]) stand for their decimal value,
    and there is a single zero.

    A trajectory is an array of sample objects whose fields are numbers or
    absent; the guards against a missing argument ([!speedData]) are left
    out.  Property reads on [undefined] throw, [while] loops run on fuel,
    and the code is read as non-strict code, as in the CommonJS module it
    comes from. *)

From Stdlib Require Import QArith Qround Qabs Lqa.
From stdpp Require Import gmap strings list fin_maps sorting.

(** ** JavaScript numbers and values *)

Inductive number : Type :=
| Fin (q : Q)
| PosInf
| NegInf
| NaN.

(** A property read or an array element: a number, or [undefined] when the
    property is absent (or the index is out of range). *)
Inductive value : Type :=
| undefined
| Num (n : number).

Definition ToNumber (v : value) : number :=
  match v with
  | undefined => NaN
  | Num n => n
  end.

Definition is_undefined (v : value) : bool :=
  match v with
  | undefined => true
  | Num _ => false
  end.

Definition Qlt_bool (x y : Q) : bool :=
  match (x ?= y)%Q with
  | Lt => true
  | _ => false
  end.

Definition of_Z (z : Z) : number := Fin (inject_Z z).
Definition of_nat (n : nat) : number := of_Z (Z.of_nat n).

(** [a < b] *)
Definition js_lt (a b : number) : bool :=
  match a, b with
  | NaN, _ | _, NaN => false
  | Fin x, Fin y => Qlt_bool x y
  | Fin _, PosInf => true
  | Fin _, NegInf => false
  | PosInf, _ => false
  | NegInf, NegInf => false
  | NegInf, _ => true
  end.

(** [a > b] *)
Definition js_gt (a b : number) : bool := js_lt b a.

Definition js_neg (a : number) : number :=
  match a with
  | Fin x => Fin (- x)
  | PosInf => NegInf
  | NegInf => PosInf
  | NaN => NaN
  end.

(** [a + b] *)
Definition js_add (a b : number) : number :=
  match a, b with
  | NaN, _ | _, NaN => NaN
  | Fin x, Fin y => Fin (x + y)
  | PosInf, NegInf | NegInf, PosInf => NaN
  | PosInf, _ | _, PosInf => PosInf
  | NegInf, _ | _, NegInf => NegInf
  end.

(** [a - b] *)
Definition js_sub (a b : number) : number := js_add a (js_neg b).

(** The sign of a rational as a comparison with zero. *)
Definition Qsign (x : Q) : comparison := (x ?= 0)%Q.

(** [a * b] *)
Definition js_mul (a b : number) : number :=
  match a, b with
  | NaN, _ | _, NaN => NaN
  | Fin x, Fin y => Fin (x * y)
  | Fin x, PosInf | PosInf, Fin x =>
      match Qsign x with Gt => PosInf | Lt => NegInf | Eq => NaN end
  | Fin x, NegInf | NegInf, Fin x =>
      match Qsign x with Gt => NegInf | Lt => PosInf | Eq => NaN end
  | PosInf, PosInf | NegInf, NegInf => PosInf
  | PosInf, NegInf | NegInf, PosInf => NegInf
  end.

(** [a / b]; the only zero is the positive one. *)
Definition js_div (a b : number) : number :=
  match a, b with
  | NaN, _ | _, NaN => NaN
  | Fin x, Fin y =>
      match Qsign y with
      | Eq => match Qsign x with Gt => PosInf | Lt => NegInf | Eq => NaN end
      | _ => Fin (x / y)
      end
  | Fin _, (PosInf | NegInf) => Fin 0
  | PosInf, Fin y => match Qsign y with Lt => NegInf | _ => PosInf end
  | NegInf, Fin y => match Qsign y with Lt => PosInf | _ => NegInf end
  | (PosInf | NegInf), (PosInf | NegInf) => NaN
  end.

Declare Scope js_scope.
Delimit Scope js_scope with js.
Bind Scope js_scope with number.
Infix "+" := js_add : js_scope.
Infix "-" := js_sub : js_scope.
Infix "*" := js_mul : js_scope.
Infix "/" := js_div : js_scope.
Infix "<?" := js_lt : js_scope.
Infix ">?" := js_gt : js_scope.

(** A finite number as a value. *)
Definition finite (q : Q) : value := Num (Fin q).

(** Integer and decimal literals of the source. *)
Definition lit (z : Z) : number := of_Z z.
Definition dec (num : Z) (den : positive) : number := Fin (num # den).

(** ** The [Math] object *)

(** [Math.PI], the binary64 number nearest to pi, is a rational. *)
Definition PI_binary64 : Q := 884279719003555 # 281474976710656.
Definition Math_PI : number := Fin PI_binary64.

Definition Math_abs (a : number) : number :=
  match a with
  | Fin x => Fin (Qabs x)
  | PosInf | NegInf => PosInf
  | NaN => NaN
  end.

Definition Math_ceil (a : number) : number :=
  match a with
  | Fin x => of_Z (Qceiling x)
  | other => other
  end.

Definition max2 (a b : number) : number :=
  match a, b with
  | NaN, _ | _, NaN => NaN
  | _, _ => if js_lt a b then b else a
  end.

(** [Math.max(...xs)]: [-Infinity] for no argument, NaN as soon as one
    argument is NaN. *)
Definition Math_max (xs : list number) : number := foldl max2 NegInf xs.

(** [Math.pow(x, n)] for the non-negative integer exponents of the source. *)
Definition Math_pow (x : number) (n : nat) : number :=
  Nat.iter n (js_mul x) (lit 1).

(** ** Samples and labels *)

(** A GPS fix.  Every field is optional in the source objects. *)
Record sample : Type := mkSample {
  timestamp : value;
  latitude : value;
  longitude : value;
  speed : value;
  speedKmh : value;
  heading : value
}.

Inductive speed_label : Type :=
| walking | cycling | bus_or_car | train | unknown.

(** ** Baseline classifier *)

Definition baselineClassify (speedData : list sample) : speed_label :=
  if (length speedData =? 0)%nat then unknown
  else
    let speeds := map speedKmh speedData in
    let maxSpeed := Math_max (map ToNumber speeds) in
    if (maxSpeed <? lit 7)%js then walking
    else if (maxSpeed <? lit 25)%js then cycling
    else if (maxSpeed <? lit 80)%js then bus_or_car
    else if (maxSpeed <? lit 200)%js then train
    else unknown.

(** ** Arrays on the heap, [Array.prototype.sort] and [percentile]

    [percentile] copies its argument and sorts the copy in place, so arrays
    are modelled as references into a store. *)

Abbreviation heap := (gmap nat (list value)).

Definition M (A : Type) : Type := heap → A * heap.

Definition ret {A} (a : A) : M A := λ h, (a, h).

Definition bind {A B} (m : M A) (k : A → M B) : M B :=
  λ h, let '(a, h') := m h in k a h'.

Notation "'let*' x ':=' m 'in' k" := (bind m (λ x, k))
  (at level 10, x name, m at level 100, k at level 200).

Definition contents (h : heap) (a : nat) : list value := default [] (h !! a).

(** A fresh array holding [xs] (an array literal, [map], a spread). *)
Definition array_new (xs : list value) : M nat :=
  λ h, let a := fresh (dom h) in (a, <[a := xs]> h).

(** [[...arr]] *)
Definition array_spread (arr : nat) : M nat :=
  λ h, array_new (contents h arr) h.

(** [arr.length] *)
Definition array_length (arr : nat) : M number :=
  λ h, (of_nat (length (contents h arr)), h).

(** [xs[i]] for a number [i]: an element when [i] is an integer index in
    range, [undefined] otherwise. *)
Definition index_list (xs : list value) (i : number) : value :=
  match i with
  | Fin q =>
      if Qeq_bool q (inject_Z (Qfloor q)) && (0 <=? Qfloor q)%Z
      then default undefined (xs !! Z.to_nat (Qfloor q))
      else undefined
  | _ => undefined
  end.

(** [arr[i]] *)
Definition array_get (arr : nat) (i : number) : M value :=
  λ h, (index_list (contents h arr) i, h).

(** Insertion of [x] in front of a sorted list: [x] passes every element
    that the comparator puts strictly before it, so the sort is stable. *)
Fixpoint sort_insert (cmp : value → value → number) (x : value)
    (l : list value) : list value :=
  match l with
  | [] => [x]
  | y :: l' =>
      if (cmp x y >? lit 0)%js then y :: sort_insert cmp x l' else x :: y :: l'
  end.

(** The sorted contents: [undefined] elements go last without being
    compared, the others are ordered by the sign of the comparator (NaN
    counts as zero). *)
Definition sort_list (cmp : value → value → number) (l : list value) : list value :=
  foldr (sort_insert cmp) [] (List.filter (λ v, negb (is_undefined v)) l)
  ++ List.filter is_undefined l.

(** [arr.sort(cmp)] sorts in place and returns the same array. *)
Definition array_sort (arr : nat) (cmp : value → value → number) : M nat :=
  λ h, (arr, <[arr := sort_list cmp (contents h arr)]> h).

Definition percentile (arr : nat) (p : number) : M value :=
  let* copy := array_spread arr in
  let* sorted := array_sort copy (λ a b, ToNumber a - ToNumber b)%js in
  let* len := array_length sorted in
  let index := (Math_ceil ((p / lit 100) * len) - lit 1)%js in
  array_get sorted (Math_max [lit 0; index]).

(** ** Percentile95 classifier *)

Definition percentile95Classify (speedData : list sample) : M speed_label :=
  if (length speedData =? 0)%nat then ret unknown
  else
    let* speeds := array_new (map speedKmh speedData) in
    let* p95 := percentile speeds (lit 95) in
    let p95Speed := ToNumber p95 in
    ret (if (p95Speed <? lit 7)%js then walking
         else if (p95Speed <? lit 25)%js then cycling
         else if (p95Speed <? lit 80)%js then bus_or_car
         else if (p95Speed <? lit 200)%js then train
         else unknown).

(** ** Outcomes of code that may throw or loop *)

(** A call returns a value, throws a [TypeError] (a property read on
    [undefined]), or is still inside a [while] loop when the fuel given to
    the model runs out. *)
Inductive outcome (A : Type) : Type :=
| Ok (a : A)
| TypeError
| OutOfFuel.
Arguments Ok {A} a.
Arguments TypeError {A}.
Arguments OutOfFuel {A}.

Definition obind {A B} (m : outcome A) (k : A → outcome B) : outcome B :=
  match m with
  | Ok a => k a
  | TypeError => TypeError
  | OutOfFuel => OutOfFuel
  end.

Notation "'do*' x ':=' m 'in' k" := (obind m (λ x, k))
  (at level 10, x name, m at level 100, k at level 200).

(** [for (let i = start; i < start + count; i++) body] over a loop state. *)
Fixpoint for_loop {St : Type} (body : nat → St → outcome St)
    (start count : nat) (s : St) : outcome St :=
  match count with
  | O => Ok s
  | S count' => do* s' := body start s in for_loop body (S start) count' s'
  end.

(** [while (cond) body] over a loop state, cut off after [fuel] tests. *)
Fixpoint while_loop {St : Type} (fuel : nat) (cond : St → bool) (body : St → St)
    (s : St) : outcome St :=
  match fuel with
  | O => OutOfFuel
  | S fuel' => if cond s then while_loop fuel' cond body (body s) else Ok s
  end.

(** [points[i]] followed by a property read: the read throws when the index
    is out of range. *)
Definition point_at (points : list sample) (i : Z) : outcome sample :=
  if (i <? 0)%Z then TypeError
  else match points !! Z.to_nat i with
       | Some p => Ok p
       | None => TypeError
       end.

(** ** Heading changes *)

(** One turn of the loop; the loop state is [changes]. *)
Definition calculateHeadingChanges_body (fuel : nat) (points : list sample)
    (i : nat) (changes : list number) : outcome (list number) :=
  do* pi := point_at points (Z.of_nat i) in
  do* pj := point_at points (Z.of_nat i - 1) in
  let change := (ToNumber (heading pi) - ToNumber (heading pj))%js in
  do* change := while_loop fuel (λ c, c >? Math_PI)%js
                  (λ c, c - lit 2 * Math_PI)%js change in
  do* change := while_loop fuel (λ c, c <? js_neg Math_PI)%js
                  (λ c, c + lit 2 * Math_PI)%js change in
  Ok (changes ++ [Math_abs change]).

Definition calculateHeadingChanges (fuel : nat) (points : list sample)
    : outcome (list number) :=
  for_loop (calculateHeadingChanges_body fuel points) 1 (length points - 1) [].

(** ** Stops *)

Record stop : Type := mkStop {
  startIndex : Z;
  endIndex : Z;
  duration : number;
  distance : number
}.

Inductive stop_label : Type := bus | car.

Inductive route_label : Type := fixed_route | variable_route | uncertain.

Class Host : Type := {
  host_sin : Q → Q;
  host_cos : Q → Q;
  host_sqrt : Q → Q;
  host_atan2 : number → number → Q
}.

Section Host.

(** The results of [Math.sin], [Math.cos], [Math.sqrt] and [Math.atan2]
    are implementation-approximated: the code is read over any host, given
    by the finite results it returns.  The special cases are the ones every
    host has to follow. *)
Context `{Host}.

Definition Math_sin (a : number) : number :=
  match a with
  | Fin x => Fin (host_sin x)
  | _ => NaN
  end.

Definition Math_cos (a : number) : number :=
  match a with
  | Fin x => Fin (host_cos x)
  | _ => NaN
  end.

Definition Math_sqrt (a : number) : number :=
  match a with
  | Fin x => if Qlt_bool x 0 then NaN else Fin (host_sqrt x)
  | PosInf => PosInf
  | NegInf | NaN => NaN
  end.

Definition Math_atan2 (y x : number) : number :=
  match y, x with
  | NaN, _ | _, NaN => NaN
  | _, _ => Fin (host_atan2 y x)
  end.

Definition getDistanceBetweenPoints (point1 point2 : sample) : number :=
  let R := lit 6376377 in
  let lat1 := (ToNumber (latitude point1) * Math_PI / lit 180)%js in
  let lat2 := (ToNumber (latitude point2) * Math_PI / lit 180)%js in
  let dLat :=
    ((ToNumber (latitude point2) - ToNumber (latitude point1)) * Math_PI / lit 180)%js in
  let dLng :=
    ((ToNumber (longitude point2) - ToNumber (longitude point1)) * Math_PI / lit 180)%js in
  let a :=
    (Math_sin (dLat / lit 2) * Math_sin (dLat / lit 2) +
     Math_cos lat1 * Math_cos lat2 * Math_sin (dLng / lit 2) * Math_sin (dLng / lit 2))%js in
  let c := (lit 2 * Math_atan2 (Math_sqrt a) (Math_sqrt (lit 1 - a)))%js in
  (R * c)%js.

(** The speed of a point in m/s as [findStops] reads it: [speed], else
    [speedKmh / 3.6], else 0. *)
Definition stopSpeed (p : sample) : number :=
  let speed := speed p in
  let speed :=
    if is_undefined speed && negb (is_undefined (speedKmh p))
    then Num (ToNumber (speedKmh p) / dec 36 10)%js
    else speed in
  let speed := if is_undefined speed then Num (lit 0) else speed in
  ToNumber speed.

(** One turn of the scan; the loop state is [(stops, stopStart)]. *)
Definition findStops_body (points : list sample) (speedThreshold : number)
    (i : nat) (st : list stop * option Z) : outcome (list stop * option Z) :=
  let '(stops, stopStart) := st in
  do* pi := point_at points (Z.of_nat i) in
  if (stopSpeed pi <? speedThreshold)%js then
    match stopStart with
    | None => Ok (stops, Some (Z.of_nat i))
    | Some _ => Ok (stops, stopStart)
    end
  else
    match stopStart with
    | Some start =>
        do* pprev := point_at points (Z.of_nat i - 1) in
        do* pstart := point_at points start in
        do* dist :=
          (if (start >? 0)%Z
           then do* pbefore := point_at points (start - 1) in
                Ok (getDistanceBetweenPoints pbefore pi)
           else Ok (lit 0)) in
        Ok (stops ++ [mkStop start (Z.of_nat i - 1)
                        ((ToNumber (timestamp pprev) - ToNumber (timestamp pstart))
                           / lit 1000)%js
                        dist],
            None)
    | None => Ok (stops, None)
    end.

Definition findStops (points : list sample) (speedThreshold : number)
    : outcome (list stop) :=
  do* st := for_loop (findStops_body points speedThreshold) 0 (length points) ([], None) in
  let '(stops, stopStart) := st in
  match stopStart with
  | Some start =>
      let lastIndex := (Z.of_nat (length points) - 1)%Z in
      do* plast := point_at points lastIndex in
      do* pstart := point_at points start in
      do* dist :=
        (if (start >? 0)%Z
         then do* pbefore := point_at points (start - 1) in
              Ok (getDistanceBetweenPoints pbefore plast)
         else Ok (lit 0)) in
      Ok (stops ++ [mkStop start lastIndex
                      ((ToNumber (timestamp plast) - ToNumber (timestamp pstart))
                         / lit 1000)%js
                      dist])
  | None => Ok stops
  end.

(** The default threshold of [findStops], 0.5 m/s. *)
Definition defaultSpeedThreshold : number := dec 1 2.

(** ** Stop-pattern classifier; [None] is [null] *)

Definition stopPatternClassify (gpsData : list sample) : outcome (option stop_label) :=
  if (length gpsData =? 0)%nat then Ok None
  else
    do* stops := findStops gpsData defaultSpeedThreshold in
    let speeds := map speedKmh gpsData in
    let maxSpeed := Math_max (map ToNumber speeds) in
    if (maxSpeed <? lit 25)%js || (maxSpeed >? lit 80)%js then Ok None
    else if (length stops =? 0)%nat then Ok (Some car)
    else
      do* totalDistance :=
        for_loop (λ i total,
            do* pi := point_at gpsData (Z.of_nat i) in
            do* pj := point_at gpsData (Z.of_nat i + 1) in
            Ok (total + getDistanceBetweenPoints pi pj)%js)
          0 (length gpsData - 1) (lit 0) in
      let avgDistanceBetweenStops :=
        (totalDistance / Math_max [lit 1; of_nat (length stops)])%js in
      let stopFrequency := (of_nat (length stops) / (totalDistance / lit 1000))%js in
      let isBusRange :=
        (avgDistanceBetweenStops >? lit 300)%js && (avgDistanceBetweenStops <? lit 1000)%js in
      if (stopFrequency >? lit 1)%js then Ok (Some bus)
      else if isBusRange && (2 <=? length stops)%nat then Ok (Some bus)
      else Ok (Some car).

(** ** Heading-change classifier; [None] is [null] *)

(** [xs.reduce(f)] without an initial value: a [TypeError] on the empty array. *)
Definition reduce1 (f : number → number → number) (xs : list number) : outcome number :=
  match xs with
  | [] => TypeError
  | x :: xs' => Ok (foldl f x xs')
  end.

Definition headingChangeClassify (fuel : nat) (gpsData : list sample)
    : outcome (option route_label) :=
  if (length gpsData <? 2)%nat then Ok None
  else
    do* headingChanges := calculateHeadingChanges fuel gpsData in
    if (length headingChanges =? 0)%nat then Ok None
    else
      let headingChangesDegrees := map (λ c, c * lit 180 / Math_PI)%js headingChanges in
      do* total := reduce1 js_add headingChangesDegrees in
      let meanHeadingChange := (total / of_nat (length headingChangesDegrees))%js in
      let variance :=
        (foldl (λ sum change, sum + Math_pow (change - meanHeadingChange) 2)%js
               (lit 0) headingChangesDegrees
         / of_nat (length headingChangesDegrees))%js in
      let stdDev := Math_sqrt variance in
      if (meanHeadingChange <? lit 3)%js && (stdDev <? lit 15)%js then Ok (Some fixed_route)
      else if (meanHeadingChange >? lit 5)%js || (stdDev >? lit 20)%js
      then Ok (Some variable_route)
      else Ok (Some uncertain).

End Host.

(** ** Confusion matrix

    The matrix is an object of objects: a map from the actual label to a
    row, a map from the predicted label to a count.  Counts are numbers, so
    that a cell can become NaN. *)

Record prediction : Type := mkPrediction {
  actual : option string;
  predicted : option string
}.

(** Truthiness of a label: [undefined] and the empty string are falsy. *)
Definition truthy (l : option string) : bool :=
  match l with
  | Some s => negb (String.eqb s "")
  | None => false
  end.

Definition modes : list string := ["walking"; "cycling"; "bus"; "car"; "train"].

(** The members every object inherits from [Object.prototype]. *)
Definition Object_prototype_members : list string :=
  ["constructor"; "hasOwnProperty"; "isPrototypeOf"; "propertyIsEnumerable";
   "toLocaleString"; "toString"; "valueOf"; "__proto__";
   "__defineGetter__"; "__defineSetter__"; "__lookupGetter__"; "__lookupSetter__"].

(** [matrix[a][p]++].  When [matrix] has no own row [a], the read gives
    [undefined] and the access to [p] throws, unless [a] names an inherited
    member: then the update lands on a built-in object and the matrix keeps
    its cells.  In an own row the old value is converted to a number
    ([undefined] and inherited members give NaN) and the sum is stored,
    except under ["__proto__"], whose setter drops a number. *)
Definition increment (matrix : gmap string (gmap string number)) (a p : string)
    : outcome (gmap string (gmap string number)) :=
  match matrix !! a with
  | Some row =>
      let old := match row !! p with Some n => Num n | None => undefined end in
      if String.eqb p "__proto__" then Ok matrix
      else Ok (<[a := <[p := (ToNumber old + lit 1)%js]> row]> matrix)
  | None =>
      if bool_decide (a ∈ Object_prototype_members) then Ok matrix else TypeError
  end.

(** [for (const x of xs) body] over a loop state. *)
Fixpoint for_of {A St : Type} (body : A → St → outcome St) (xs : list A) (s : St)
    : outcome St :=
  match xs with
  | [] => Ok s
  | x :: xs' => do* s' := body x s in for_of body xs' s'
  end.

Definition buildConfusionMatrix (predictions : list prediction)
    : outcome (gmap string (gmap string number)) :=
  let matrix :=
    foldl (λ matrix actual,
             <[actual := foldl (λ row predicted, <[predicted := lit 0]> row) ∅ modes]> matrix)
          ∅ modes in
  for_of (λ pred matrix,
      if truthy (actual pred) && truthy (predicted pred)
      then increment matrix (default "" (actual pred)) (default "" (predicted pred))
      else Ok matrix)
    predictions matrix.

(** The cell of a matrix, [undefined] when the row or the cell is absent. *)
Definition cell (matrix : gmap string (gmap string number)) (a p : string) : value :=
  match matrix !! a with
  | Some row => match row !! p with Some n => Num n | None => undefined end
  | None => undefined
  end.

(** ** Metrics of a confusion matrix *)

(** Truthiness of a number: zero and NaN are falsy. *)
Definition truthy_number (n : number) : bool :=
  match n with
  | Fin q => negb (Qeq_bool q 0)
  | NaN => false
  | PosInf | NegInf => true
  end.

(** What [row[k]] finds in a row of numbers: an own cell, a member inherited
    from [Object.prototype] (a function or an object, always truthy), or
    nothing. *)
Inductive property : Type :=
  | Own (n : number)
  | Inherited
  | Absent.

Definition get_property (row : gmap string number) (k : string) : property :=
  match row !! k with
  | Some n => Own n
  | None => if bool_decide (k ∈ Object_prototype_members) then Inherited else Absent
  end.

(** [x || 0], as the number it is when the metrics add it up or divide it.
    An inherited member is kept by [||]; added to a number it gives a string
    that is no numeral and stays one under further [+=], and such a string,
    like the member itself, is NaN in a division or a comparison: it is
    read as NaN from the start. *)
Definition or_zero (x : property) : number :=
  match x with
  | Own n => if truthy_number n then n else lit 0
  | Inherited => NaN
  | Absent => lit 0
  end.

(** [matrix[className]?.[className] || 0].  Without an own row, [matrix[className]]
    is [undefined] or an inherited member, and on such a member [className]
    names a member again. *)
Definition truePositives (matrix : gmap string (gmap string number)) (className : string)
    : number :=
  match matrix !! className with
  | Some row => or_zero (get_property row className)
  | None => if bool_decide (className ∈ Object_prototype_members) then NaN else lit 0
  end.

(** The [for (const k in o)] loops of the metrics visit the own keys of an
    object and read [o[k]] at once; they are folds over the entries of the
    map.  The loops only add numbers up, and the order of the visit does not
    change an exact sum. *)
Definition calculateAccuracy (matrix : gmap string (gmap string number)) : number :=
  let counts :=
    foldl (λ (counts : number * number) (entry : string * gmap string number),
             let correct :=
               match get_property entry.2 entry.1 with
               | Own n => if truthy_number n then (counts.1 + n)%js else counts.1
               | Inherited => NaN
               | Absent => counts.1
               end in
             let total :=
               foldl (λ (total : number) (c : string * number), (total + c.2)%js)
                     counts.2 (map_to_list entry.2) in
             (correct, total))
          (lit 0, lit 0) (map_to_list matrix) in
  if (counts.2 >? lit 0)%js then (counts.1 / counts.2)%js else lit 0.

Definition calculatePrecision (matrix : gmap string (gmap string number))
    (className : string) : number :=
  let predicted :=
    foldl (λ (predicted : number) (entry : string * gmap string number),
             (predicted + or_zero (get_property entry.2 className))%js)
          (lit 0) (map_to_list matrix) in
  if (predicted >? lit 0)%js then (truePositives matrix className / predicted)%js
  else lit 0.

Definition calculateRecall (matrix : gmap string (gmap string number))
    (className : string) : number :=
  let actual :=
    match matrix !! className with
    | Some row =>
        foldl (λ (actual : number) (c : string * number), (actual + or_zero (Own c.2))%js)
              (lit 0) (map_to_list row)
    | None => lit 0
    end in
  if (actual >? lit 0)%js then (truePositives matrix className / actual)%js
  else lit 0.

(** ** Headings and angles *)

(** The bearing from the first point to the second, in radians. *)
Definition calculateHeading `{Host} (lat1 lon1 lat2 lon2 : value) : number :=
  let dLon := ((ToNumber lon2 - ToNumber lon1) * Math_PI / lit 180)%js in
  let lat1Rad := (ToNumber lat1 * Math_PI / lit 180)%js in
  let lat2Rad := (ToNumber lat2 * Math_PI / lit 180)%js in
  let y := (Math_sin dLon * Math_cos lat2Rad)%js in
  let x := (Math_cos lat1Rad * Math_sin lat2Rad -
            Math_sin lat1Rad * Math_cos lat2Rad * Math_cos dLon)%js in
  let heading := Math_atan2 y x in
  if (heading <? lit 0)%js then (heading + lit 2 * Math_PI)%js else heading.

(** The two loops of [normalizeAngle], each cut off after [fuel] tests. *)
Definition normalizeAngle (fuel : nat) (angle : number) : outcome number :=
  do* normalized := while_loop fuel (λ n, n >? lit 180)%js (λ n, n - lit 360)%js angle in
  while_loop fuel (λ n, n <? lit (-180))%js (λ n, n + lit 360)%js normalized.

(** ** Text helpers of the browser

    A string is its sequence of UTF-16 code units. *)

Definition jsstring : Type := list N.

(** ['—'] and ['...'] *)
Definition dash : jsstring := [8212%N].
Definition ellipsis : jsstring := [46%N; 46%N; 46%N].

(** [a <= b] *)
Definition js_le (a b : number) : bool :=
  match a, b with
  | NaN, _ | _, NaN => false
  | _, _ => negb (js_lt b a)
  end.

(** [s.substring(0, end)]: the end is truncated to an integer, NaN counts
    as 0, and the result is clamped to the string. *)
Definition substring_to (s : jsstring) (end_ : number) : jsstring :=
  match end_ with
  | Fin q => take (Z.to_nat (Qfloor q)) s
  | PosInf => s
  | NegInf | NaN => []
  end.

(** [text] is a string, or [None] for any value that is not one;
    [maxLength] defaults to 100 when it is not given. *)
Definition truncateText (text : option jsstring) (maxLength : value) : jsstring :=
  let maxLength := match maxLength with undefined => lit 100 | Num n => n end in
  match text with
  | None | Some [] => dash
  | Some text =>
      if js_le (of_nat (length text)) maxLength then text
      else substring_to text (maxLength - lit 3)%js ++ ellipsis
  end.

Definition is_lower (c : N) : bool := (97 <=? c)%N && (c <=? 122)%N.
Definition is_upper (c : N) : bool := (65 <=? c)%N && (c <=? 90)%N.
Definition is_digit (c : N) : bool := (48 <=? c)%N && (c <=? 57)%N.

(** [\w] *)
Definition is_word (c : N) : bool :=
  is_lower c || is_upper c || is_digit c || (c =? 95)%N.

(** [c.toUpperCase()] on a code unit that [\w] matches. *)
Definition toUpperCase (c : N) : N := if is_lower c then (c - 32)%N else c.

(** [.replace(/([a-z])([A-Z])/g, '$1 $2')]: the search resumes after each
    match. *)
Fixpoint replace_camel (s : jsstring) : jsstring :=
  match s with
  | a :: (b :: rest) as tl =>
      if is_lower a && is_upper b then a :: 32%N :: b :: replace_camel rest
      else a :: replace_camel tl
  | _ => s
  end.

(** [.replace(/_/g, ' ')] *)
Definition replace_underscores (s : jsstring) : jsstring :=
  map (λ c, if (c =? 95)%N then 32%N else c) s.

(** [.replace(/\b\w/g, c => c.toUpperCase())]: a match is a word character
    that no word character precedes; [after_word] tells whether one does. *)
Fixpoint replace_word_starts (after_word : bool) (s : jsstring) : jsstring :=
  match s with
  | [] => []
  | c :: rest =>
      (if is_word c && negb after_word then toUpperCase c else c)
        :: replace_word_starts (is_word c) rest
  end.

Definition formatFieldLabel (key : jsstring) : jsstring :=
  replace_word_starts false (replace_underscores (replace_camel key)).

(** ** Reference definitions used in the statements *)

(** Insertion sort on rationals, in increasing order: what [sort_list] with
    the comparator [(a, b) => a - b] does on an array of finite numbers. *)
Fixpoint Qinsert (x : Q) (l : list Q) : list Q :=
  match l with
  | [] => [x]
  | y :: l' => if Qlt_bool 0 (x + - y) then y :: Qinsert x l' else x :: y :: l'
  end.

Definition Qsort (l : list Q) : list Q := foldr Qinsert [] l.

(** The index [ceil(p/100 * n) - 1] clamped to [[0, n-1]]. *)
Definition percentile_index (p : Q) (n : nat) : nat :=
  Z.to_nat (Z.max 0 (Z.min (Qceiling (p / 100 * inject_Z (Z.of_nat n)) - 1)
                           (Z.of_nat n - 1))).

Definition is_max (m : Q) (qs : list Q) : Prop :=
  In m qs ∧ Forall (λ q, q <= m)%Q qs.

Definition is_min (m : Q) (qs : list Q) : Prop :=
  In m qs ∧ Forall (λ q, m <= q)%Q qs.

(** Sample objects as the tests write them: [{ speedKmh: q }],
    [{ speed: q }], [{ heading: q }] and [{}]. *)
Definition kmhSample (q : Q) : sample :=
  mkSample undefined undefined undefined undefined (finite q) undefined.

Definition msSample (q : Q) : sample :=
  mkSample undefined undefined undefined (finite q) undefined undefined.

Definition headingSample (q : Q) : sample :=
  mkSample undefined undefined undefined undefined undefined (finite q).

Definition emptySample : sample :=
  mkSample undefined undefined undefined undefined undefined undefined.

(** A host to run the code on trajectories without coordinates, where no
    result depends on the approximations. *)
Definition plainHost : Host :=
  {| host_sin := λ _, 0%Q; host_cos := λ _, 1%Q; host_sqrt := λ _, 0%Q;
     host_atan2 := λ _ _, 0%Q |}.

(** A sample counts as stopped when the speed [findStops] reads for it is
    below the threshold. *)
Definition below (threshold : number) (p : sample) : Prop :=
  (stopSpeed p <? threshold)%js = true.

(** The stop spans index [i]. *)
Definition covers (i : nat) (s : stop) : Prop :=
  (startIndex s ≤ Z.of_nat i ≤ endIndex s)%Z.

(** The stop is a non-empty range of indices of a trajectory of length [n]. *)
Definition within (n : nat) (s : stop) : Prop :=
  (0 ≤ startIndex s ≤ endIndex s)%Z ∧ (endIndex s < Z.of_nat n)%Z.

(** Each stop ends before the next one starts. *)
Definition chronological (stops : list stop) : Prop :=
  StronglySorted (λ a b, endIndex a < startIndex b)%Z stops.

(** The state of the scan of [findStops] before it reads index [i]: the
    closed stops are in order and end before the open run (or before [i]),
    and an index below [i] is stopped exactly when a closed stop or the open
    run holds it. *)
Definition findStops_inv (points : list sample) (threshold : number) (i : nat)
    (st : list stop * option Z) : Prop :=
  chronological st.1 ∧
  Forall (λ s, (0 ≤ startIndex s ≤ endIndex s)%Z ∧
               (endIndex s < default (Z.of_nat i) st.2)%Z) st.1 ∧
  (∀ start, st.2 = Some start → (0 ≤ start < Z.of_nat i)%Z) ∧
  (∀ j p, (j < i)%nat → points !! j = Some p →
     (below threshold p ↔
      Exists (covers j) st.1 ∨ ∃ start, st.2 = Some start ∧ (start ≤ Z.of_nat j)%Z)).

(** The length of the path: the distances between consecutive samples,
    summed from the first pair on. *)
Definition pathLength `{Host} (gpsData : list sample) : number :=
  foldl (λ total pq, (total + getDistanceBetweenPoints pq.1 pq.2)%js)
        (lit 0) (zip gpsData (tail gpsData)).

(** Fuel that lets the two normalisation loops of
    [calculateHeadingChanges] run to their end on a difference [c], and on
    every consecutive pair of a list of headings. *)
Definition turns (c : Q) : nat :=
  S (Z.to_nat (Qceiling (Qabs c / (2 * PI_binary64)))).

Fixpoint turnsBound (hs : list Q) : nat :=
  match hs with
  | a :: (b :: _) as tl => Nat.max (turns (b - a)) (turnsBound tl)
  | _ => 0
  end.

(** [c] is an absolute angular difference of the headings [a] and [b] taken
    modulo a full turn; within [[0, Math.PI]] it is the shorter arc. *)
Definition arc_between (a b c : Q) : Prop :=
  ∃ k : Z, (c == Qabs (b - a - inject_Z k * (2 * PI_binary64)))%Q.

(** Radians to degrees, and the mean and the population variance of a
    series, as the heading classifier needs them. *)
Definition degrees (c : Q) : Q := (c * 180 / PI_binary64)%Q.

Definition Qsum (l : list Q) : Q := foldr Qplus 0%Q l.

Definition Qmean (l : list Q) : Q := (Qsum l / inject_Z (Z.of_nat (length l)))%Q.

Definition Qvariance (l : list Q) : Q :=
  (Qsum (map (λ x, (x - Qmean l) * (x - Qmean l)) l) / inject_Z (Z.of_nat (length l)))%Q.

(** Pairs of labels and their counts in a list of predictions. *)
Definition is_pair (a p : string) (pr : prediction) : bool :=
  bool_decide (actual pr = Some a) && bool_decide (predicted pr = Some p).

Definition count_pairs (a p : string) (predictions : list prediction) : nat :=
  length (List.filter (is_pair a p) predictions).

(** The pair passes the guard [pred.actual && pred.predicted]. *)
Definition labelled (pr : prediction) : bool :=
  truthy (actual pr) && truthy (predicted pr).

(** Both labels are among the five modes. *)
Definition in_vocabulary (pr : prediction) : Prop :=
  ∃ a p, actual pr = Some a ∧ predicted pr = Some p ∧ a ∈ modes ∧ p ∈ modes.

(** The cells of the matrix, row by row. *)
Definition cells : list (string * string) :=
  a ← modes; p ← modes; [(a, p)].

(** The order of the speed labels, from the slowest mode to unknown. *)
Definition speed_rank (l : speed_label) : nat :=
  match l with
  | walking => 0
  | cycling => 1
  | bus_or_car => 2
  | train => 3
  | unknown => 4
  end.

(** The label the two speed classifiers give to a finite speed. *)
Definition label_of_speed (s : Q) : speed_label :=
  if Qlt_bool s 7 then walking
  else if Qlt_bool s 25 then cycling
  else if Qlt_bool s 80 then bus_or_car
  else if Qlt_bool s 200 then train
  else unknown.

(** A run of stopped samples that starts at index [a] cannot be extended to
    the left, one that ends at index [b] cannot be extended to the right. *)
Definition left_maximal (points : list sample) (threshold : number) (a : nat) : Prop :=
  a = 0%nat ∨ ∃ p, points !! (a - 1)%nat = Some p ∧ ¬ below threshold p.

Definition right_maximal (points : list sample) (threshold : number) (b : nat) : Prop :=
  S b = length points ∨ ∃ p, points !! S b = Some p ∧ ¬ below threshold p.

(** What [findStops] writes into a stop: the run [a..b] it spans, the time
    between its first and last sample in thousands of timestamp units, and
    the distance from the sample before the run to the sample after it (to
    the last sample of the run when the trajectory ends there), 0 for a run
    that starts the trajectory. *)
Definition stop_record `{Host} (points : list sample) (threshold : number) (s : stop)
    : Prop :=
  ∃ (a b : nat) (pa pb pnext : sample),
    startIndex s = Z.of_nat a ∧ endIndex s = Z.of_nat b ∧ (a ≤ b)%nat ∧
    points !! a = Some pa ∧ points !! b = Some pb ∧
    points !! Nat.min (S b) (length points - 1) = Some pnext ∧
    left_maximal points threshold a ∧ right_maximal points threshold b ∧
    duration s = ((ToNumber (timestamp pb) - ToNumber (timestamp pa)) / lit 1000)%js ∧
    ((a = 0%nat ∧ distance s = lit 0) ∨
     (∃ pbefore, (0 < a)%nat ∧ points !! (a - 1)%nat = Some pbefore ∧
                 distance s = getDistanceBetweenPoints pbefore pnext)).

(** The state of the scan before index [i], for the content of the stops:
    the closed stops are records of maximal runs, an open run starts after
    a moving sample, and when no run is open the sample before [i] moves. *)
Definition findStops_records_inv `{Host} (points : list sample) (threshold : number)
    (i : nat) (st : list stop * option Z) : Prop :=
  Forall (stop_record points threshold) st.1 ∧
  match st.2 with
  | Some start =>
      ∃ a, start = Z.of_nat a ∧ (a < i)%nat ∧ left_maximal points threshold a
  | None => left_maximal points threshold i
  end.

(** The answer of the stop-pattern classifier once a trajectory is past the
    guard, from the stops found. *)
Definition busOrCar `{Host} (gpsData : list sample) (stops : list stop) : stop_label :=
  let totalDistance := pathLength gpsData in
  let avgDistanceBetweenStops :=
    (totalDistance / Math_max [lit 1; of_nat (length stops)])%js in
  let stopFrequency := (of_nat (length stops) / (totalDistance / lit 1000))%js in
  let isBusRange :=
    (avgDistanceBetweenStops >? lit 300)%js && (avgDistanceBetweenStops <? lit 1000)%js in
  if (length stops =? 0)%nat then car
  else if (stopFrequency >? lit 1)%js then bus
  else if isBusRange && (2 <=? length stops)%nat then bus
  else car.

(** A row and a matrix that hold the counts [c] over the five modes. *)
Definition row_of_counts (f : string → nat) : gmap string number :=
  list_to_map (map (λ p, (p, of_nat (f p))) modes).

Definition matrix_of_counts (c : string → string → nat) : gmap string (gmap string number) :=
  list_to_map (map (λ a, (a, row_of_counts (c a))) modes).

(** Pairs that pass the guard: those predicted right, those predicted as a
    class, those of a class. *)
Definition hit (pr : prediction) : bool :=
  labelled pr && bool_decide (actual pr = predicted pr).

Definition predicted_as (c : string) (pr : prediction) : bool :=
  labelled pr && bool_decide (predicted pr = Some c).

Definition actually (c : string) (pr : prediction) : bool :=
  labelled pr && bool_decide (actual pr = Some c).

(** [n / d], and 0 when [d] is 0. *)
Definition ratio (n d : nat) : number :=
  if (d =? 0)%nat then lit 0 else (of_nat n / of_nat d)%js.

(** Rows of the five modes whose cells outside the modes, if any, are NaN. *)
Definition rows_kept (matrix : gmap string (gmap string number)) : Prop :=
  ∀ a, a ∈ modes →
    ∃ row, matrix !! a = Some row ∧
      ∀ q, q ∉ modes → row !! q = None ∨ row !! q = Some NaN.

Definition has_NaN_cell (matrix : gmap string (gmap string number)) : Prop :=
  ∃ a row p, matrix !! a = Some row ∧ row !! p = Some NaN.

(** No lower-case letter directly before an upper-case one. *)
Fixpoint no_camel (s : jsstring) : bool :=
  match s with
  | a :: (b :: _) as tl => negb (is_lower a && is_upper b) && no_camel tl
  | _ => true
  end.

(** No lower-case letter at the start of a word. *)
Fixpoint capitalized (after_word : bool) (s : jsstring) : bool :=
  match s with
  | [] => true
  | c :: rest => negb (is_lower c && negb after_word) && capitalized (is_word c) rest
  end.

(** * Properties *)

(** ** Numbers *)

Lemma Qlt_bool_true (x y : Q) : Qlt_bool x y = true ↔ (x < y)%Q.
Proof.
  unfold Qlt_bool. rewrite Qlt_alt. destruct (x ?= y)%Q; intuition congruence.
Qed.

Lemma Qlt_bool_false (x y : Q) : Qlt_bool x y = false ↔ (y <= x)%Q.
Proof.
  rewrite <- not_true_iff_false, Qlt_bool_true. split.
  - apply Qnot_lt_le.
  - apply Qle_not_lt.
Qed.

Lemma js_lt_Fin_true (x y : Q) : (Fin x <? Fin y)%js = true ↔ (x < y)%Q.
Proof. apply Qlt_bool_true. Qed.

Lemma js_lt_Fin_false (x y : Q) : (Fin x <? Fin y)%js = false ↔ (y <= x)%Q.
Proof. apply Qlt_bool_false. Qed.

(** Turns the comparisons of finite numbers in the context and the goal
    into statements over [Q]. *)
Ltac to_Q :=
  unfold js_gt, lit, of_nat, of_Z, dec in *;
  repeat match goal with
    | H : js_lt (Fin _) (Fin _) = true |- _ => apply js_lt_Fin_true in H
    | H : js_lt (Fin _) (Fin _) = false |- _ => apply js_lt_Fin_false in H
    | |- js_lt (Fin _) (Fin _) = true => apply js_lt_Fin_true
    | |- js_lt (Fin _) (Fin _) = false => apply js_lt_Fin_false
    end.

(** [Math.max] over finite numbers is the greatest of them. *)
Lemma foldl_max2_Fin (qs : list Q) (a : Q) :
  ∃ m, foldl max2 (Fin a) (map Fin qs) = Fin m ∧
       (m = a ∨ In m qs) ∧ (a <= m)%Q ∧ Forall (λ q, q <= m)%Q qs.
Proof.
  revert a. induction qs as [|q qs IH]; intros a; simpl.
  - exists a. repeat split; [by left | apply Qle_refl | constructor].
  - destruct (Qlt_bool a q) eqn:E.
    + destruct (IH q) as (m & -> & Hin & Hle & Hall).
      apply Qlt_bool_true in E.
      exists m. repeat split.
      * right. destruct Hin as [->|Hin]; [by left | by right].
      * lra.
      * by constructor.
    + destruct (IH a) as (m & -> & Hin & Hle & Hall).
      apply Qlt_bool_false in E.
      exists m. repeat split.
      * destruct Hin as [->|Hin]; [by left | right; by right].
      * done.
      * constructor; [lra | done].
Qed.

Lemma Math_max_Fin (q : Q) (qs : list Q) :
  ∃ m, Math_max (map Fin (q :: qs)) = Fin m ∧
       In m (q :: qs) ∧ Forall (λ x, x <= m)%Q (q :: qs).
Proof.
  unfold Math_max. simpl.
  destruct (foldl_max2_Fin qs q) as (m & -> & Hin & Hle & Hall).
  exists m. repeat split.
  - destruct Hin as [->|Hin]; [by left | by right].
  - by constructor.
Qed.

Lemma map_ToNumber_finite (qs : list Q) : map ToNumber (map finite qs) = map Fin qs.
Proof. induction qs; simpl; congruence. Qed.

(** ** Baseline classifier *)

(** On finite speeds the label is read off the greatest speed. *)
Lemma baselineClassify_max (speedData : list sample) (qs : list Q) :
  map speedKmh speedData = map finite qs → qs ≠ [] →
  ∃ m, is_max m qs ∧
    baselineClassify speedData =
      if Qlt_bool m 7 then walking else if Qlt_bool m 25 then cycling
      else if Qlt_bool m 80 then bus_or_car else if Qlt_bool m 200 then train
      else unknown.
Proof.
  intros Hspeeds Hne.
  assert (Hlen : length speedData = length qs).
  { rewrite <- (length_map speedKmh speedData), Hspeeds. apply length_map. }
  destruct qs as [|q qs]; [done|].
  unfold baselineClassify. rewrite Hspeeds, Hlen, map_ToNumber_finite.
  destruct (Math_max_Fin q qs) as (m & -> & Hin & Hall).
  exists m. by repeat split.
Qed.

(** C4: the baseline classifier takes the greatest speed [m] of the
    trajectory and answers walking below 7, cycling in [7, 25), bus-or-car
    in [25, 80), train in [80, 200) and unknown from 200 on; the empty
    trajectory is unknown, and a trajectory of zero speeds is walking. *)
Theorem baselineClassify_thresholds (speedData : list sample) (qs : list Q) :
  map speedKmh speedData = map finite qs →
  (qs = [] → baselineClassify speedData = unknown) ∧
  (qs ≠ [] →
     ∃ m, is_max m qs ∧
       ((m < 7)%Q → baselineClassify speedData = walking) ∧
       ((7 <= m)%Q → (m < 25)%Q → baselineClassify speedData = cycling) ∧
       ((25 <= m)%Q → (m < 80)%Q → baselineClassify speedData = bus_or_car) ∧
       ((80 <= m)%Q → (m < 200)%Q → baselineClassify speedData = train) ∧
       ((200 <= m)%Q → baselineClassify speedData = unknown)) ∧
  (qs ≠ [] → Forall (λ q, q == 0)%Q qs → baselineClassify speedData = walking).
Proof.
  intros Hspeeds.
  split; [|split].
  - intros ->. destruct speedData; [done | discriminate].
  - intros Hne.
    destruct (baselineClassify_max _ _ Hspeeds Hne) as (m & Hmax & ->).
    exists m. split; [done|].
    destruct (Qlt_bool m 7) eqn:E7; destruct (Qlt_bool m 25) eqn:E25;
      destruct (Qlt_bool m 80) eqn:E80; destruct (Qlt_bool m 200) eqn:E200;
      rewrite ?Qlt_bool_true, ?Qlt_bool_false in *;
      repeat split; intros; first [reflexivity | lra].
  - intros Hne Hzero.
    destruct (baselineClassify_max _ _ Hspeeds Hne) as (m & [Hin Hall] & ->).
    assert (m == 0)%Q as Hm.
    { rewrite Forall_forall in Hzero. apply Hzero. by apply list_elem_of_In. }
    destruct (Qlt_bool m 7) eqn:E7; [done|].
    apply Qlt_bool_false in E7. lra.
Qed.

Lemma baselineClassify_thresholds_witness :
  baselineClassify [kmhSample 0; kmhSample 0] = walking.
Proof.
  destruct (baselineClassify_thresholds [kmhSample 0; kmhSample 0] [0; 0]%Q eq_refl)
    as (_ & _ & H).
  apply H; [discriminate|]. repeat constructor.
Defined.

(** ** Sorting *)

Lemma filter_defined_finite (qs : list Q) :
  List.filter (λ v, negb (is_undefined v)) (map finite qs) = map finite qs.
Proof. induction qs; simpl; congruence. Qed.

Lemma filter_undefined_finite (qs : list Q) :
  List.filter is_undefined (map finite qs) = [].
Proof. induction qs; simpl; congruence. Qed.

Lemma sort_insert_finite (x : Q) (l : list Q) :
  sort_insert (λ a b, ToNumber a - ToNumber b)%js (finite x) (map finite l)
  = map finite (Qinsert x l).
Proof.
  induction l as [|y l IH]; simpl; [done|].
  unfold js_gt, lit, of_Z. simpl.
  destruct (Qlt_bool _ _); simpl; [by rewrite <- IH | done].
Qed.

Lemma sort_list_finite (qs : list Q) :
  sort_list (λ a b, ToNumber a - ToNumber b)%js (map finite qs) = map finite (Qsort qs).
Proof.
  unfold sort_list. rewrite filter_defined_finite, filter_undefined_finite, app_nil_r.
  induction qs as [|q qs IH]; simpl; [done|].
  by rewrite IH, sort_insert_finite.
Qed.

Lemma Qinsert_Permutation (x : Q) (l : list Q) : Qinsert x l ≡ₚ x :: l.
Proof.
  induction l as [|y l IH]; simpl; [done|].
  destruct (Qlt_bool _ _); [|done].
  rewrite IH. apply perm_swap.
Qed.

Lemma Qsort_Permutation (l : list Q) : Qsort l ≡ₚ l.
Proof.
  induction l as [|x l IH]; simpl; [done|].
  by rewrite Qinsert_Permutation, IH.
Qed.

Lemma Qsort_length (l : list Q) : length (Qsort l) = length l.
Proof. apply Permutation_length, Qsort_Permutation. Qed.

Lemma Qinsert_sorted (x : Q) (l : list Q) :
  StronglySorted Qle l → StronglySorted Qle (Qinsert x l).
Proof.
  induction 1 as [|y l Hsorted IH Hall]; simpl.
  - repeat constructor.
  - destruct (Qlt_bool _ _) eqn:E.
    + apply Qlt_bool_true in E.
      constructor; [done|].
      rewrite Qinsert_Permutation. constructor; [lra | done].
    + apply Qlt_bool_false in E.
      constructor; [by constructor|].
      constructor; [lra|].
      eapply Forall_impl; [exact Hall|]. simpl. intros z Hz. lra.
Qed.

Lemma Qsort_sorted (l : list Q) : StronglySorted Qle (Qsort l).
Proof.
  induction l as [|x l IH]; simpl; [constructor | by apply Qinsert_sorted].
Qed.

Lemma StronglySorted_lookup_le (s : list Q) (i j : nat) (x y : Q) :
  StronglySorted Qle s → s !! i = Some x → s !! j = Some y → (i ≤ j)%nat → (x <= y)%Q.
Proof.
  intros Hs. revert i j. induction Hs as [|z s Hs IH Hall]; intros i j Hi Hj Hij.
  - by rewrite lookup_nil in Hi.
  - destruct i as [|i]; destruct j as [|j]; simpl in *; simplify_eq.
    + apply Qle_refl.
    + rewrite Forall_forall in Hall. apply Hall. by eapply list_elem_of_lookup_2.
    + lia.
    + eapply IH; eauto. lia.
Qed.

(** ** Percentile *)

(** What a call of [percentile] does to the store: the sorted copy is the
    one new array. *)
Lemma percentile_run (h : heap) (arr : nat) (p : number) :
  percentile arr p h =
    (let sorted := sort_list (λ a b, ToNumber a - ToNumber b)%js (contents h arr) in
     (index_list sorted
        (Math_max [lit 0;
                   (Math_ceil ((p / lit 100) * of_nat (length sorted)) - lit 1)%js]),
      <[fresh (dom h) := sorted]> h)).
Proof.
  unfold percentile, bind, array_spread, array_new, array_sort, array_length,
    array_get, contents. simpl.
  rewrite !lookup_insert_eq. simpl. by rewrite insert_insert_eq.
Qed.

Lemma Qfloor_pred (c : Z) : Qfloor (inject_Z c + - inject_Z 1) = (c - 1)%Z.
Proof.
  rewrite <- (Qfloor_Z (c - 1)). apply Qfloor_comp.
  unfold Z.sub. rewrite inject_Z_plus, inject_Z_opp. reflexivity.
Qed.

Lemma Qceiling_percent_le (p : Q) (n : nat) :
  (0 <= p)%Q → (p <= 100)%Q →
  (0 ≤ Qceiling (p / 100 * inject_Z (Z.of_nat n)) ≤ Z.of_nat n)%Z.
Proof.
  intros H0 H100.
  assert (0 <= inject_Z (Z.of_nat n))%Q as Hn.
  { rewrite <- (Zle_Qle 0). lia. }
  split.
  - rewrite <- (Qceiling_Z 0). apply Qceiling_resp_le.
    apply Qmult_le_0_compat; [|done].
    apply Qle_shift_div_l; [reflexivity | lra].
  - rewrite <- (Qceiling_Z (Z.of_nat n)) at 2. apply Qceiling_resp_le.
    rewrite <- (Qmult_1_l (inject_Z (Z.of_nat n))) at 2.
    apply Qmult_le_compat_r; [|done].
    apply Qle_shift_div_r; [reflexivity | lra].
Qed.

(** The element [percentile] reads is the one at [percentile_index]. *)
Lemma percentile_read (p : Q) (l : list value) :
  (0 <= p)%Q → (p <= 100)%Q → l ≠ [] →
  index_list l
    (Math_max [lit 0; (Math_ceil ((Fin p / lit 100) * of_nat (length l)) - lit 1)%js])
  = default undefined (l !! percentile_index p (length l)).
Proof.
  intros H0 H100 Hne.
  assert (0 < length l)%nat as Hlen by (destruct l; [done | simpl; lia]).
  pose proof (Qceiling_percent_le p (length l) H0 H100) as Hc.
  unfold percentile_index.
  change (Fin p / lit 100)%js with (Fin (p / 100)).
  unfold of_nat, of_Z, lit. simpl js_mul. simpl Math_ceil. unfold of_Z.
  set (c := Qceiling (p / 100 * inject_Z (Z.of_nat (length l)))) in *.
  change (Fin (inject_Z c) - of_Z 1)%js with (Fin (inject_Z c + - inject_Z 1)).
  unfold Math_max. simpl foldl.
  change (max2 NegInf (of_Z 0)) with (Fin (inject_Z 0)).
  unfold max2, js_lt.
  destruct (Qlt_bool _ _) eqn:E; unfold index_list.
  - apply Qlt_bool_true in E.
    assert (1 ≤ c)%Z as Hc1.
    { destruct (Z_lt_le_dec c 1) as [Hlt|]; [|done]. exfalso.
      change (inject_Z 1) with 1%Q in E. change (inject_Z 0) with 0%Q in *.
      assert (inject_Z c <= inject_Z 0)%Q as Hc0 by (rewrite <- Zle_Qle; lia).
      revert E. apply Qle_not_lt.
      assert (inject_Z c + - (1) <= 0 + - (1))%Q by (apply Qplus_le_compat; [done | apply Qle_refl]).
      lra. }
    rewrite Qfloor_pred.
    assert (Qeq_bool (inject_Z c + - inject_Z 1) (inject_Z (c - 1)) = true) as ->.
    { apply Qeq_bool_iff. unfold Z.sub. rewrite inject_Z_plus, inject_Z_opp. reflexivity. }
    assert ((0 <=? c - 1)%Z = true) as -> by (apply Z.leb_le; lia).
    simpl. do 2 f_equal. lia.
  - apply Qlt_bool_false in E.
    assert (c ≤ 1)%Z as Hc1.
    { destruct (Z_lt_le_dec 1 c) as [Hlt|]; [|lia]. exfalso.
      assert (inject_Z 2 <= inject_Z c)%Q as Hc2 by (rewrite <- Zle_Qle; lia).
      change (inject_Z 1) with 1%Q in E. change (inject_Z 0) with 0%Q in *.
      change (inject_Z 2) with 2%Q in *. lra. }
    change (Qfloor (inject_Z 0)) with 0%Z. simpl. do 2 f_equal. lia.
Qed.

Lemma Qsort_bounds (qs : list Q) (i : nat) (v : Q) :
  Qsort qs !! i = Some v →
  In v qs ∧
  (i = 0%nat → Forall (λ q, v <= q)%Q qs) ∧
  (i = (length qs - 1)%nat → Forall (λ q, q <= v)%Q qs).
Proof.
  intros Hv.
  pose proof (Qsort_sorted qs) as Hs. pose proof (Qsort_Permutation qs) as Hp.
  split; [|split].
  - apply list_elem_of_In. rewrite <- Hp. by eapply list_elem_of_lookup_2.
  - intros ->. rewrite <- Hp. apply Forall_lookup. intros j q Hq.
    eapply StronglySorted_lookup_le; eauto. lia.
  - intros ->. rewrite <- Hp. apply Forall_lookup. intros j q Hq.
    eapply StronglySorted_lookup_le; eauto.
    apply lookup_lt_Some in Hq. rewrite Qsort_length in Hq. lia.
Qed.

Lemma percentile_index_lt (p : Q) (n : nat) :
  (0 < n)%nat → (percentile_index p n < n)%nat.
Proof. unfold percentile_index. lia. Qed.

Lemma percentile_index_100 (p : Q) (n : nat) :
  (p == 100)%Q → percentile_index p n = (n - 1)%nat.
Proof.
  intros Hp. unfold percentile_index.
  assert (Qceiling (p / 100 * inject_Z (Z.of_nat n)) = Z.of_nat n) as ->.
  { rewrite <- (Qceiling_Z (Z.of_nat n)) at 2. apply Qceiling_comp.
    rewrite Hp. field. }
  lia.
Qed.

Lemma percentile_index_0 (p : Q) (n : nat) :
  (p == 0)%Q → percentile_index p n = 0%nat.
Proof.
  intros Hp. unfold percentile_index.
  assert (Qceiling (p / 100 * inject_Z (Z.of_nat n)) = 0%Z) as ->.
  { rewrite <- (Qceiling_Z 0). apply Qceiling_comp. rewrite Hp. field. }
  lia.
Qed.



(** ** Percentile95 classifier *)

(** The label of a non-empty trajectory is read off the element of the
    sorted speeds that [percentile] selects. *)
Lemma percentile95Classify_run (speedData : list sample) (h : heap) :
  speedData ≠ [] →
  (percentile95Classify speedData h).1 =
    (let sorted := sort_list (λ a b, ToNumber a - ToNumber b)%js (map speedKmh speedData) in
     let p95Speed :=
       ToNumber (index_list sorted
         (Math_max [lit 0;
            (Math_ceil ((lit 95 / lit 100) * of_nat (length sorted)) - lit 1)%js])) in
     if (p95Speed <? lit 7)%js then walking
     else if (p95Speed <? lit 25)%js then cycling
     else if (p95Speed <? lit 80)%js then bus_or_car
     else if (p95Speed <? lit 200)%js then train
     else unknown).
Proof.
  intros Hne. unfold percentile95Classify.
  destruct speedData as [|s speedData]; [done|].
  change (length (s :: speedData) =? 0)%nat with false. cbv iota.
  unfold bind, array_new. rewrite percentile_run.
  unfold contents. rewrite lookup_insert_eq. reflexivity.
Qed.

Lemma percentile_index_95 (n : nat) :
  (20 ≤ n)%nat → (percentile_index 95 n < n - 1)%nat.
Proof.
  intros Hn. unfold percentile_index.
  assert (Qceiling (95 / 100 * inject_Z (Z.of_nat n)) ≤ Z.of_nat n - 1)%Z.
  { rewrite <- (Qceiling_Z (Z.of_nat n - 1)). apply Qceiling_resp_le.
    unfold Z.sub. rewrite inject_Z_plus, inject_Z_opp.
    assert (inject_Z 20 <= inject_Z (Z.of_nat n))%Q as H20 by (rewrite <- Zle_Qle; lia).
    change (inject_Z 20) with 20%Q in H20. change (inject_Z 1) with 1%Q.
    assert (95 / 100 == 19 # 20)%Q as -> by reflexivity. lra. }
  lia.
Qed.

(** In the sorted speeds of a trajectory with one outlier, every element
    but the last stays at or below the bound of the others. *)
Lemma Qsort_below_outlier (l1 l2 : list Q) (o t : Q) (i : nat) (v : Q) :
  Forall (λ q, q <= t)%Q (l1 ++ l2) → (t < o)%Q →
  (i < length (l1 ++ o :: l2) - 1)%nat →
  Qsort (l1 ++ o :: l2) !! i = Some v → (v <= t)%Q.
Proof.
  intros Hall Ho Hi Hv.
  set (qs := l1 ++ o :: l2) in *.
  assert (is_Some (Qsort qs !! (length qs - 1)%nat)) as [hi Hhi].
  { apply lookup_lt_is_Some. rewrite Qsort_length. lia. }
  destruct (Qsort_bounds _ _ _ Hhi) as (Hin & _ & Hmax).
  specialize (Hmax eq_refl).
  assert (hi = o) as ->.
  { apply in_app_or in Hin. simpl in Hin.
    assert (o <= hi)%Q as Hle.
    { rewrite Forall_forall in Hmax. apply Hmax. apply list_elem_of_In.
      apply in_or_app. right. by left. }
    rewrite Forall_forall in Hall.
    destruct Hin as [Hin|[Heq|Hin]]; [|done|].
    - assert (hi <= t)%Q by (apply Hall, list_elem_of_In, in_or_app; by left). lra.
    - assert (hi <= t)%Q by (apply Hall, list_elem_of_In, in_or_app; by right). lra. }
  assert (Qsort qs = take (length qs - 1) (Qsort qs) ++ [o]) as Hsplit.
  { rewrite <- (take_drop (length qs - 1) (Qsort qs)) at 1. f_equal.
    apply list_eq. intros j. rewrite lookup_drop.
    destruct j as [|j]; simpl.
    - by rewrite Nat.add_0_r.
    - apply lookup_ge_None_2. rewrite Qsort_length. lia. }
  assert (take (length qs - 1) (Qsort qs) ≡ₚ l1 ++ l2) as Hperm.
  { apply (Permutation_cons_inv (a := o)).
    transitivity (take (length qs - 1) (Qsort qs) ++ [o]);
      [apply Permutation_cons_append|].
    rewrite <- Hsplit. transitivity qs; [apply Qsort_Permutation|].
    symmetry. apply Permutation_middle. }
  rewrite Hsplit, lookup_app_l in Hv.
  - rewrite Forall_forall in Hall. apply Hall. rewrite <- Hperm.
    by eapply list_elem_of_lookup_2.
  - rewrite length_take, Qsort_length. lia.
Qed.

(** C9: on a trajectory of at least 20 samples whose speeds are at most
    6 km/h except for one sample at 50 km/h, Percentile95 still answers
    walking while Baseline answers bus-or-car. *)
Theorem percentile95_resists_outlier (speedData : list sample) (l1 l2 : list Q)
    (o : Q) (h : heap) :
  map speedKmh speedData = map finite (l1 ++ o :: l2) →
  (20 ≤ length speedData)%nat →
  Forall (λ q, q <= 6)%Q (l1 ++ l2) →
  (o == 50)%Q →
  (percentile95Classify speedData h).1 = walking ∧
  baselineClassify speedData = bus_or_car.
Proof.
  intros Hspeeds Hlen Hall Ho.
  assert (length speedData = length (l1 ++ o :: l2)) as Hlen'.
  { rewrite <- (length_map speedKmh speedData), Hspeeds. apply length_map. }
  split.
  - rewrite percentile95Classify_run; [|by destruct speedData; [simpl in Hlen; lia|]].
    cbv zeta. rewrite Hspeeds, sort_list_finite.
    change (lit 95) with (Fin 95).
    rewrite percentile_read; [|discriminate|discriminate|].
    + rewrite length_map, Qsort_length, list_lookup_fmap.
      pose proof (percentile_index_95 (length (l1 ++ o :: l2))) as Hidx.
      destruct (Qsort (l1 ++ o :: l2) !! percentile_index 95 (length (l1 ++ o :: l2)))
        as [v|] eqn:Hv.
      * assert (v <= 6)%Q as Hv6.
        { eapply (Qsort_below_outlier l1 l2 o 6); eauto; [lra | lia]. }
        simpl. unfold lit, of_Z, js_lt.
        assert (Qlt_bool v (inject_Z 7) = true) as ->; [|done].
        apply Qlt_bool_true. change (inject_Z 7) with 7%Q. lra.
      * apply lookup_ge_None in Hv. rewrite Qsort_length in Hv. lia.
    + intros Hnil. apply (f_equal length) in Hnil.
      rewrite length_map, Qsort_length in Hnil. simpl in Hnil. lia.
  - destruct (baselineClassify_max speedData (l1 ++ o :: l2) Hspeeds)
      as (m & [Hin Hmax] & ->); [by destruct l1|].
    assert (m == 50)%Q as Hm.
    { assert (o <= m)%Q as Hle.
      { rewrite Forall_forall in Hmax. apply Hmax, list_elem_of_In, in_or_app.
        right. by left. }
      rewrite Forall_forall in Hall.
      apply in_app_or in Hin. simpl in Hin.
      destruct Hin as [Hin|[Heq|Hin]]; [|by subst|].
      - assert (m <= 6)%Q by (apply Hall, list_elem_of_In, in_or_app; by left). lra.
      - assert (m <= 6)%Q by (apply Hall, list_elem_of_In, in_or_app; by right). lra. }
    assert (Qlt_bool m 7 = false) as -> by (apply Qlt_bool_false; lra).
    assert (Qlt_bool m 25 = false) as -> by (apply Qlt_bool_false; lra).
    assert (Qlt_bool m 80 = true) as -> by (apply Qlt_bool_true; lra).
    done.
Qed.

Lemma percentile95_resists_outlier_witness :
  let speedData :=
    map kmhSample ([5; 4; 6; 3; 5; 4; 6; 3; 5; 4] ++ 50 :: [5; 4; 6; 3; 5; 4; 6; 3; 5])%Q in
  (percentile95Classify speedData ∅).1 = walking ∧ baselineClassify speedData = bus_or_car.
Proof.
  apply (percentile95_resists_outlier _ [5; 4; 6; 3; 5; 4; 6; 3; 5; 4]%Q
           [5; 4; 6; 3; 5; 4; 6; 3; 5]%Q 50 ∅).
  - reflexivity.
  - simpl. lia.
  - repeat (constructor; [discriminate|]). constructor.
  - reflexivity.
Defined.

(** ** Loops *)

Lemma for_loop_inv {St : Type} (body : nat → St → outcome St) (I : nat → St → Prop)
    (start count : nat) (s : St) :
  I start s →
  (∀ i s, (start ≤ i < start + count)%nat → I i s → ∃ s', body i s = Ok s' ∧ I (S i) s') →
  ∃ s', for_loop body start count s = Ok s' ∧ I (start + count)%nat s'.
Proof.
  revert start s. induction count as [|count IH]; intros start s Hs Hstep; simpl.
  - exists s. by rewrite Nat.add_0_r.
  - destruct (Hstep start s) as (s1 & -> & Hs1); [lia | done |]. simpl.
    destruct (IH (S start) s1 Hs1) as (s' & -> & Hs').
    + intros i s2 Hi. apply Hstep. lia.
    + exists s'. split; [done|]. by replace (start + S count)%nat with (S start + count)%nat by lia.
Qed.

Lemma point_at_Some (points : list sample) (i : nat) (p : sample) :
  points !! i = Some p → point_at points (Z.of_nat i) = Ok p.
Proof.
  intros Hp. unfold point_at.
  destruct (Z.of_nat i <? 0)%Z eqn:E; [apply Z.ltb_lt in E; lia|].
  by rewrite Nat2Z.id, Hp.
Qed.

Lemma point_at_in_range (points : list sample) (z : Z) :
  (0 ≤ z < Z.of_nat (length points))%Z → ∃ p, point_at points z = Ok p.
Proof.
  intros Hz. destruct (lookup_lt_is_Some_2 points (Z.to_nat z)) as [p Hp]; [lia|].
  exists p. rewrite <- (Z2Nat.id z) by lia. by apply point_at_Some.
Qed.

(** ** Stops *)

Section Stops.
Context `{Host}.
Context (points : list sample) (threshold : number).

Lemma findStops_inv_open (i : nat) (stops : list stop) (p : sample) :
  points !! i = Some p → below threshold p →
  findStops_inv points threshold i (stops, None) →
  findStops_inv points threshold (S i) (stops, Some (Z.of_nat i)).
Proof.
  intros Hp Hbelow (Hchron & Hbounds & _ & Hiff). simpl in *.
  split; [done|]. split; [done|]. split; [intros start [= <-]; lia|].
  intros j q Hj Hq. simpl.
  destruct (decide (j = i)) as [->|Hne].
  - simplify_eq. split; [|done]. intros _. right. eexists. split; [done | lia].
  - rewrite (Hiff j q) by (done || lia). split.
    + intros [Hex|(start & [=] & _)]. by left.
    + intros [Hex|(start & [= <-] & Hle)]; [by left | lia].
Qed.

Lemma findStops_inv_continue (i : nat) (stops : list stop) (start : Z) (p : sample) :
  points !! i = Some p → below threshold p →
  findStops_inv points threshold i (stops, Some start) →
  findStops_inv points threshold (S i) (stops, Some start).
Proof.
  intros Hp Hbelow (Hchron & Hbounds & Hstart & Hiff). simpl in *.
  split; [done|]. split; [done|].
  split; [intros start' [= <-]; specialize (Hstart start eq_refl); lia|].
  intros j q Hj Hq. simpl.
  destruct (decide (j = i)) as [->|Hne].
  - simplify_eq. split; [|done]. intros _. right. exists start.
    split; [done|]. specialize (Hstart start eq_refl). lia.
  - apply Hiff; [lia | done].
Qed.

Lemma findStops_inv_close (i : nat) (stops : list stop) (start : Z) (d dist : number) :
  findStops_inv points threshold i (stops, Some start) →
  findStops_inv points threshold i
    (stops ++ [mkStop start (Z.of_nat i - 1) d dist], None).
Proof.
  intros (Hchron & Hbounds & Hstart & Hiff). simpl in *.
  specialize (Hstart start eq_refl).
  unfold findStops_inv. simpl.
  split; [|split; [|split]].
  - apply StronglySorted_app_2; [| done | repeat constructor].
    intros s1 s2 Hs1 Hs2. apply list_elem_of_singleton in Hs2 as ->. simpl.
    rewrite Forall_forall in Hbounds. by apply Hbounds.
  - apply Forall_app. split.
    + eapply Forall_impl; [exact Hbounds|]. simpl. lia.
    + repeat constructor; simpl; lia.
  - intros start' [=].
  - intros j q Hj Hq. rewrite (Hiff j q Hj Hq), Exists_app, Exists_cons, Exists_nil.
    split.
    + intros [Hex|(start' & [= <-] & Hle)]; [by left; left|].
      left. right. left. unfold covers. simpl. lia.
    + intros [[Hex|[Hcov|[]]]|(start' & [=] & _)]; [by left|].
      right. exists start. split; [done|]. unfold covers in Hcov. simpl in Hcov. lia.
Qed.

Lemma findStops_inv_skip (i : nat) (stops : list stop) (p : sample) :
  points !! i = Some p → ¬ below threshold p →
  findStops_inv points threshold i (stops, None) →
  findStops_inv points threshold (S i) (stops, None).
Proof.
  intros Hp Hnot (Hchron & Hbounds & _ & Hiff). simpl in *.
  split; [done|]. split; [|split; [intros start [=]|]].
  - eapply Forall_impl; [exact Hbounds|]. simpl. lia.
  - intros j q Hj Hq.
    destruct (decide (j = i)) as [->|Hne]; [|apply Hiff; [lia | done]].
    simplify_eq. split; [done|].
    intros [Hex|(start & [=] & _)]. exfalso.
    apply Exists_exists in Hex as (s & Hs & Hcov).
    rewrite Forall_forall in Hbounds. specialize (Hbounds s Hs).
    unfold covers in Hcov. lia.
Qed.

(** One turn of the scan returns and keeps the invariant. *)
Lemma findStops_body_inv (i : nat) (st : list stop * option Z) :
  (i < length points)%nat →
  findStops_inv points threshold i st →
  ∃ st', findStops_body points threshold i st = Ok st' ∧
         findStops_inv points threshold (S i) st'.
Proof.
  intros Hi Hinv. destruct st as [stops stopStart].
  destruct (lookup_lt_is_Some_2 points i Hi) as [p Hp].
  unfold findStops_body. rewrite (point_at_Some _ _ _ Hp). simpl.
  destruct (stopSpeed p <? threshold)%js eqn:Hspeed.
  - destruct stopStart as [start|]; eexists; (split; [done|]).
    + by eapply findStops_inv_continue.
    + by eapply findStops_inv_open.
  - assert (¬ below threshold p) as Hnot by (unfold below; congruence).
    destruct stopStart as [start|].
    + pose proof Hinv as (_ & _ & Hstart & _). specialize (Hstart start eq_refl).
      simpl in Hstart.
      destruct (point_at_in_range points (Z.of_nat i - 1)) as [pprev ->]; [lia|].
      destruct (point_at_in_range points start) as [pstart ->]; [lia|]. simpl.
      destruct (start >? 0)%Z eqn:Hpos.
      * apply Z.gtb_lt in Hpos.
        destruct (point_at_in_range points (start - 1)) as [pbefore ->]; [lia|]. simpl.
        eexists. split; [done|].
        eapply findStops_inv_skip; [done | done |]. by apply findStops_inv_close.
      * simpl. eexists. split; [done|].
        eapply findStops_inv_skip; [done | done |]. by apply findStops_inv_close.
    + eexists. split; [done|]. by eapply findStops_inv_skip.
Qed.

Lemma findStops_inv_start : findStops_inv points threshold 0 ([], None).
Proof.
  split; [constructor|]. split; [constructor|]. split; [intros start [=]|].
  intros j p Hj. lia.
Qed.

(** [findStops] returns, its stops are in order, do not overlap, lie within
    the trajectory, and hold exactly the stopped samples. *)
Lemma findStops_spec :
  ∃ stops, findStops points threshold = Ok stops ∧
    chronological stops ∧
    Forall (within (length points)) stops ∧
    (∀ j p, points !! j = Some p → (below threshold p ↔ Exists (covers j) stops)).
Proof.
  destruct (for_loop_inv (findStops_body points threshold) (findStops_inv points threshold)
              0 (length points) ([], None) findStops_inv_start)
    as ([stops stopStart] & Hloop & Hinv).
  { intros i s Hi. apply findStops_body_inv. lia. }
  simpl in Hinv. unfold findStops. rewrite Hloop. simpl.
  assert (∀ stops', findStops_inv points threshold (length points) (stops', None) →
    chronological stops' ∧
    Forall (within (length points)) stops' ∧
    (∀ j p, points !! j = Some p → (below threshold p ↔ Exists (covers j) stops')))
    as Hfinal.
  { intros stops' (Hchron & Hbounds & _ & Hiff). simpl in *.
    split; [done|]. split; [exact Hbounds|].
    intros j p Hp. rewrite (Hiff j p); [|by eapply lookup_lt_Some|done].
    split; [|by left]. by intros [?|(start & [=] & _)]. }
  destruct stopStart as [start|]; [|exists stops; split; [done | by apply Hfinal]].
  pose proof Hinv as (_ & _ & Hstart & _). specialize (Hstart start eq_refl). simpl in Hstart.
  destruct (point_at_in_range points (Z.of_nat (length points) - 1)) as [plast ->]; [lia|].
  destruct (point_at_in_range points start) as [pstart ->]; [lia|]. simpl.
  destruct (start >? 0)%Z eqn:Hpos.
  - apply Z.gtb_lt in Hpos.
    destruct (point_at_in_range points (start - 1)) as [pbefore ->]; [lia|]. simpl.
    eexists. split; [done|]. by apply Hfinal, findStops_inv_close.
  - simpl. eexists. split; [done|]. by apply Hfinal, findStops_inv_close.
Qed.

End Stops.

Section StopsOfUniformTrajectories.
Context `{Host}.
Context (points : list sample) (threshold : number).

Lemma findStops_loop_all_below :
  Forall (below threshold) points →
  for_loop (findStops_body points threshold) 0 (length points) ([], None)
  = Ok ([], if length points is O then None else Some 0%Z).
Proof.
  intros Hall.
  destruct (for_loop_inv (findStops_body points threshold)
              (λ i st, st = ([], if i is O then None else Some 0%Z))
              0 (length points) ([], None) eq_refl) as (st & -> & ->); [|done].
  intros i st Hi ->.
  destruct (lookup_lt_is_Some_2 points i) as [p Hp]; [lia|].
  unfold findStops_body. rewrite (point_at_Some _ _ _ Hp). simpl.
  rewrite Forall_forall in Hall.
  rewrite (Hall p) by (by eapply list_elem_of_lookup_2).
  destruct i; eexists; done.
Qed.

Lemma findStops_loop_none_below :
  Forall (λ p, ¬ below threshold p) points →
  for_loop (findStops_body points threshold) 0 (length points) ([], None)
  = Ok ([], None).
Proof.
  intros Hall.
  destruct (for_loop_inv (findStops_body points threshold)
              (λ i st, st = ([], None))
              0 (length points) ([], None) eq_refl) as (st & -> & ->); [|done].
  intros i st Hi ->.
  destruct (lookup_lt_is_Some_2 points i) as [p Hp]; [lia|].
  unfold findStops_body. rewrite (point_at_Some _ _ _ Hp). simpl.
  rewrite Forall_forall in Hall.
  destruct (stopSpeed p <? threshold)%js eqn:E; [|by eexists].
  exfalso. by apply (Hall p); [eapply list_elem_of_lookup_2|].
Qed.

(** C6 (amended): [findStops] returns; on a non-empty trajectory whose
    samples are all below the threshold it returns the one stop from index 0
    to index N-1; when no sample is below the threshold it returns no stop;
    and its stops never overlap and come in chronological order. *)
Theorem findStops_runs :
  ∃ stops, findStops points threshold = Ok stops ∧
    (points ≠ [] → Forall (below threshold) points →
       ∃ d, stops = [mkStop 0 (Z.of_nat (length points) - 1) d (lit 0)]) ∧
    (Forall (λ p, ¬ below threshold p) points → stops = []) ∧
    chronological stops ∧
    Forall (within (length points)) stops.
Proof.
  destruct (findStops_spec points threshold) as (stops & Hrun & Hchron & Hwithin & _).
  exists stops. split; [done|]. split; [|split; [|done]].
  - intros Hne Hall. revert Hrun. unfold findStops.
    rewrite (findStops_loop_all_below Hall).
    destruct points as [|p0 points'] eqn:Hpoints; [done|].
    rewrite <- Hpoints in *. assert (0 < length points)%nat by (subst; simpl; lia).
    replace (length points) with (S (length points')) at 1 by (by subst).
    simpl.
    destruct (point_at_in_range points (Z.of_nat (length points) - 1)) as [plast ->]; [lia|].
    destruct (point_at_in_range points 0) as [pstart ->]; [lia|]. simpl.
    intros [= <-]. by eexists.
  - intros Hall. revert Hrun. unfold findStops.
    rewrite (findStops_loop_none_below Hall). simpl. by intros [= <-].
Qed.

End StopsOfUniformTrajectories.

Lemma findStops_runs_witness :
  ∃ d, @findStops plainHost [msSample 0; msSample 0; msSample 0] defaultSpeedThreshold
       = Ok [mkStop 0 2 d (lit 0)].
Proof.
  destruct (@findStops_runs plainHost [msSample 0; msSample 0; msSample 0]
              defaultSpeedThreshold) as (stops & Hrun & Hbelow & _).
  destruct Hbelow as [d ->].
  - discriminate.
  - repeat constructor.
  - exists d. exact Hrun.
Defined.

(** C6, as stated, at the empty trajectory: every sample is below the
    threshold and [findStops] returns no stop. *)
Lemma findStops_empty_no_stop :
  Forall (below defaultSpeedThreshold) [] ∧
  @findStops plainHost [] defaultSpeedThreshold = Ok [] ∧
  ¬ ∃ s, @findStops plainHost [] defaultSpeedThreshold = Ok [s].
Proof. split; [constructor|]. split; [reflexivity|]. intros [s Hs]. discriminate. Qed.

(** ** Trajectories without [speedKmh] *)

Lemma foldl_max2_NaN (xs : list number) : foldl max2 NaN xs = NaN.
Proof. induction xs; simpl; auto. Qed.

Lemma baselineClassify_undefined (speedData : list sample) :
  speedData ≠ [] → Forall (λ p, speedKmh p = undefined) speedData →
  baselineClassify speedData = unknown.
Proof.
  intros Hne Hall. destruct speedData as [|p speedData]; [done|].
  apply Forall_cons in Hall as [Hp _].
  unfold baselineClassify, Math_max. simpl. rewrite Hp. simpl.
  by rewrite foldl_max2_NaN.
Qed.

Lemma sort_list_undefined (cmp : value → value → number) (xs : list value) :
  Forall (λ v, v = undefined) xs → sort_list cmp xs = xs.
Proof.
  intros Hall. unfold sort_list.
  assert (List.filter (λ v, negb (is_undefined v)) xs = []) as ->.
  { induction Hall as [|v xs -> Hall IH]; simpl; done. }
  simpl. induction Hall as [|v xs -> Hall IH]; simpl; congruence.
Qed.

Lemma index_list_undefined (xs : list value) (i : number) :
  Forall (λ v, v = undefined) xs → index_list xs i = undefined.
Proof.
  intros Hall. unfold index_list. destruct i as [q| | |]; try done.
  destruct (_ && _); [|done].
  destruct (xs !! Z.to_nat (Qfloor q)) as [v|] eqn:Hv; [|done].
  rewrite Forall_forall in Hall. apply Hall. by eapply list_elem_of_lookup_2.
Qed.

Lemma percentile95Classify_undefined (speedData : list sample) (h : heap) :
  speedData ≠ [] → Forall (λ p, speedKmh p = undefined) speedData →
  (percentile95Classify speedData h).1 = unknown.
Proof.
  intros Hne Hall. rewrite percentile95Classify_run by done. cbv zeta.
  assert (Forall (λ v, v = undefined) (map speedKmh speedData)) as Hundef.
  { by apply Forall_fmap. }
  rewrite sort_list_undefined by done.
  by rewrite index_list_undefined.
Qed.

(** C10: on a non-empty trajectory whose samples carry [speed] but no
    [speedKmh], Baseline and Percentile95 answer unknown, while [findStops]
    returns stops that hold exactly the samples whose [speed] is below the
    threshold. *)
Theorem speed_fields_not_interchangeable `{Host} (points : list sample)
    (threshold : number) :
  points ≠ [] →
  Forall (λ p, speedKmh p = undefined ∧ ∃ q, speed p = finite q) points →
  baselineClassify points = unknown ∧
  (∀ h, (percentile95Classify points h).1 = unknown) ∧
  ∃ stops, findStops points threshold = Ok stops ∧
    ∀ j p, points !! j = Some p →
      ((ToNumber (speed p) <? threshold)%js = true ↔ Exists (covers j) stops).
Proof.
  intros Hne Hall.
  assert (Forall (λ p, speedKmh p = undefined) points) as Hkmh.
  { eapply Forall_impl; [exact Hall|]. by intros p [? _]. }
  split; [by apply baselineClassify_undefined|].
  split; [intros h; by apply percentile95Classify_undefined|].
  destruct (findStops_spec points threshold) as (stops & Hrun & _ & _ & Hiff).
  exists stops. split; [done|]. intros j p Hp. rewrite <- (Hiff j p Hp).
  rewrite Forall_forall in Hall.
  destruct (Hall p) as (_ & q & Hq); [by eapply list_elem_of_lookup_2|].
  unfold below, stopSpeed. by rewrite Hq.
Qed.

Lemma speed_fields_not_interchangeable_witness :
  baselineClassify [msSample 0; msSample 9] = unknown ∧
  (∀ h, (percentile95Classify [msSample 0; msSample 9] h).1 = unknown) ∧
  ∃ stops, @findStops plainHost [msSample 0; msSample 9] defaultSpeedThreshold = Ok stops ∧
    ∀ j p, [msSample 0; msSample 9] !! j = Some p →
      ((ToNumber (speed p) <? defaultSpeedThreshold)%js = true ↔ Exists (covers j) stops).
Proof.
  apply (@speed_fields_not_interchangeable plainHost).
  - discriminate.
  - repeat constructor; by eexists.
Defined.

(** ** Stop-pattern classifier *)

Section StopPattern.
Context `{Host}.

Lemma totalDistance_loop (gpsData pre l : list sample) (acc : number) :
  gpsData = pre ++ l →
  for_loop (λ i total,
      do* pi := point_at gpsData (Z.of_nat i) in
      do* pj := point_at gpsData (Z.of_nat i + 1) in
      Ok (total + getDistanceBetweenPoints pi pj)%js)
    (length pre) (length l - 1) acc
  = Ok (foldl (λ total pq, (total + getDistanceBetweenPoints pq.1 pq.2)%js)
              acc (zip l (tail l))).
Proof.
  revert pre acc. induction l as [|x l IH]; intros pre acc Hdata; [done|].
  destruct l as [|y l]; [done|].
  replace (length (x :: y :: l) - 1)%nat with (S (length (y :: l) - 1)) by (simpl; lia).
  simpl for_loop.
  rewrite (point_at_Some gpsData (length pre) x).
  2:{ subst. by rewrite lookup_app_r, Nat.sub_diag. }
  replace (Z.of_nat (length pre) + 1)%Z with (Z.of_nat (S (length pre))) by lia.
  rewrite (point_at_Some gpsData (S (length pre)) y).
  2:{ subst. rewrite lookup_app_r by lia. by replace (S (length pre) - length pre)%nat with 1%nat by lia. }
  simpl obind.
  specialize (IH (pre ++ [x]) (acc + getDistanceBetweenPoints x y)%js).
  rewrite length_app in IH. simpl in IH. rewrite Nat.add_1_r in IH.
  rewrite IH; [done|]. by rewrite <- app_assoc.
Qed.

Lemma Math_max_finite_speeds (gpsData : list sample) (qs : list Q) :
  map speedKmh gpsData = map finite qs → qs ≠ [] →
  ∃ m, Math_max (map ToNumber (map speedKmh gpsData)) = Fin m ∧ is_max m qs.
Proof.
  intros -> Hne. rewrite map_ToNumber_finite.
  destruct qs as [|q qs]; [done|].
  destruct (Math_max_Fin q qs) as (m & -> & Hin & Hall). by exists m.
Qed.

Lemma is_max_Qeq (m m' : Q) (qs : list Q) : is_max m qs → is_max m' qs → (m == m')%Q.
Proof.
  intros [Hin Hall] [Hin' Hall']. rewrite Forall_forall in Hall, Hall'.
  apply Qle_antisym; [apply Hall' | apply Hall]; by apply list_elem_of_In.
Qed.

(** X24: outside the guard, with a greatest speed below 25 or above 80
    km/h, the classifier declines to answer. *)
Lemma stopPatternClassify_out_of_range (gpsData : list sample) (qs : list Q) (m : Q) :
  map speedKmh gpsData = map finite qs → is_max m qs →
  (m < 25)%Q ∨ (80 < m)%Q →
  stopPatternClassify gpsData = Ok None.
Proof.
  intros Hspeeds Hmax Hm. unfold stopPatternClassify.
  destruct (length gpsData =? 0)%nat; [done|].
  destruct (findStops_spec gpsData defaultSpeedThreshold) as (stops & -> & _).
  cbn [obind].
  destruct (Math_max_finite_speeds gpsData qs Hspeeds) as (m' & -> & Hmax').
  { destruct Hmax as [Hin _]. by destruct qs. }
  pose proof (is_max_Qeq _ _ _ Hmax Hmax') as Heq.
  assert ((Fin m' <? lit 25)%js || (Fin m' >? lit 80)%js = true) as ->; [|done].
  apply orb_true_iff. destruct Hm; [left | right]; to_Q.
  - change (inject_Z 25) with 25%Q. lra.
  - change (inject_Z 80) with 80%Q. lra.
Qed.

(** Inside the guard, which lets a greatest speed of 25 up to and including
    80 through, the answer follows the stops and the path length. *)
Lemma stopPatternClassify_decision (gpsData : list sample) (qs : list Q) (m : Q) :
  map speedKmh gpsData = map finite qs → is_max m qs →
  (25 <= m)%Q → (m <= 80)%Q →
  ∃ stops, findStops gpsData defaultSpeedThreshold = Ok stops ∧
    let totalDistance := pathLength gpsData in
    let avgDistanceBetweenStops :=
      (totalDistance / Math_max [lit 1; of_nat (length stops)])%js in
    let stopFrequency := (of_nat (length stops) / (totalDistance / lit 1000))%js in
    let isBusRange :=
      (avgDistanceBetweenStops >? lit 300)%js && (avgDistanceBetweenStops <? lit 1000)%js in
    stopPatternClassify gpsData =
      Ok (Some (if (length stops =? 0)%nat then car
                else if (stopFrequency >? lit 1)%js then bus
                else if isBusRange && (2 <=? length stops)%nat then bus
                else car)).
Proof.
  intros Hspeeds Hmax H25 H80.
  assert (qs ≠ []) as Hne by (destruct Hmax as [Hin _]; by destruct qs).
  destruct (findStops_spec gpsData defaultSpeedThreshold) as (stops & Hstops & _).
  exists stops. split; [done|]. cbv zeta.
  unfold stopPatternClassify.
  assert ((length gpsData =? 0)%nat = false) as ->.
  { apply Nat.eqb_neq. intros Hlen. apply Hne.
    apply (f_equal length) in Hspeeds. rewrite !length_map, Hlen in Hspeeds.
    by destruct qs. }
  rewrite Hstops. cbn [obind].
  destruct (Math_max_finite_speeds gpsData qs Hspeeds Hne) as (m' & -> & Hmax').
  pose proof (is_max_Qeq _ _ _ Hmax Hmax') as Heq.
  assert ((Fin m' <? lit 25)%js || (Fin m' >? lit 80)%js = false) as ->.
  { apply orb_false_iff. split; to_Q.
    - change (inject_Z 25) with 25%Q. lra.
    - change (inject_Z 80) with 80%Q. lra. }
  destruct (length stops =? 0)%nat; [done|].
  unfold pathLength.
  pose proof (totalDistance_loop gpsData [] gpsData (lit 0) eq_refl) as Hloop.
  simpl length in Hloop. rewrite Hloop. cbn [obind].
  by repeat destruct (_ : bool).
Qed.

(** C7: when the greatest speed lies in [25, 80), the classifier answers
    car if [findStops] reports no stop; otherwise bus if there is more than
    one stop per kilometre of path, else bus if the path length per stop
    lies strictly between 300 and 1000 metres and there are at least two
    stops, else car. *)
Theorem stopPatternClassify_automotive (gpsData : list sample) (qs : list Q) (m : Q) :
  map speedKmh gpsData = map finite qs → is_max m qs →
  (25 <= m)%Q → (m < 80)%Q →
  ∃ stops, findStops gpsData defaultSpeedThreshold = Ok stops ∧
    let totalDistance := pathLength gpsData in
    let avgDistanceBetweenStops :=
      (totalDistance / Math_max [lit 1; of_nat (length stops)])%js in
    let stopFrequency := (of_nat (length stops) / (totalDistance / lit 1000))%js in
    let isBusRange :=
      (avgDistanceBetweenStops >? lit 300)%js && (avgDistanceBetweenStops <? lit 1000)%js in
    stopPatternClassify gpsData =
      Ok (Some (if (length stops =? 0)%nat then car
                else if (stopFrequency >? lit 1)%js then bus
                else if isBusRange && (2 <=? length stops)%nat then bus
                else car)).
Proof.
  intros Hspeeds Hmax H25 H80.
  apply (stopPatternClassify_decision gpsData qs m); auto using Qlt_le_weak.
Qed.

(** Whenever the greatest speed is exactly 80 km/h the classifier gives a
    label. *)
Lemma stopPatternClassify_answers_at_80 (gpsData : list sample) (qs : list Q) (m : Q) :
  map speedKmh gpsData = map finite qs → is_max m qs → (m == 80)%Q →
  ∃ label, stopPatternClassify gpsData = Ok (Some label).
Proof.
  intros Hspeeds Hmax Hm.
  destruct (stopPatternClassify_decision gpsData qs m Hspeeds Hmax)
    as (stops & _ & ->); [lra | lra |].
  by eexists.
Qed.

(** C2 at a greatest speed of exactly 80 km/h: the guard [maxSpeed > 80]
    lets the trajectory through and the classifier answers car. *)
Theorem stopPatternClassify_at_80 :
  stopPatternClassify [kmhSample 80] = Ok (Some car).
Proof. reflexivity. Qed.

End StopPattern.

Lemma stopPatternClassify_automotive_witness :
  @stopPatternClassify plainHost [kmhSample 0; kmhSample 30; kmhSample 40] = Ok (Some car).
Proof.
  destruct (@stopPatternClassify_automotive plainHost
              [kmhSample 0; kmhSample 30; kmhSample 40] [0; 30; 40]%Q 40)
    as (stops & Hstops & Hlabel).
  - reflexivity.
  - split; [right; right; by left|]. repeat (constructor; [discriminate|]). constructor.
  - discriminate.
  - reflexivity.
  - rewrite Hlabel. revert Hstops. vm_compute. intros [= <-]. reflexivity.
Defined.

(** ** Heading changes *)

Lemma while_loop_S {St : Type} (fuel : nat) (cond : St → bool) (body : St → St) (s : St) :
  while_loop (S fuel) cond body s
  = if cond s then while_loop fuel cond body (body s) else Ok s.
Proof. reflexivity. Qed.

Lemma inject_Z_of_nat_S (k : nat) :
  (inject_Z (Z.of_nat (S k)) == inject_Z (Z.of_nat k) + 1)%Q.
Proof. rewrite Nat2Z.inj_succ. unfold Z.succ. by rewrite inject_Z_plus. Qed.

Lemma while_loop_sub (P : Q) (k fuel : nat) (c : Q) :
  (0 < P)%Q → (c <= P + inject_Z (Z.of_nat k) * (2 * P))%Q → (k < fuel)%nat →
  ∃ c', while_loop fuel (λ x, x >? Fin P)%js (λ x, x - lit 2 * Fin P)%js (Fin c) = Ok (Fin c') ∧
        (c' <= P)%Q ∧ ((c <= P)%Q → c' = c) ∧ ((P < c)%Q → (- P < c')%Q) ∧
        ∃ j : Z, (c' == c - inject_Z j * (2 * P))%Q.
Proof.
  intros HP.
  set (cond := λ x, (x >? Fin P)%js). set (body := λ x, (x - lit 2 * Fin P)%js).
  assert (∀ c, (c <= P)%Q → ∀ fuel,
            ∃ c', while_loop (S fuel) cond body (Fin c) = Ok (Fin c') ∧
              (c' <= P)%Q ∧ ((c <= P)%Q → c' = c) ∧ ((P < c)%Q → (- P < c')%Q) ∧
              ∃ j : Z, (c' == c - inject_Z j * (2 * P))%Q) as Hstop.
  { clear. intros c Hc fuel. rewrite while_loop_S.
    change (cond (Fin c)) with (Qlt_bool P c).
    assert (Qlt_bool P c = false) as -> by (by apply Qlt_bool_false).
    exists c. split; [done|]. split; [done|]. split; [done|]. split; [lra|].
    exists 0%Z. change (inject_Z 0) with 0%Q. ring. }
  revert fuel c. induction k as [|k IH]; intros fuel c Hc Hfuel;
    (destruct fuel as [|fuel]; [lia|]).
  - change (inject_Z (Z.of_nat 0)) with 0%Q in Hc. apply Hstop. lra.
  - destruct (Qlt_le_dec P c) as [Hlt|Hle]; [|by apply Hstop].
    rewrite while_loop_S. change (cond (Fin c)) with (Qlt_bool P c).
    assert (Qlt_bool P c = true) as -> by (by apply Qlt_bool_true).
    change (body (Fin c)) with (Fin (c + - (2 * P))).
    rewrite inject_Z_of_nat_S in Hc.
    destruct (IH fuel (c + - (2 * P))%Q) as (c' & Hrun & Hle & Hsame & Hgt & j & Hj);
      [lra | lia |].
    exists c'. split; [done|]. split; [done|]. split; [lra|]. split.
    + intros _. destruct (Qlt_le_dec P (c + - (2 * P))) as [Hlt'|Hge].
      * by apply Hgt.
      * rewrite (Hsame Hge). lra.
    + exists (j + 1)%Z. rewrite inject_Z_plus, Hj. change (inject_Z 1) with 1%Q. ring.
Qed.

Lemma while_loop_add (P : Q) (k fuel : nat) (c : Q) :
  (0 < P)%Q → (- P - inject_Z (Z.of_nat k) * (2 * P) <= c)%Q → (k < fuel)%nat →
  ∃ c', while_loop fuel (λ x, x <? js_neg (Fin P))%js (λ x, x + lit 2 * Fin P)%js (Fin c)
        = Ok (Fin c') ∧
        (- P <= c')%Q ∧ ((- P <= c)%Q → c' = c) ∧ ((c < - P)%Q → (c' < P)%Q) ∧
        ∃ j : Z, (c' == c - inject_Z j * (2 * P))%Q.
Proof.
  intros HP.
  set (cond := λ x, (x <? js_neg (Fin P))%js). set (body := λ x, (x + lit 2 * Fin P)%js).
  assert (∀ c, (- P <= c)%Q → ∀ fuel,
            ∃ c', while_loop (S fuel) cond body (Fin c) = Ok (Fin c') ∧
              (- P <= c')%Q ∧ ((- P <= c)%Q → c' = c) ∧ ((c < - P)%Q → (c' < P)%Q) ∧
              ∃ j : Z, (c' == c - inject_Z j * (2 * P))%Q) as Hstop.
  { clear. intros c Hc fuel. rewrite while_loop_S.
    change (cond (Fin c)) with (Qlt_bool c (- P)).
    assert (Qlt_bool c (- P) = false) as -> by (by apply Qlt_bool_false).
    exists c. split; [done|]. split; [done|]. split; [done|]. split; [lra|].
    exists 0%Z. change (inject_Z 0) with 0%Q. ring. }
  revert fuel c. induction k as [|k IH]; intros fuel c Hc Hfuel;
    (destruct fuel as [|fuel]; [lia|]).
  - change (inject_Z (Z.of_nat 0)) with 0%Q in Hc. apply Hstop. lra.
  - destruct (Qlt_le_dec c (- P)) as [Hlt|Hle]; [|by apply Hstop].
    rewrite while_loop_S. change (cond (Fin c)) with (Qlt_bool c (- P)).
    assert (Qlt_bool c (- P) = true) as -> by (by apply Qlt_bool_true).
    change (body (Fin c)) with (Fin (c + 2 * P)).
    rewrite inject_Z_of_nat_S in Hc.
    destruct (IH fuel (c + 2 * P)%Q) as (c' & Hrun & Hle & Hsame & Hgt & j & Hj);
      [lra | lia |].
    exists c'. split; [done|]. split; [done|]. split; [lra|]. split.
    + intros _. destruct (Qlt_le_dec (c + 2 * P) (- P)) as [Hlt'|Hge].
      * by apply Hgt.
      * rewrite (Hsame Hge). lra.
    + exists (j - 1)%Z. unfold Z.sub. rewrite inject_Z_plus, inject_Z_opp, Hj.
      change (inject_Z 1) with 1%Q. ring.
Qed.

Lemma PI_binary64_pos : (0 < PI_binary64)%Q.
Proof. reflexivity. Qed.

Lemma turns_enough (c : Q) :
  (Qabs c <= inject_Z (Z.of_nat (Nat.pred (turns c))) * (2 * PI_binary64))%Q.
Proof.
  unfold turns. simpl Nat.pred.
  pose proof PI_binary64_pos as HP.
  set (x := (Qabs c / (2 * PI_binary64))%Q).
  assert (0 <= x)%Q as Hx.
  { unfold x. apply Qle_shift_div_l; [lra|]. rewrite Qmult_0_l. apply Qabs_nonneg. }
  assert (0 ≤ Qceiling x)%Z as Hceil.
  { rewrite <- (Qceiling_Z 0). by apply Qceiling_resp_le. }
  rewrite Z2Nat.id by done.
  assert (Qabs c == x * (2 * PI_binary64))%Q as ->.
  { unfold x. field. lra. }
  apply Qmult_le_compat_r; [apply Qle_ceiling | lra].
Qed.

Lemma turnsBound_lookup (hs : list Q) (j : nat) (a b : Q) :
  hs !! j = Some a → hs !! S j = Some b → (turns (b - a) ≤ turnsBound hs)%nat.
Proof.
  revert j. induction hs as [|x hs IH]; intros j Ha Hb; [by rewrite lookup_nil in Ha|].
  destruct hs as [|y hs]; [by rewrite lookup_cons, lookup_nil in Hb|].
  change (turnsBound (x :: y :: hs)) with (Nat.max (turns (y - x)) (turnsBound (y :: hs))).
  destruct j as [|j]; simpl in Ha, Hb.
  - simplify_eq. lia.
  - specialize (IH j Ha Hb). lia.
Qed.

Lemma lookup_headings (points : list sample) (hs : list Q) (i : nat) (p : sample) :
  map heading points = map finite hs → points !! i = Some p →
  ∃ a, hs !! i = Some a ∧ heading p = finite a.
Proof.
  intros Hmap Hp.
  assert (map heading points !! i = Some (heading p)) as Hh.
  { by rewrite list_lookup_fmap, Hp. }
  rewrite Hmap, list_lookup_fmap in Hh.
  destruct (hs !! i) as [a|]; [|done]. exists a. split; [done|]. by injection Hh.
Qed.

(** One turn of the loop on finite headings [a] and [b]. *)
Lemma calculateHeadingChanges_body_finite (points : list sample) (fuel i : nat)
    (pi pj : sample) (a b : Q) (changes : list number) :
  points !! S i = Some pi → points !! i = Some pj →
  heading pi = finite b → heading pj = finite a →
  (turns (b - a) ≤ fuel)%nat →
  ∃ c, calculateHeadingChanges_body fuel points (S i) changes = Ok (changes ++ [Fin c]) ∧
       (0 <= c)%Q ∧ (c <= PI_binary64)%Q ∧ arc_between a b c.
Proof.
  intros Hpi Hpj Hb Ha Hfuel.
  pose proof PI_binary64_pos as HP.
  pose proof (turns_enough (b - a)) as Hturns.
  assert (turns (b - a) = S (Nat.pred (turns (b - a)))) as Hturn by reflexivity.
  set (k := Nat.pred (turns (b - a))) in *.
  assert (k < fuel)%nat as Hk by lia.
  assert (0 <= inject_Z (Z.of_nat k) * (2 * PI_binary64))%Q as Hk0.
  { apply Qmult_le_0_compat; [|lra]. rewrite <- (Zle_Qle 0). lia. }
  unfold calculateHeadingChanges_body.
  rewrite (point_at_Some _ _ _ Hpi). cbn [obind].
  replace (Z.of_nat (S i) - 1)%Z with (Z.of_nat i) by lia.
  rewrite (point_at_Some _ _ _ Hpj). cbn [obind].
  rewrite Ha, Hb. cbv zeta.
  change (ToNumber (finite b) - ToNumber (finite a))%js with (Fin (b + - a)).
  unfold Math_PI.
  assert (Qabs (b + - a) <= inject_Z (Z.of_nat k) * (2 * PI_binary64))%Q as Habs.
  { by change (b + - a)%Q with (b - a)%Q. }
  apply Qabs_Qle_condition in Habs as [Hlo Hhi].
  destruct (while_loop_sub PI_binary64 k fuel (b + - a) HP) as (c1 & -> & H1 & Hsame1 & Hgt1 & j1 & Hj1);
    [lra | done |].
  cbn [obind].
  assert (- PI_binary64 - inject_Z (Z.of_nat k) * (2 * PI_binary64) <= c1)%Q as Hc1.
  { destruct (Qlt_le_dec PI_binary64 (b + - a)) as [Hlt|Hle].
    - specialize (Hgt1 Hlt). lra.
    - rewrite (Hsame1 Hle). lra. }
  destruct (while_loop_add PI_binary64 k fuel c1 HP Hc1 Hk) as (c2 & -> & H2 & Hsame2 & Hlt2 & j2 & Hj2).
  cbn [obind]. exists (Qabs c2). split; [done|].
  assert (c2 <= PI_binary64)%Q as H2'.
  { destruct (Qlt_le_dec c1 (- PI_binary64)) as [Hlt|Hle].
    - specialize (Hlt2 Hlt). lra.
    - by rewrite (Hsame2 Hle). }
  split; [apply Qabs_nonneg|]. split; [by apply Qabs_Qle_condition|].
  exists (j1 + j2)%Z. apply Qabs_wd. rewrite Hj2, Hj1, inject_Z_plus. ring.
Qed.

(** With [turnsBound] fuel the loops end on finite headings, with one
    change in [[0, Math.PI]] per consecutive pair. *)
Lemma calculateHeadingChanges_finite (points : list sample) (hs : list Q) :
  map heading points = map finite hs →
  ∃ fuel0, ∀ fuel, (fuel0 ≤ fuel)%nat →
    ∃ changes : list Q,
      calculateHeadingChanges fuel points = Ok (map Fin changes) ∧
      length changes = (length points - 1)%nat ∧
      Forall (λ c, (0 <= c)%Q ∧ (c <= PI_binary64)%Q) changes ∧
      (∀ i a b c, hs !! i = Some a → hs !! S i = Some b → changes !! i = Some c →
                  arc_between a b c).
Proof.
  intros Hmap. exists (turnsBound hs). intros fuel Hfuel.
  unfold calculateHeadingChanges.
  destruct (for_loop_inv (calculateHeadingChanges_body fuel points)
    (λ i nums, ∃ cs : list Q, nums = map Fin cs ∧ length cs = (i - 1)%nat ∧
       Forall (λ c, (0 <= c)%Q ∧ (c <= PI_binary64)%Q) cs ∧
       (∀ j a b c, hs !! j = Some a → hs !! S j = Some b → cs !! j = Some c →
                   arc_between a b c))
    1 (length points - 1) []) as (nums & Hrun & cs & -> & Hlen & Hrange & Harc).
  - exists []. split; [done|]. split; [done|]. split; [constructor|].
    intros j a b c _ _ Hc. by rewrite lookup_nil in Hc.
  - intros i nums Hi (cs & -> & Hlen & Hrange & Harc).
    destruct i as [|i]; [lia|].
    destruct (lookup_lt_is_Some_2 points (S i)) as [pi Hpi]; [lia|].
    destruct (lookup_lt_is_Some_2 points i) as [pj Hpj]; [lia|].
    destruct (lookup_headings _ _ _ _ Hmap Hpi) as (b & Hb & Hhb).
    destruct (lookup_headings _ _ _ _ Hmap Hpj) as (a & Ha & Hha).
    destruct (calculateHeadingChanges_body_finite points fuel i pi pj a b (map Fin cs))
      as (c & -> & Hc0 & HcP & Hcarc); try done.
    { pose proof (turnsBound_lookup hs i a b Ha Hb). lia. }
    eexists. split; [done|]. exists (cs ++ [c]).
    split; [by rewrite map_app|]. split; [rewrite length_app; simpl; lia|].
    split; [apply Forall_app; split; [done | by repeat constructor]|].
    intros j a' b' c' Ha' Hb' Hc'.
    destruct (decide (j < length cs)%nat) as [Hlt|Hge].
    + rewrite lookup_app_l in Hc' by done. by eapply Harc.
    + rewrite lookup_app_r in Hc' by lia.
      destruct (j - length cs)%nat as [|n] eqn:Hj; [|by rewrite lookup_cons, lookup_nil in Hc'].
      simpl in Hc'. assert (j = i) as -> by lia. by simplify_eq.
  - exists cs. split; [done|]. split; [lia|]. done.
Qed.



(** ** Heading-change classifier *)

Lemma degrees_Fin (c : Q) : (Fin c * lit 180 / Math_PI)%js = Fin (degrees c).
Proof. reflexivity. Qed.

Lemma map_degrees_Fin (cs : list Q) :
  map (λ c, c * lit 180 / Math_PI)%js (map Fin cs) = map Fin (map degrees cs).
Proof.
  induction cs as [|c cs IH]; [done|].
  cbn [map]. rewrite IH. f_equal.
Qed.

Lemma foldl_js_add_Fin (ds : list Q) (a : Q) :
  ∃ t, foldl js_add (Fin a) (map Fin ds) = Fin t ∧ (t == a + Qsum ds)%Q.
Proof.
  revert a. induction ds as [|d ds IH]; intros a; simpl.
  - exists a. split; [done|]. unfold Qsum. simpl. ring.
  - destruct (IH (a + d)%Q) as (t & -> & Ht). exists t. split; [done|].
    rewrite Ht. unfold Qsum. simpl. ring.
Qed.

Lemma js_div_of_nat (t : Q) (n : nat) :
  n ≠ 0%nat → (Fin t / of_nat n)%js = Fin (t / inject_Z (Z.of_nat n)).
Proof.
  intros Hn. unfold of_nat, of_Z, js_div, Qsign.
  assert (0 < inject_Z (Z.of_nat n))%Q as Hpos by (rewrite <- (Zlt_Qlt 0); lia).
  apply Qgt_alt in Hpos. by rewrite Hpos.
Qed.

Lemma foldl_squares_Fin (ds : list Q) (m m' a : Q) :
  (m == m')%Q →
  ∃ v, foldl (λ sum change, sum + Math_pow (change - Fin m) 2)%js (Fin a) (map Fin ds) = Fin v ∧
       (v == a + Qsum (map (λ x, (x - m') * (x - m')) ds))%Q.
Proof.
  intros Hm. revert a. induction ds as [|d ds IH]; intros a; cbn [foldl map].
  - exists a. split; [done|]. unfold Qsum. simpl. ring.
  - change (Fin a + Math_pow (Fin d - Fin m) 2)%js
      with (Fin (a + (d + - m) * ((d + - m) * inject_Z 1))).
    destruct (IH (a + (d + - m) * ((d + - m) * inject_Z 1))%Q) as (v & -> & Hv).
    exists v. split; [done|]. rewrite Hv. unfold Qsum. simpl. rewrite Hm.
    change (inject_Z 1) with 1%Q. ring.
Qed.

Lemma js_gt_excludes_lt (s : number) (lo hi : Z) :
  (lo ≤ hi)%Z → (s >? lit hi)%js = true → (s <? lit lo)%js = false.
Proof.
  intros Hle. destruct s as [x| | |]; try done.
  unfold js_gt, lit, of_Z. intros Hgt. to_Q.
  assert (inject_Z lo <= inject_Z hi)%Q by (by rewrite <- Zle_Qle). lra.
Qed.

Lemma foldl_js_add_NaN (xs : list number) : foldl js_add NaN xs = NaN.
Proof. induction xs; simpl; auto. Qed.

Lemma foldl_squares_NaN (xs : list number) :
  foldl (λ sum change, sum + Math_pow (change - NaN) 2)%js NaN xs = NaN.
Proof. induction xs; simpl; auto. Qed.

(** Without any heading every change is NaN. *)
Lemma calculateHeadingChanges_undefined (points : list sample) (fuel : nat) :
  Forall (λ p, heading p = undefined) points →
  calculateHeadingChanges (S fuel) points = Ok (replicate (length points - 1) NaN).
Proof.
  intros Hall. unfold calculateHeadingChanges.
  destruct (for_loop_inv (calculateHeadingChanges_body (S fuel) points)
    (λ i nums, nums = replicate (i - 1) NaN) 1 (length points - 1) [] eq_refl)
    as (nums & -> & ->).
  - intros i nums Hi ->. destruct i as [|i]; [lia|].
    destruct (lookup_lt_is_Some_2 points (S i)) as [pi Hpi]; [lia|].
    destruct (lookup_lt_is_Some_2 points i) as [pj Hpj]; [lia|].
    unfold calculateHeadingChanges_body.
    rewrite (point_at_Some _ _ _ Hpi). cbn [obind].
    replace (Z.of_nat (S i) - 1)%Z with (Z.of_nat i) by lia.
    rewrite (point_at_Some _ _ _ Hpj). cbn [obind].
    rewrite Forall_forall in Hall.
    rewrite (Hall pi), (Hall pj) by (by eapply list_elem_of_lookup_2).
    eexists. split; [reflexivity|].
    replace (S (S i) - 1)%nat with (S (S i - 1)) by lia.
    by rewrite replicate_S_end.
  - f_equal. f_equal. lia.
Qed.

Section HeadingClassifier.
Context `{Host}.


(** X25: at least two samples and no heading at all: the statistics are NaN
    and the answer is uncertain. *)
Lemma headingChangeClassify_no_headings (gpsData : list sample) (fuel : nat) :
  (2 ≤ length gpsData)%nat → Forall (λ p, heading p = undefined) gpsData →
  headingChangeClassify (S fuel) gpsData = Ok (Some uncertain).
Proof.
  intros Hlen Hall. unfold headingChangeClassify.
  assert ((length gpsData <? 2)%nat = false) as -> by (apply Nat.ltb_ge; lia).
  rewrite (calculateHeadingChanges_undefined gpsData fuel Hall). cbn [obind].
  destruct (length gpsData - 1)%nat as [|n] eqn:Hn; [lia|].
  cbn [replicate length Nat.eqb map reduce1 obind foldl].
  change (NaN * lit 180 / Math_PI)%js with NaN.
  rewrite foldl_js_add_NaN.
  change (NaN / of_nat (S (length (map (λ c, c * lit 180 / Math_PI)%js (replicate n NaN)))))%js
    with NaN.
  change (lit 0 + Math_pow (NaN - NaN) 2)%js with NaN.
  rewrite foldl_squares_NaN. reflexivity.
Qed.

End HeadingClassifier.



(** ** Confusion matrix *)

Lemma foldl_insert_const {V : Type} (v : V) (keys : list string) (m0 : gmap string V)
    (k : string) :
  foldl (λ m key, <[key := v]> m) m0 keys !! k
  = if bool_decide (k ∈ keys) then Some v else m0 !! k.
Proof.
  revert m0. induction keys as [|key keys IH]; intros m0; cbn [foldl].
  - rewrite bool_decide_eq_false_2; [done | apply not_elem_of_nil].
  - rewrite IH. destruct (decide (k = key)) as [->|Hne].
    + rewrite (bool_decide_eq_true_2 (key ∈ key :: keys)) by (by left).
      case_bool_decide; [done|]. by rewrite lookup_insert_eq.
    + rewrite lookup_insert_ne by done.
      destruct (decide (k ∈ keys)) as [Hin|Hnin].
      * rewrite !bool_decide_eq_true_2; [done | by right | done].
      * rewrite !bool_decide_eq_false_2; [done | by apply not_elem_of_cons | done].
Qed.

Lemma cell_initial (a p : string) :
  cell (foldl (λ matrix actual,
                <[actual := foldl (λ row predicted, <[predicted := lit 0]> row) ∅ modes]> matrix)
              ∅ modes) a p
  = if bool_decide (a ∈ modes ∧ p ∈ modes) then Num (lit 0) else undefined.
Proof.
  unfold cell. rewrite (foldl_insert_const _ modes ∅ a).
  destruct (bool_decide (a ∈ modes)) eqn:Ha.
  - rewrite (foldl_insert_const (lit 0) modes ∅ p).
    apply bool_decide_eq_true in Ha.
    destruct (decide (p ∈ modes)) as [Hp|Hp].
    + by rewrite !bool_decide_eq_true_2.
    + rewrite !bool_decide_eq_false_2; [done | by intros [_ ?] | done].
  - apply bool_decide_eq_false in Ha. rewrite lookup_empty.
    rewrite bool_decide_eq_false_2; [done | by intros [? _]].
Qed.

Lemma of_nat_succ (n : nat) : (of_nat n + lit 1)%js = of_nat (S n).
Proof.
  unfold of_nat, lit, of_Z, js_add, Qplus, inject_Z. simpl.
  f_equal. f_equal. lia.
Qed.

Lemma modes_not_proto (p : string) : p ∈ modes → String.eqb p "__proto__" = false.
Proof.
  intros Hp. apply String.eqb_neq. intros ->. unfold modes in Hp.
  repeat (apply elem_of_cons in Hp as [Hp|Hp]; [discriminate|]).
  by apply elem_of_nil in Hp.
Qed.

Lemma modes_truthy (a : string) : a ∈ modes → truthy (Some a) = true.
Proof.
  intros Ha. unfold truthy. apply negb_true_iff, String.eqb_neq. intros ->.
  unfold modes in Ha.
  repeat (apply elem_of_cons in Ha as [Ha|Ha]; [discriminate|]).
  by apply elem_of_nil in Ha.
Qed.

(** The increment of a cell that holds a count. *)
Lemma increment_cell (matrix : gmap string (gmap string number)) (a0 p0 : string) (n : nat) :
  p0 ∈ modes → cell matrix a0 p0 = Num (of_nat n) →
  ∃ matrix', increment matrix a0 p0 = Ok matrix' ∧
    ∀ a p, cell matrix' a p =
           if bool_decide (a = a0 ∧ p = p0) then Num (of_nat (S n)) else cell matrix a p.
Proof.
  intros Hp0 Hcell. unfold increment, cell in *.
  destruct (matrix !! a0) as [row|] eqn:Hrow; [|done].
  rewrite (modes_not_proto p0 Hp0).
  destruct (row !! p0) as [old|] eqn:Hold; [|done].
  injection Hcell as ->.
  exists (<[a0 := <[p0 := of_nat (S n)]> row]> matrix). split.
  { cbv zeta. change (ToNumber (Num (of_nat n))) with (of_nat n). by rewrite of_nat_succ. }
  intros a p.
  destruct (decide (a = a0)) as [->|Hne].
  - rewrite lookup_insert_eq, Hrow.
    destruct (decide (p = p0)) as [->|Hnep].
    + rewrite lookup_insert_eq. by rewrite bool_decide_eq_true_2.
    + rewrite lookup_insert_ne by done.
      rewrite bool_decide_eq_false_2; [done | by intros [_ ?]].
  - rewrite lookup_insert_ne by done.
    rewrite bool_decide_eq_false_2; [done | by intros [? _]].
Qed.

Lemma count_pairs_cons (a p : string) (pr : prediction) (predictions : list prediction) :
  count_pairs a p (pr :: predictions)
  = ((if is_pair a p pr then 1 else 0) + count_pairs a p predictions)%nat.
Proof. unfold count_pairs. simpl. by destruct (is_pair a p pr). Qed.

Lemma is_pair_labelled (a p : string) (pr : prediction) :
  a ∈ modes → p ∈ modes → is_pair a p pr = true → labelled pr = true.
Proof.
  intros Ha Hp [Hact Hpred]%andb_true_iff.
  apply bool_decide_eq_true in Hact, Hpred.
  unfold labelled. by rewrite Hact, Hpred, !modes_truthy.
Qed.

Lemma for_of_counts (predictions : list prediction)
    (matrix : gmap string (gmap string number)) (c : string → string → nat) :
  Forall (λ pr, labelled pr = true → in_vocabulary pr) predictions →
  (∀ a p, cell matrix a p =
          if bool_decide (a ∈ modes ∧ p ∈ modes) then Num (of_nat (c a p)) else undefined) →
  ∃ matrix',
    for_of (λ pred matrix,
        if truthy (actual pred) && truthy (predicted pred)
        then increment matrix (default "" (actual pred)) (default "" (predicted pred))
        else Ok matrix)
      predictions matrix = Ok matrix' ∧
    ∀ a p, cell matrix' a p =
           if bool_decide (a ∈ modes ∧ p ∈ modes)
           then Num (of_nat (c a p + count_pairs a p predictions))
           else undefined.
Proof.
  intros Hall. revert matrix c.
  induction Hall as [|pr predictions Hpr Hall IH]; intros matrix c Hcells.
  - exists matrix. split; [done|]. intros a p. rewrite Hcells.
    unfold count_pairs. simpl. by rewrite Nat.add_0_r.
  - cbn [for_of]. fold (labelled pr). destruct (labelled pr) eqn:Hlab.
    + destruct (Hpr eq_refl) as (a0 & p0 & Ha0 & Hp0 & Hina & Hinp).
      rewrite Ha0, Hp0. simpl default.
      destruct (increment_cell matrix a0 p0 (c a0 p0) Hinp) as (matrix1 & -> & Hcells1).
      { rewrite Hcells. by rewrite bool_decide_eq_true_2. }
      cbn [obind].
      destruct (IH matrix1
                  (λ a p, if bool_decide (a = a0 ∧ p = p0) then S (c a p) else c a p))
        as (matrix' & -> & Hcells').
      { intros a p. rewrite Hcells1, Hcells.
        case_bool_decide as Heq; [|done].
        destruct Heq as [-> ->]. by rewrite bool_decide_eq_true_2. }
      exists matrix'. split; [done|]. intros a p. rewrite Hcells'.
      case_bool_decide as Hin; [|done]. do 2 f_equal.
      rewrite count_pairs_cons. unfold is_pair. rewrite Ha0, Hp0.
      destruct (decide (a = a0 ∧ p = p0)) as [[-> ->]|Hne].
      * rewrite !bool_decide_eq_true_2 by done. simpl. lia.
      * rewrite (bool_decide_eq_false_2 (a = a0 ∧ p = p0)) by done.
        destruct (decide (a = a0)) as [->|Hnea].
        -- rewrite (bool_decide_eq_false_2 (Some p0 = Some p)); [by rewrite andb_false_r|].
           intros [= <-]. by apply Hne.
        -- rewrite (bool_decide_eq_false_2 (Some a0 = Some a)); [done|].
           intros [= <-]. by apply Hnea.
    + cbn [obind].
      destruct (IH matrix c Hcells) as (matrix' & -> & Hcells').
      exists matrix'. split; [done|]. intros a p. rewrite Hcells'.
      case_bool_decide as Hin; [|done]. do 2 f_equal.
      rewrite count_pairs_cons.
      destruct (is_pair a p pr) eqn:Hpair; [|done].
      destruct Hin as [Hina Hinp].
      rewrite (is_pair_labelled a p pr Hina Hinp Hpair) in Hlab. done.
Qed.

Lemma sum_list_map_add {A : Type} (f g : A → nat) (l : list A) :
  sum_list (map (λ x, f x + g x)%nat l) = (sum_list (map f l) + sum_list (map g l))%nat.
Proof. induction l as [|x l IH]; simpl; lia. Qed.

(** A pair that passes the guard falls into exactly one cell, a pair that
    does not into none. *)
Lemma cells_of_pair (pr : prediction) :
  (labelled pr = true → in_vocabulary pr) →
  sum_list (map (λ c, if is_pair c.1 c.2 pr then 1 else 0)%nat cells)
  = if labelled pr then 1%nat else 0%nat.
Proof.
  intros Hpr. destruct (labelled pr) eqn:Hlab.
  - destruct (Hpr eq_refl) as (a0 & p0 & Ha0 & Hp0 & Hina & Hinp).
    unfold is_pair. rewrite Ha0, Hp0. unfold modes in Hina, Hinp.
    repeat (apply elem_of_cons in Hina as [->|Hina]);
      try (by apply elem_of_nil in Hina);
      repeat (apply elem_of_cons in Hinp as [->|Hinp]);
      try (by apply elem_of_nil in Hinp); reflexivity.
  - assert (∀ c, c ∈ cells → is_pair c.1 c.2 pr = false) as Hnone.
    { intros [a p] Hc. apply not_true_iff_false. intros Hpair.
      assert (a ∈ modes ∧ p ∈ modes) as [Ha Hp].
      { unfold cells in Hc. apply list_elem_of_bind in Hc as (a' & Hc & Ha').
        apply list_elem_of_bind in Hc as (p' & Hc & Hp').
        apply list_elem_of_singleton in Hc. by simplify_eq. }
      rewrite (is_pair_labelled a p pr Ha Hp Hpair) in Hlab. done. }
    induction cells as [|c cs IH]; [done|]. simpl.
    rewrite Hnone by (by left). rewrite IH; [done|].
    intros c' Hc'. apply Hnone. by right.
Qed.

Lemma cells_total (predictions : list prediction) :
  Forall (λ pr, labelled pr = true → in_vocabulary pr) predictions →
  sum_list (map (λ c, count_pairs c.1 c.2 predictions) cells)
  = length (List.filter labelled predictions).
Proof.
  induction 1 as [|pr predictions Hpr Hall IH].
  - unfold count_pairs. simpl. by induction cells.
  - rewrite (map_ext _ (λ c, (if is_pair c.1 c.2 pr then 1 else 0)
                               + count_pairs c.1 c.2 predictions)%nat)
      by (intros; apply count_pairs_cons).
    rewrite sum_list_map_add, IH, (cells_of_pair pr Hpr). simpl.
    by destruct (labelled pr).
Qed.

(** X26: a pair that passes the guard with an actual label that is neither
    a mode nor an inherited member makes the call throw. *)
Lemma buildConfusionMatrix_unknown_actual (a p : string) (rest : list prediction) :
  truthy (Some a) = true → truthy (Some p) = true →
  a ∉ modes → a ∉ Object_prototype_members →
  buildConfusionMatrix (mkPrediction (Some a) (Some p) :: rest) = TypeError.
Proof.
  intros Ha Hp Hmodes Hmembers. unfold buildConfusionMatrix. cbn [for_of].
  cbn [actual predicted]. rewrite Ha, Hp. cbn [andb default from_option id].
  unfold increment. rewrite (foldl_insert_const _ modes ∅ a).
  rewrite bool_decide_eq_false_2 by done. rewrite lookup_empty.
  by rewrite bool_decide_eq_false_2.
Qed.

(** C1 (amended): when every pair either fails the guard (a label is
    missing or empty) or has both labels among the five modes,
    [buildConfusionMatrix] returns a matrix whose cell [(a, p)] counts the
    pairs [{actual: a, predicted: p}] and which has no other cell; the cells
    add up to the number of pairs that pass the guard. *)
Theorem buildConfusionMatrix_counts (predictions : list prediction) :
  Forall (λ pr, labelled pr = true → in_vocabulary pr) predictions →
  ∃ matrix, buildConfusionMatrix predictions = Ok matrix ∧
    (∀ a p, cell matrix a p =
            if bool_decide (a ∈ modes ∧ p ∈ modes)
            then Num (of_nat (count_pairs a p predictions))
            else undefined) ∧
    sum_list (map (λ c, count_pairs c.1 c.2 predictions) cells)
    = length (List.filter labelled predictions).
Proof.
  intros Hall. unfold buildConfusionMatrix.
  destruct (for_of_counts predictions _ (λ _ _, 0%nat) Hall cell_initial)
    as (matrix & Hrun & Hcells).
  exists matrix. split; [exact Hrun|]. split; [exact Hcells|].
  by apply cells_total.
Qed.

Lemma buildConfusionMatrix_counts_witness :
  ∃ matrix,
    buildConfusionMatrix [mkPrediction (Some "walking") (Some "walking");
                          mkPrediction (Some "bus") (Some "car");
                          mkPrediction None (Some "plane")] = Ok matrix ∧
    cell matrix "bus" "car" = Num (lit 1).
Proof.
  destruct (buildConfusionMatrix_counts
              [mkPrediction (Some "walking") (Some "walking");
               mkPrediction (Some "bus") (Some "car");
               mkPrediction None (Some "plane")]) as (matrix & Hrun & Hcells & _).
  - repeat constructor.
    + intros _. exists "walking", "walking". repeat split; repeat constructor.
    + intros _. exists "bus", "car". repeat split; repeat constructor.
    + discriminate.
  - exists matrix. split; [exact Hrun|]. rewrite Hcells. reflexivity.
Defined.

(** C1, as stated, on pairs outside the vocabulary: an unknown actual label
    raises a [TypeError], an unknown predicted label adds a NaN cell. *)
Lemma buildConfusionMatrix_out_of_vocabulary :
  buildConfusionMatrix [mkPrediction (Some "plane") (Some "walking")] = TypeError ∧
  ∃ matrix,
    buildConfusionMatrix [mkPrediction (Some "walking") (Some "bus-or-car")] = Ok matrix ∧
    cell matrix "walking" "bus-or-car" = Num NaN.
Proof.
  split; [reflexivity|].
  eexists. split; [reflexivity|]. reflexivity.
Qed.

(** ** Cases of the test suite *)

Example baseline_walking : baselineClassify (map kmhSample [2; 3; 4; 5; 6]%Q) = walking.
Proof. reflexivity. Qed.

Example baseline_cycling : baselineClassify (map kmhSample [10; 15; 20]%Q) = cycling.
Proof. reflexivity. Qed.

Example baseline_bus_or_car : baselineClassify (map kmhSample [30; 40; 50]%Q) = bus_or_car.
Proof. reflexivity. Qed.

Example baseline_train : baselineClassify (map kmhSample [100; 120]%Q) = train.
Proof. reflexivity. Qed.

Example baseline_too_fast : baselineClassify (map kmhSample [250; 260]%Q) = unknown.
Proof. reflexivity. Qed.

Example baseline_boundary : baselineClassify [kmhSample 7; kmhSample (71 # 10)] = cycling.
Proof. reflexivity. Qed.

Example percentile_of_hundred :
  ((let* speeds := array_new (map (λ i, finite (inject_Z (Z.of_nat i))) (seq 0 100)) in
    percentile speeds (lit 95)) ∅).1 = finite 94.
Proof. vm_compute. reflexivity. Qed.

Example stops_all_zero :
  ∃ d, @findStops plainHost (replicate 10 (kmhSample 0)) defaultSpeedThreshold
       = Ok [mkStop 0 9 d (lit 0)].
Proof. eexists. reflexivity. Qed.

Example stops_all_same :
  @findStops plainHost (replicate 10 (kmhSample 20)) defaultSpeedThreshold = Ok [].
Proof. reflexivity. Qed.

Example heading_changes_single_point :
  calculateHeadingChanges 1 [headingSample 0] = Ok [].
Proof. reflexivity. Qed.

Example confusion_matrix_cells :
  ∃ matrix,
    buildConfusionMatrix [mkPrediction (Some "walking") (Some "walking");
                          mkPrediction (Some "walking") (Some "walking");
                          mkPrediction (Some "cycling") (Some "cycling");
                          mkPrediction (Some "bus") (Some "car");
                          mkPrediction (Some "car") (Some "car")] = Ok matrix ∧
    cell matrix "walking" "walking" = Num (lit 2) ∧
    cell matrix "cycling" "cycling" = Num (lit 1) ∧
    cell matrix "bus" "car" = Num (lit 1) ∧
    cell matrix "car" "car" = Num (lit 1).
Proof. eexists. split; [reflexivity|]. repeat split. Qed.

(** * Further properties of the module *)

(** ** Percentile outside its usual arguments *)

(** The element [percentile] reads, for any finite [p]: there is no upper
    clamp. *)
Lemma percentile_read_unclamped (p : Q) (l : list value) :
  index_list l
    (Math_max [lit 0; (Math_ceil ((Fin p / lit 100) * of_nat (length l)) - lit 1)%js])
  = default undefined
      (l !! Z.to_nat (Z.max 0 (Qceiling (p / 100 * inject_Z (Z.of_nat (length l))) - 1))).
Proof.
  change (Fin p / lit 100)%js with (Fin (p / 100)).
  unfold of_nat, of_Z, lit. simpl js_mul. simpl Math_ceil. unfold of_Z.
  set (c := Qceiling (p / 100 * inject_Z (Z.of_nat (length l)))).
  change (Fin (inject_Z c) - of_Z 1)%js with (Fin (inject_Z c + - inject_Z 1)).
  unfold Math_max. simpl foldl.
  change (max2 NegInf (of_Z 0)) with (Fin (inject_Z 0)).
  unfold max2, js_lt.
  assert (inject_Z c + - inject_Z 1 == inject_Z (c - 1))%Q as Hpred.
  { unfold Z.sub. rewrite inject_Z_plus, inject_Z_opp. reflexivity. }
  destruct (Qlt_bool _ _) eqn:E; unfold index_list.
  - apply Qlt_bool_true in E. rewrite Hpred, <- Zlt_Qlt in E.
    rewrite Qfloor_pred.
    assert (Qeq_bool (inject_Z c + - inject_Z 1) (inject_Z (c - 1)) = true) as ->
      by (by apply Qeq_bool_iff).
    assert ((0 <=? c - 1)%Z = true) as -> by (apply Z.leb_le; lia).
    simpl. do 2 f_equal. lia.
  - apply Qlt_bool_false in E. rewrite Hpred, <- Zle_Qle in E.
    change (Qfloor (inject_Z 0)) with 0%Z. simpl. do 2 f_equal. lia.
Qed.

Lemma percentile_finite_run (h : heap) (arr : nat) (qs : list Q) (p : Q) :
  h !! arr = Some (map finite qs) →
  (percentile arr (Fin p) h).1
  = default undefined
      (finite <$> Qsort qs !!
         Z.to_nat (Z.max 0 (Qceiling (p / 100 * inject_Z (Z.of_nat (length qs))) - 1))).
Proof.
  intros Harr. rewrite percentile_run. unfold contents. rewrite Harr.
  change (default [] (Some (map finite qs))) with (map finite qs). cbv zeta.
  rewrite sort_list_finite. cbn [fst].
  rewrite percentile_read_unclamped.
  by rewrite length_map, Qsort_length, list_lookup_fmap.
Qed.

Lemma percentile_finite_value (h : heap) (arr : nat) (qs : list Q) (p : Q) :
  h !! arr = Some (map finite qs) → qs ≠ [] → (0 <= p)%Q → (p <= 100)%Q →
  ∃ v, Qsort qs !! percentile_index p (length qs) = Some v ∧
       (percentile arr (Fin p) h).1 = finite v.
Proof.
  intros Harr Hne H0 H100.
  assert (0 < length qs)%nat as Hlen by (destruct qs; [done | simpl; lia]).
  destruct (lookup_lt_is_Some_2 (Qsort qs) (percentile_index p (length qs))) as [v Hv].
  { rewrite Qsort_length. by apply percentile_index_lt. }
  exists v. split; [done|]. rewrite (percentile_finite_run h arr qs p Harr).
  pose proof (Qceiling_percent_le p (length qs) H0 H100) as Hc.
  unfold percentile_index in Hv.
  rewrite Z.min_l in Hv by lia. by rewrite Hv.
Qed.

Lemma percentile_index_mono (p p' : Q) (n : nat) :
  (p <= p')%Q → (percentile_index p n ≤ percentile_index p' n)%nat.
Proof.
  intros Hp. unfold percentile_index.
  assert (Qceiling (p / 100 * inject_Z (Z.of_nat n))
          ≤ Qceiling (p' / 100 * inject_Z (Z.of_nat n)))%Z.
  { apply Qceiling_resp_le. apply Qmult_le_compat_r.
    - apply Qmult_le_compat_r; [done | discriminate].
    - rewrite <- (Zle_Qle 0). lia. }
  lia.
Qed.

(** X1: on a non-empty array of numbers, [percentile] grows with [p] over
    [[0, 100]]. *)
Theorem percentile_monotone (h : heap) (arr : nat) (qs : list Q) (p p' : Q) :
  h !! arr = Some (map finite qs) → qs ≠ [] →
  (0 <= p)%Q → (p <= p')%Q → (p' <= 100)%Q →
  ∃ v v', (percentile arr (Fin p) h).1 = finite v ∧
          (percentile arr (Fin p') h).1 = finite v' ∧ (v <= v')%Q.
Proof.
  intros Harr Hne H0 Hpp H100.
  destruct (percentile_finite_value h arr qs p Harr Hne) as (v & Hv & Hrun); [lra | lra |].
  destruct (percentile_finite_value h arr qs p' Harr Hne) as (v' & Hv' & Hrun'); [lra | lra |].
  exists v, v'. split; [done|]. split; [done|].
  eapply StronglySorted_lookup_le; eauto using Qsort_sorted, percentile_index_mono.
Qed.

Lemma percentile_monotone_witness :
  ∃ v v', (percentile 0 (Fin 25) {[0%nat := map finite [5; 3; 9; 1]%Q]}).1 = finite v ∧
          (percentile 0 (Fin 75) {[0%nat := map finite [5; 3; 9; 1]%Q]}).1 = finite v' ∧
          (v <= v')%Q.
Proof.
  apply (percentile_monotone _ 0 [5; 3; 9; 1]%Q 25 75).
  - apply lookup_singleton_eq.
  - discriminate.
  - discriminate.
  - discriminate.
  - discriminate.
Defined.

(** X2: on a non-empty array of numbers, a [p] above 100 reads past the end
    of the sorted copy and gives [undefined], while a negative [p] is
    clamped to the first element, the minimum. *)
Theorem percentile_outside_range (h : heap) (arr : nat) (qs : list Q) (p : Q) :
  h !! arr = Some (map finite qs) → qs ≠ [] →
  ((100 < p)%Q → (percentile arr (Fin p) h).1 = undefined) ∧
  ((p < 0)%Q → ∃ v, (percentile arr (Fin p) h).1 = finite v ∧ is_min v qs).
Proof.
  intros Harr Hne.
  assert (0 < length qs)%nat as Hlen by (destruct qs; [done | simpl; lia]).
  assert (0 < inject_Z (Z.of_nat (length qs)))%Q as Hn by (rewrite <- (Zlt_Qlt 0); lia).
  rewrite (percentile_finite_run h arr qs p Harr).
  set (c := Qceiling (p / 100 * inject_Z (Z.of_nat (length qs)))).
  split.
  - intros Hp.
    assert (Z.of_nat (length qs) < c)%Z as Hc.
    { rewrite Zlt_Qlt. eapply Qlt_le_trans; [|apply Qle_ceiling].
      rewrite <- (Qmult_1_l (inject_Z (Z.of_nat (length qs)))) at 1.
      apply Qmult_lt_compat_r; [done|]. apply Qlt_shift_div_l; [reflexivity | lra]. }
    rewrite lookup_ge_None_2; [done|]. rewrite Qsort_length. lia.
  - intros Hp.
    assert (c ≤ 0)%Z as Hc.
    { unfold c. rewrite <- (Qceiling_Z 0). apply Qceiling_resp_le.
      assert (p / 100 * inject_Z (Z.of_nat (length qs))
              <= 0 * inject_Z (Z.of_nat (length qs)))%Q as Hle.
      { apply Qmult_le_compat_r; [|lra]. apply Qle_shift_div_r; [reflexivity | lra]. }
      by rewrite Qmult_0_l in Hle. }
    replace (Z.to_nat (Z.max 0 (c - 1))) with 0%nat by lia.
    destruct (lookup_lt_is_Some_2 (Qsort qs) 0) as [v Hv]; [by rewrite Qsort_length|].
    exists v. rewrite Hv. split; [done|].
    destruct (Qsort_bounds _ _ _ Hv) as (Hin & Hmin & _). split; auto.
Qed.

Lemma percentile_outside_range_witness :
  (percentile 0 (Fin 101) {[0%nat := map finite [5; 3; 9; 1]%Q]}).1 = undefined.
Proof.
  refine (proj1 (percentile_outside_range _ 0 [5; 3; 9; 1]%Q 101 _ _) _).
  - apply lookup_singleton_eq.
  - discriminate.
  - reflexivity.
Defined.

(** X3: on the empty array [percentile] returns [undefined] for every [p]
    and throws nothing. *)
Theorem percentile_empty (h : heap) (arr : nat) (p : number) :
  h !! arr = Some [] → (percentile arr p h).1 = undefined.
Proof.
  intros Harr. rewrite percentile_run. unfold contents. rewrite Harr.
  cbv zeta. cbn [fst]. unfold sort_list. simpl.
  unfold index_list. destruct (Math_max _) as [q| | |]; try done.
  by destruct (_ && _).
Qed.

Lemma percentile_empty_witness : (percentile 0 (lit 95) {[0%nat := []]}).1 = undefined.
Proof. apply percentile_empty. apply lookup_singleton_eq. Defined.

(** ** Baseline against Percentile95 *)

Lemma percentile95Classify_finite (speedData : list sample) (qs : list Q) (h : heap) :
  map speedKmh speedData = map finite qs → qs ≠ [] →
  ∃ v, Qsort qs !! percentile_index 95 (length qs) = Some v ∧
       (percentile95Classify speedData h).1 = label_of_speed v.
Proof.
  intros Hspeeds Hne.
  assert (0 < length qs)%nat as Hlen by (destruct qs; [done | simpl; lia]).
  destruct (lookup_lt_is_Some_2 (Qsort qs) (percentile_index 95 (length qs))) as [v Hv].
  { rewrite Qsort_length. by apply percentile_index_lt. }
  exists v. split; [done|].
  rewrite percentile95Classify_run.
  2:{ intros ->. by destruct qs. }
  cbv zeta. rewrite Hspeeds, sort_list_finite.
  change (lit 95) with (Fin 95).
  rewrite percentile_read; [|discriminate|discriminate|].
  - by rewrite length_map, Qsort_length, list_lookup_fmap, Hv.
  - intros Hnil. apply (f_equal length) in Hnil.
    rewrite length_map, Qsort_length in Hnil. simpl in Hnil. lia.
Qed.

Lemma Qlt_bool_Qeq (a b c : Q) : (a == b)%Q → Qlt_bool a c = Qlt_bool b c.
Proof.
  intros Hab. destruct (Qlt_bool b c) eqn:E.
  - apply Qlt_bool_true. apply Qlt_bool_true in E. by rewrite Hab.
  - apply Qlt_bool_false. apply Qlt_bool_false in E. by rewrite Hab.
Qed.

Lemma label_of_speed_Qeq (a b : Q) : (a == b)%Q → label_of_speed a = label_of_speed b.
Proof.
  intros Hab. unfold label_of_speed.
  by rewrite !(Qlt_bool_Qeq a b _ Hab).
Qed.

Lemma label_of_speed_mono (a b : Q) :
  (a <= b)%Q → (speed_rank (label_of_speed a) ≤ speed_rank (label_of_speed b))%nat.
Proof.
  intros Hab. unfold label_of_speed.
  destruct (Qlt_bool a 7) eqn:A7; destruct (Qlt_bool a 25) eqn:A25;
    destruct (Qlt_bool a 80) eqn:A80; destruct (Qlt_bool a 200) eqn:A200;
    destruct (Qlt_bool b 7) eqn:B7; destruct (Qlt_bool b 25) eqn:B25;
    destruct (Qlt_bool b 80) eqn:B80; destruct (Qlt_bool b 200) eqn:B200;
    simpl; try lia;
    rewrite ?Qlt_bool_true, ?Qlt_bool_false in *; lra.
Qed.

Lemma percentile_index_95_small (n : nat) :
  (n < 20)%nat → percentile_index 95 n = (n - 1)%nat.
Proof.
  intros Hn. do 20 (destruct n as [|n]; [reflexivity|]). lia.
Qed.

(** X4: on fewer than 20 samples the 95th percentile is the greatest speed,
    so Percentile95 and Baseline give the same label: a single outlier flips
    both. *)
Theorem percentile95_is_baseline_below_20 (speedData : list sample) (qs : list Q)
    (h : heap) :
  map speedKmh speedData = map finite qs →
  (length speedData < 20)%nat →
  (percentile95Classify speedData h).1 = baselineClassify speedData.
Proof.
  intros Hspeeds Hlen.
  assert (length speedData = length qs) as Hlen'.
  { rewrite <- (length_map speedKmh speedData), Hspeeds. apply length_map. }
  destruct qs as [|q qs']; [by destruct speedData|].
  set (qs := q :: qs') in *.
  destruct (percentile95Classify_finite speedData qs h Hspeeds) as (v & Hv & ->); [done|].
  destruct (baselineClassify_max speedData qs Hspeeds) as (m & Hmax & ->); [done|].
  fold (label_of_speed m). apply label_of_speed_Qeq.
  rewrite percentile_index_95_small in Hv by lia.
  destruct (Qsort_bounds _ _ _ Hv) as (Hin & _ & Hall).
  apply (is_max_Qeq v m qs); [split; auto | done].
Qed.

Lemma percentile95_is_baseline_below_20_witness :
  (percentile95Classify (map kmhSample [5; 4; 50; 3]%Q) ∅).1
  = baselineClassify (map kmhSample [5; 4; 50; 3]%Q).
Proof.
  apply (percentile95_is_baseline_below_20 _ [5; 4; 50; 3]%Q ∅).
  - reflexivity.
  - simpl. lia.
Defined.

(** X5: on finite speeds Percentile95 never reports a faster mode than
    Baseline (walking < cycling < bus-or-car < train < unknown). *)
Theorem percentile95_at_most_baseline (speedData : list sample) (qs : list Q) (h : heap) :
  map speedKmh speedData = map finite qs →
  (speed_rank (percentile95Classify speedData h).1
   ≤ speed_rank (baselineClassify speedData))%nat.
Proof.
  intros Hspeeds.
  destruct qs as [|q qs'].
  { destruct speedData; [|discriminate]. reflexivity. }
  set (qs := q :: qs') in *.
  destruct (percentile95Classify_finite speedData qs h Hspeeds) as (v & Hv & ->); [done|].
  destruct (baselineClassify_max speedData qs Hspeeds) as (m & [Hin Hall] & ->); [done|].
  fold (label_of_speed m). apply label_of_speed_mono.
  rewrite Forall_forall in Hall. apply Hall.
  destruct (Qsort_bounds _ _ _ Hv) as (Hinv & _). by apply list_elem_of_In.
Qed.

Lemma percentile95_at_most_baseline_witness :
  (speed_rank (percentile95Classify (map kmhSample [5; 4; 50; 3]%Q) ∅).1
   ≤ speed_rank (baselineClassify (map kmhSample [5; 4; 50; 3]%Q)))%nat.
Proof. apply (percentile95_at_most_baseline _ [5; 4; 50; 3]%Q ∅). reflexivity. Defined.

(** ** What the stops hold *)

Section StopRecords.
Context `{Host}.
Context (points : list sample) (threshold : number).

Lemma findStops_body_records (i : nat) (st : list stop * option Z) :
  (i < length points)%nat →
  findStops_records_inv points threshold i st →
  ∃ st', findStops_body points threshold i st = Ok st' ∧
         findStops_records_inv points threshold (S i) st'.
Proof.
  intros Hi [Hstops Hopen]. destruct st as [stops stopStart]. simpl in Hstops, Hopen.
  destruct (lookup_lt_is_Some_2 points i Hi) as [pi Hpi].
  unfold findStops_body. rewrite (point_at_Some _ _ _ Hpi). cbn [obind].
  destruct (stopSpeed pi <? threshold)%js eqn:Hspeed.
  - destruct stopStart as [start|]; eexists; (split; [reflexivity|]); split; try done.
    + simpl. destruct Hopen as (a & -> & Ha & Hleft). exists a.
      split; [done|]. split; [lia | done].
    + simpl. exists i. split; [done|]. split; [lia | done].
  - assert (¬ below threshold pi) as Hmoving by (unfold below; congruence).
    assert (left_maximal points threshold (S i)) as Hnext.
    { right. exists pi. by rewrite Nat.sub_1_r. }
    destruct stopStart as [start|]; [|eexists; split; [reflexivity|]; by split].
    destruct Hopen as (a & -> & Ha & Hleft).
    destruct (lookup_lt_is_Some_2 points (i - 1)) as [pprev Hpprev]; [lia|].
    destruct (lookup_lt_is_Some_2 points a) as [pa Hpa]; [lia|].
    replace (Z.of_nat i - 1)%Z with (Z.of_nat (i - 1)) by lia.
    rewrite (point_at_Some _ _ _ Hpprev), (point_at_Some _ _ _ Hpa). cbn [obind].
    assert (Nat.min (S (i - 1)) (length points - 1) = i) as Hmin by lia.
    assert (right_maximal points threshold (i - 1)) as Hright.
    { right. exists pi. by replace (S (i - 1)) with i by lia. }
    destruct a as [|a'].
    + change (Z.of_nat 0 >? 0)%Z with false. cbn [obind].
      eexists. split; [reflexivity|]. split; [|done]. simpl.
      apply Forall_app. split; [done|]. constructor; [|constructor].
      exists 0%nat, (i - 1)%nat, pa, pprev, pi.
      rewrite Hmin. repeat split; try done; try lia. by left.
    + assert ((Z.of_nat (S a') >? 0)%Z = true) as -> by (apply Z.gtb_lt; lia).
      destruct (lookup_lt_is_Some_2 points a') as [pbefore Hpbefore]; [lia|].
      replace (Z.of_nat (S a') - 1)%Z with (Z.of_nat a') by lia.
      rewrite (point_at_Some _ _ _ Hpbefore). cbn [obind].
      eexists. split; [reflexivity|]. split; [|done]. simpl.
      apply Forall_app. split; [done|]. constructor; [|constructor].
      exists (S a'), (i - 1)%nat, pa, pprev, pi.
      rewrite Hmin. repeat split; try done; try lia.
      right. exists pbefore. split; [lia|]. split; [|done].
      by replace (S a' - 1)%nat with a' by lia.
Qed.

(** Every stop [findStops] returns is the record of a maximal run. *)
Lemma findStops_records :
  ∃ stops, findStops points threshold = Ok stops ∧
           Forall (stop_record points threshold) stops.
Proof.
  destruct (for_loop_inv (findStops_body points threshold)
              (findStops_records_inv points threshold) 0 (length points) ([], None))
    as ([stops stopStart] & Hloop & Hstops & Hopen).
  { split; [constructor | by left]. }
  { intros i s Hi. apply findStops_body_records. lia. }
  simpl in Hstops, Hopen. unfold findStops. rewrite Hloop. cbn [obind].
  destruct stopStart as [start|]; [|by exists stops].
  destruct Hopen as (a & -> & Ha & Hleft).
  destruct (lookup_lt_is_Some_2 points (length points - 1)) as [plast Hplast]; [lia|].
  destruct (lookup_lt_is_Some_2 points a) as [pa Hpa]; [lia|].
  replace (Z.of_nat (length points) - 1)%Z with (Z.of_nat (length points - 1)) by lia.
  rewrite (point_at_Some _ _ _ Hplast), (point_at_Some _ _ _ Hpa). cbn [obind].
  assert (Nat.min (S (length points - 1)) (length points - 1) = (length points - 1)%nat)
    as Hmin by lia.
  assert (right_maximal points threshold (length points - 1)) as Hright by (left; lia).
  destruct a as [|a'].
  - change (Z.of_nat 0 >? 0)%Z with false. cbn [obind].
    eexists. split; [reflexivity|].
    apply Forall_app. split; [done|]. constructor; [|constructor].
    exists 0%nat, (length points - 1)%nat, pa, plast, plast.
    rewrite Hmin. repeat split; try done; try lia. by left.
  - assert ((Z.of_nat (S a') >? 0)%Z = true) as -> by (apply Z.gtb_lt; lia).
    destruct (lookup_lt_is_Some_2 points a') as [pbefore Hpbefore]; [lia|].
    replace (Z.of_nat (S a') - 1)%Z with (Z.of_nat a') by lia.
    rewrite (point_at_Some _ _ _ Hpbefore). cbn [obind].
    eexists. split; [reflexivity|].
    apply Forall_app. split; [done|]. constructor; [|constructor].
    exists (S a'), (length points - 1)%nat, pa, plast, plast.
    rewrite Hmin. repeat split; try done; try lia.
    right. exists pbefore. split; [lia|]. split; [|done].
    by replace (S a' - 1)%nat with a' by lia.
Qed.

End StopRecords.

Lemma StronglySorted_strengthen {A : Type} (R R' : A → A → Prop) (l : list A) :
  (∀ x y, x ∈ l → y ∈ l → R x y → R' x y) →
  StronglySorted R l → StronglySorted R' l.
Proof.
  intros Himpl Hsorted. induction Hsorted as [|x l Hsorted IH Hall]; [constructor|].
  constructor.
  - apply IH. intros y z Hy Hz. apply Himpl; by right.
  - rewrite Forall_forall in *. intros y Hy. apply Himpl; [by left | by right | auto].
Qed.


(** X7: what a stop records.  Its duration is the difference of the
    timestamps of its last and first sample divided by 1000; its distance is
    0 when the run starts the trajectory, and otherwise the distance from
    the sample before the run to the sample after it, or to the last sample
    of the run when the trajectory ends with it. *)
Theorem findStops_stop_fields `{Host} (points : list sample) (threshold : number) :
  ∃ stops, findStops points threshold = Ok stops ∧
    Forall (λ s, ∃ (a b : nat) (pa pb pnext : sample),
              startIndex s = Z.of_nat a ∧ endIndex s = Z.of_nat b ∧
              points !! a = Some pa ∧ points !! b = Some pb ∧
              points !! Nat.min (S b) (length points - 1) = Some pnext ∧
              duration s
              = ((ToNumber (timestamp pb) - ToNumber (timestamp pa)) / lit 1000)%js ∧
              ((a = 0%nat ∧ distance s = lit 0) ∨
               (∃ pbefore, (0 < a)%nat ∧ points !! (a - 1)%nat = Some pbefore ∧
                           distance s = getDistanceBetweenPoints pbefore pnext))) stops.
Proof.
  destruct (findStops_records points threshold) as (stops & Hrun & Hrecords).
  exists stops. split; [done|].
  eapply Forall_impl; [exact Hrecords|]. simpl.
  intros s (a & b & pa & pb & pnext & Ha & Hb & _ & Hpa & Hpb & Hpnext & _ & _ & Hdur & Hdist).
  by exists a, b, pa, pb, pnext.
Qed.

(** X8: the stops of [findStops] hold exactly the stopped samples: a sample
    lies within a returned stop if and only if the speed read for it is
    below the threshold. *)
Theorem findStops_holds_stopped_samples `{Host} (points : list sample)
    (threshold : number) :
  ∃ stops, findStops points threshold = Ok stops ∧
    ∀ j p, points !! j = Some p → (below threshold p ↔ Exists (covers j) stops).
Proof.
  destruct (findStops_spec points threshold) as (stops & Hrun & _ & _ & Hiff).
  by exists stops.
Qed.

(** X9: two stops of [findStops] are never adjacent: after the last index
    of a stop comes at least one moving sample before the next stop
    starts. *)
Theorem findStops_stops_separated `{Host} (points : list sample) (threshold : number) :
  ∃ stops, findStops points threshold = Ok stops ∧
    StronglySorted (λ s1 s2, endIndex s1 + 1 < startIndex s2)%Z stops.
Proof.
  destruct (findStops_spec points threshold) as (stops & Hrun & Hchron & Hwithin & Hiff).
  destruct (findStops_records points threshold) as (stops' & Hrun' & Hrecords).
  rewrite Hrun in Hrun'. injection Hrun' as <-.
  exists stops. split; [done|].
  eapply StronglySorted_strengthen; [|exact Hchron].
  intros s1 s2 Hs1 Hs2 Hlt. simpl in *.
  rewrite Forall_forall in Hrecords, Hwithin.
  destruct (Hrecords s1 Hs1) as (a & b & _ & _ & _ & _ & Hb & _ & _ & _ & _ & _ & Hright & _).
  destruct (Hwithin s2 Hs2) as [Hrange2 Hend2].
  destruct (Z.eq_dec (endIndex s1 + 1)%Z (startIndex s2)) as [Heq|Hne]; [|lia].
  exfalso. destruct Hright as [Hlast|(p & Hp & Hmoving)]; [lia|].
  apply Hmoving. apply (Hiff (S b) p Hp).
  apply Exists_exists. exists s2. split; [done|]. unfold covers. lia.
Qed.

(** ** Stop-pattern classifier past and before its guard *)

Section StopPatternGuard.
Context `{Host}.

(** Past the guard, whatever made it false, the answer is [busOrCar]. *)
Lemma stopPatternClassify_past_guard (gpsData : list sample) :
  gpsData ≠ [] →
  (Math_max (map ToNumber (map speedKmh gpsData)) <? lit 25)%js
  || (Math_max (map ToNumber (map speedKmh gpsData)) >? lit 80)%js = false →
  ∃ stops, findStops gpsData defaultSpeedThreshold = Ok stops ∧
           stopPatternClassify gpsData = Ok (Some (busOrCar gpsData stops)).
Proof.
  intros Hne Hguard.
  destruct (findStops_spec gpsData defaultSpeedThreshold) as (stops & Hstops & _).
  exists stops. split; [done|]. unfold stopPatternClassify, busOrCar.
  assert ((length gpsData =? 0)%nat = false) as ->.
  { apply Nat.eqb_neq. by destruct gpsData. }
  rewrite Hstops. cbn [obind]. rewrite Hguard.
  destruct (length stops =? 0)%nat; [done|].
  unfold pathLength.
  pose proof (totalDistance_loop gpsData [] gpsData (lit 0) eq_refl) as Hloop.
  simpl length in Hloop. rewrite Hloop. cbn [obind].
  cbv zeta. destruct (_ >? lit 1)%js; [done|]. by destruct (_ && _).
Qed.

Lemma Math_max_one_or_count (n : nat) :
  n ≠ 0%nat → ∃ k, Math_max [lit 1; of_nat n] = Fin k ∧ (k == inject_Z (Z.of_nat n))%Q.
Proof.
  intros Hn. unfold Math_max. simpl foldl.
  change (max2 NegInf (lit 1)) with (Fin (inject_Z 1)).
  unfold max2, of_nat, of_Z, js_lt.
  destruct (Qlt_bool _ _) eqn:E; eexists; (split; [reflexivity|]); [reflexivity|].
  apply Qlt_bool_false in E. rewrite <- Zle_Qle in E.
  assert (Z.of_nat n = 1)%Z as -> by lia. reflexivity.
Qed.

(** When the stop frequency does not exceed one stop per kilometre, the path
    length per stop is not inside the band. *)
Lemma js_div_Fin_pos (x y : Q) : (0 < y)%Q → (Fin x / Fin y)%js = Fin (x / y).
Proof. intros Hy. unfold js_div, Qsign. apply Qgt_alt in Hy. by rewrite Hy. Qed.

Lemma js_div_Inf_pos (y : Q) :
  (0 < y)%Q → (PosInf / Fin y)%js = PosInf ∧ (NegInf / Fin y)%js = NegInf.
Proof. intros Hy. unfold js_div, Qsign. apply Qgt_alt in Hy. by rewrite Hy. Qed.

Lemma js_div_Fin_zero (x y : Q) : (0 < x)%Q → (y == 0)%Q → (Fin x / Fin y)%js = PosInf.
Proof.
  intros Hx Hy. unfold js_div, Qsign.
  apply Qgt_alt in Hx. apply Qeq_alt in Hy. by rewrite Hx, Hy.
Qed.

(** When the stop frequency does not exceed one stop per kilometre, the path
    length per stop is not inside the band. *)
Lemma band_needs_frequency (d : number) (n : nat) :
  n ≠ 0%nat →
  (of_nat n / (d / lit 1000) >? lit 1)%js = false →
  (d / Math_max [lit 1; of_nat n] >? lit 300)%js
  && (d / Math_max [lit 1; of_nat n] <? lit 1000)%js = false.
Proof.
  intros Hn Hfreq.
  destruct (Math_max_one_or_count n Hn) as (k & -> & Hk).
  assert (0 < inject_Z (Z.of_nat n))%Q as Hpos by (rewrite <- (Zlt_Qlt 0); lia).
  assert (0 < k)%Q as Hkpos by (by rewrite Hk).
  destruct d as [x| | |]; [| | |done].
  - rewrite (js_div_Fin_pos _ _ Hkpos).
    apply not_true_iff_false. intros [Hlo Hhi]%andb_true_iff.
    unfold js_gt, lit, of_Z in Hlo, Hhi. to_Q.
    change (inject_Z 300) with 300%Q in Hlo. change (inject_Z 1000) with 1000%Q in Hhi.
    assert (x == x / k * k)%Q as Hx by (field; lra).
    assert (0 < x)%Q as Hxpos.
    { rewrite Hx. apply Qmult_lt_0_compat; lra. }
    assert (x < 1000 * k)%Q as Hxk.
    { rewrite Hx at 1. apply Qmult_lt_compat_r; lra. }
    assert (0 < x / 1000)%Q as Hx1000 by (apply Qlt_shift_div_l; lra).
    revert Hfreq. unfold lit, of_nat, of_Z.
    rewrite (js_div_Fin_pos x (inject_Z 1000)) by reflexivity.
    change (inject_Z 1000) with 1000%Q.
    rewrite (js_div_Fin_pos _ _ Hx1000).
    unfold js_gt. intros Hfreq. to_Q.
    revert Hfreq. apply Qlt_not_le. change (inject_Z 1) with 1%Q.
    apply Qlt_shift_div_l; [done|].
    rewrite <- Hk. rewrite Qmult_1_l. apply Qlt_shift_div_r; lra.
  - by rewrite (proj1 (js_div_Inf_pos _ Hkpos)).
  - by rewrite (proj2 (js_div_Inf_pos _ Hkpos)).
Qed.

Lemma busOrCar_frequency (gpsData : list sample) (stops : list stop) :
  busOrCar gpsData stops
  = if (length stops =? 0)%nat then car
    else if (of_nat (length stops) / (pathLength gpsData / lit 1000) >? lit 1)%js then bus
    else car.
Proof.
  unfold busOrCar. cbv zeta.
  destruct (length stops =? 0)%nat eqn:Hlen; [done|]. apply Nat.eqb_neq in Hlen.
  destruct (_ >? lit 1)%js eqn:Hfreq; [done|].
  by rewrite (band_needs_frequency _ _ Hlen Hfreq).
Qed.

(** X10: the spacing band never decides.  For a greatest speed from 25 up to
    80 km/h the answer is car without stops and otherwise bus exactly when
    there is more than one stop per kilometre of path: whenever the path
    length per stop lies between 300 and 1000 m, the frequency test has
    already answered bus. *)
Theorem stopPatternClassify_frequency_alone (gpsData : list sample) (qs : list Q) (m : Q) :
  map speedKmh gpsData = map finite qs → is_max m qs →
  (25 <= m)%Q → (m <= 80)%Q →
  ∃ stops, findStops gpsData defaultSpeedThreshold = Ok stops ∧
    stopPatternClassify gpsData =
      Ok (Some (if (length stops =? 0)%nat then car
                else if (of_nat (length stops) / (pathLength gpsData / lit 1000) >? lit 1)%js
                     then bus
                else car)).
Proof.
  intros Hspeeds Hmax H25 H80.
  destruct (stopPatternClassify_decision gpsData qs m Hspeeds Hmax H25 H80)
    as (stops & Hstops & Hlabel).
  exists stops. split; [done|]. rewrite Hlabel.
  do 2 f_equal. apply busOrCar_frequency.
Qed.

Lemma Math_max_NaN (xs : list number) : NaN ∈ xs → Math_max xs = NaN.
Proof.
  unfold Math_max. generalize NegInf.
  induction xs as [|x xs IH]; intros acc Hin; [by apply elem_of_nil in Hin|].
  simpl. apply elem_of_cons in Hin as [<-|Hin]; [|by apply IH].
  assert (max2 acc NaN = NaN) as -> by (by destruct acc).
  apply foldl_max2_NaN.
Qed.

(** X11: a trajectory with a sample that lacks [speedKmh] is never declined:
    the greatest speed is NaN, both comparisons of the guard are false, and
    the classifier answers bus or car whatever the other speeds are. *)
Theorem stopPatternClassify_missing_speedKmh (gpsData : list sample) :
  Exists (λ p, speedKmh p = undefined) gpsData →
  ∃ stops, findStops gpsData defaultSpeedThreshold = Ok stops ∧
           stopPatternClassify gpsData = Ok (Some (busOrCar gpsData stops)).
Proof.
  intros Hmissing. apply stopPatternClassify_past_guard.
  - intros ->. by apply Exists_nil in Hmissing.
  - rewrite Math_max_NaN; [done|].
    apply Exists_exists in Hmissing as (p & Hp & Hundef).
    apply list_elem_of_fmap. exists (speedKmh p). split; [by rewrite Hundef|].
    apply list_elem_of_fmap. by exists p.
Qed.

(** X12: on a path of length zero with at least one stop the stop frequency
    is a division by zero, infinite, and the answer is bus. *)
Theorem stopPatternClassify_zero_path (gpsData : list sample) (qs : list Q) (m d : Q) :
  map speedKmh gpsData = map finite qs → is_max m qs →
  (25 <= m)%Q → (m <= 80)%Q →
  pathLength gpsData = Fin d → (d == 0)%Q →
  Exists (below defaultSpeedThreshold) gpsData →
  stopPatternClassify gpsData = Ok (Some bus).
Proof.
  intros Hspeeds Hmax H25 H80 Hpath Hd Hstopped.
  destruct (stopPatternClassify_decision gpsData qs m Hspeeds Hmax H25 H80)
    as (stops & Hstops & ->).
  destruct (findStops_spec gpsData defaultSpeedThreshold) as (stops' & Hstops' & _ & _ & Hiff).
  rewrite Hstops in Hstops'. injection Hstops' as <-.
  assert (length stops ≠ 0%nat) as Hlen.
  { apply Exists_exists in Hstopped as (p & Hp & Hbelow).
    apply list_elem_of_lookup in Hp as [j Hj].
    apply (Hiff j p Hj) in Hbelow. destruct Hbelow; simpl; lia. }
  apply Nat.eqb_neq in Hlen as Hlen'. rewrite Hlen'. cbv zeta. rewrite Hpath.
  assert ((of_nat (length stops) / (Fin d / lit 1000) >? lit 1)%js = true) as ->; [|done].
  unfold lit, of_nat, of_Z.
  rewrite (js_div_Fin_pos d (inject_Z 1000)) by reflexivity.
  assert (d / inject_Z 1000 == 0)%Q as Hzero by (rewrite Hd; reflexivity).
  assert (0 < inject_Z (Z.of_nat (length stops)))%Q as Hpos by (rewrite <- (Zlt_Qlt 0); lia).
  by rewrite (js_div_Fin_zero _ _ Hpos Hzero).
Qed.

End StopPatternGuard.

Lemma stopPatternClassify_frequency_alone_witness :
  @stopPatternClassify plainHost [kmhSample 0; kmhSample 30; kmhSample 40] = Ok (Some car).
Proof.
  destruct (@stopPatternClassify_frequency_alone plainHost
              [kmhSample 0; kmhSample 30; kmhSample 40] [0; 30; 40]%Q 40)
    as (stops & Hstops & Hlabel).
  - reflexivity.
  - split; [right; right; by left|]. repeat (constructor; [discriminate|]). constructor.
  - discriminate.
  - discriminate.
  - rewrite Hlabel. revert Hstops. vm_compute. intros [= <-]. reflexivity.
Defined.

Lemma stopPatternClassify_missing_speedKmh_witness :
  ∃ stops, @findStops plainHost [msSample 1] defaultSpeedThreshold = Ok stops ∧
           @stopPatternClassify plainHost [msSample 1]
           = Ok (Some (@busOrCar plainHost [msSample 1] stops)).
Proof.
  apply (@stopPatternClassify_missing_speedKmh plainHost [msSample 1]).
  by left.
Defined.

Lemma stopPatternClassify_zero_path_witness :
  @stopPatternClassify plainHost
    [mkSample undefined undefined undefined (finite 0) (finite 30) undefined]
  = Ok (Some bus).
Proof.
  apply (@stopPatternClassify_zero_path plainHost _ [30]%Q 30 0).
  - reflexivity.
  - split; [by left|]. repeat (constructor; [discriminate|]). constructor.
  - discriminate.
  - discriminate.
  - reflexivity.
  - reflexivity.
  - left. reflexivity.
Defined.

Lemma stopPatternClassify_out_of_range_witness :
  @stopPatternClassify plainHost [kmhSample 5; kmhSample 6] = Ok None.
Proof.
  apply (@stopPatternClassify_out_of_range plainHost _ [5; 6]%Q 6).
  - reflexivity.
  - split; [right; by left|]. repeat (constructor; [discriminate|]). constructor.
  - left. reflexivity.
Defined.

(** ** Metrics of a confusion matrix *)

Lemma of_nat_add (m n : nat) : (of_nat m + of_nat n)%js = of_nat (m + n).
Proof.
  unfold of_nat, of_Z, js_add, Qplus, inject_Z. simpl.
  f_equal. f_equal. lia.
Qed.

Lemma truthy_of_nat (n : nat) : truthy_number (of_nat n) = negb (n =? 0)%nat.
Proof.
  destruct n as [|n]; [done|]. unfold truthy_number, of_nat, of_Z.
  destruct (Qeq_bool _ 0) eqn:E; [|done].
  apply Qeq_bool_eq in E. unfold Qeq, inject_Z in E. simpl in E. lia.
Qed.

Lemma or_zero_of_nat (n : nat) : or_zero (Own (of_nat n)) = of_nat n.
Proof. unfold or_zero. rewrite truthy_of_nat. by destruct n. Qed.

Lemma js_gt_of_nat (n : nat) : (of_nat n >? lit 0)%js = negb (n =? 0)%nat.
Proof.
  unfold js_gt, lit, of_nat, of_Z. destruct n as [|n]; [done|].
  apply js_lt_Fin_true. rewrite <- Zlt_Qlt. lia.
Qed.

Lemma ratio_of_nat (n d : nat) :
  (if (of_nat d >? lit 0)%js then (of_nat n / of_nat d)%js else lit 0) = ratio n d.
Proof. unfold ratio. rewrite js_gt_of_nat. by destruct (d =? 0)%nat. Qed.

Lemma lookup_list_to_map_keys {V : Type} (g : string → V) (keys : list string) (k : string) :
  (list_to_map (map (λ k, (k, g k)) keys) : gmap string V) !! k
  = if bool_decide (k ∈ keys) then Some (g k) else None.
Proof.
  induction keys as [|key keys IH]; cbn [map list_to_map foldr].
  - rewrite lookup_empty. rewrite bool_decide_eq_false_2; [done | apply not_elem_of_nil].
  - change (foldr _ _ _) with (list_to_map (map (λ k, (k, g k)) keys) : gmap string V).
    cbn [uncurry]. destruct (decide (k = key)) as [->|Hne].
    + rewrite lookup_insert_eq. rewrite bool_decide_eq_true_2; [done | by left].
    + rewrite lookup_insert_ne by done. rewrite IH.
      destruct (decide (k ∈ keys)) as [Hin|Hnin].
      * rewrite !bool_decide_eq_true_2; [done | by right | done].
      * rewrite !bool_decide_eq_false_2; [done | by apply not_elem_of_cons | done].
Qed.

Lemma NoDup_modes : NoDup modes.
Proof.
  unfold modes. repeat (apply NoDup_cons; split;
    [intros Hin; repeat (apply elem_of_cons in Hin as [Hin|Hin]; [discriminate|]);
     by apply elem_of_nil in Hin|]).
  apply NoDup_nil_2.
Qed.

Lemma entries_list_to_map_keys {V : Type} (g : string → V) :
  ∃ ks, map_to_list (list_to_map (map (λ k, (k, g k)) modes) : gmap string V)
        = map (λ k, (k, g k)) ks ∧ modes ≡ₚ ks.
Proof.
  apply Permutation_map_inv, map_to_list_to_map.
  change (NoDup modes). apply NoDup_modes.
Qed.

Lemma row_of_counts_lookup (f : string → nat) (p : string) :
  row_of_counts f !! p = if bool_decide (p ∈ modes) then Some (of_nat (f p)) else None.
Proof. apply (lookup_list_to_map_keys (λ p, of_nat (f p))). Qed.

Lemma matrix_of_counts_lookup (c : string → string → nat) (a : string) :
  matrix_of_counts c !! a
  = if bool_decide (a ∈ modes) then Some (row_of_counts (c a)) else None.
Proof. apply (lookup_list_to_map_keys (λ a, row_of_counts (c a))). Qed.

(** The sum of a row of counts, added to a running total. *)
Lemma row_total (f : string → nat) (g : number → number) (t0 : nat) :
  (∀ n, g (of_nat n) = of_nat n) →
  foldl (λ (total : number) (c : string * number), (total + g c.2)%js)
        (of_nat t0) (map_to_list (row_of_counts f))
  = of_nat (t0 + sum_list (map f modes)).
Proof.
  intros Hg.
  destruct (entries_list_to_map_keys (λ p, of_nat (f p))) as (ks & Hks & Hperm).
  unfold row_of_counts. rewrite Hks. rewrite Hperm. clear Hks Hperm.
  revert t0. induction ks as [|k ks IH]; intros t0.
  - simpl. by rewrite Nat.add_0_r.
  - cbn [map foldl snd]. rewrite Hg, of_nat_add, IH. f_equal. simpl. lia.
Qed.

Lemma get_property_row_of_counts (f : string → nat) (p : string) :
  p ∈ modes → get_property (row_of_counts f) p = Own (of_nat (f p)).
Proof.
  intros Hp. unfold get_property. rewrite row_of_counts_lookup.
  by rewrite bool_decide_eq_true_2.
Qed.

Lemma calculateAccuracy_of_counts (c : string → string → nat) :
  calculateAccuracy (matrix_of_counts c)
  = ratio (sum_list (map (λ a, c a a) modes))
          (sum_list (map (λ a, sum_list (map (c a) modes)) modes)).
Proof.
  unfold calculateAccuracy.
  destruct (entries_list_to_map_keys (λ a, row_of_counts (c a))) as (ks & Hks & Hperm).
  unfold matrix_of_counts. rewrite Hks.
  assert (Forall (λ a, a ∈ modes) ks) as Hin.
  { apply Forall_forall. intros a Ha. by rewrite Hperm. }
  rewrite Hperm. clear Hks Hperm. cbv zeta.
  change (lit 0, lit 0) with (of_nat 0, of_nat 0).
  assert (∀ c0 t0,
    foldl (λ (counts : number * number) (entry : string * gmap string number),
             (match get_property entry.2 entry.1 with
              | Own n => if truthy_number n then (counts.1 + n)%js else counts.1
              | Inherited => NaN
              | Absent => counts.1
              end,
              foldl (λ (total : number) (c : string * number), (total + c.2)%js)
                    counts.2 (map_to_list entry.2)))
          (of_nat c0, of_nat t0) (map (λ a, (a, row_of_counts (c a))) ks)
    = (of_nat (c0 + sum_list (map (λ a, c a a) ks)),
       of_nat (t0 + sum_list (map (λ a, sum_list (map (c a) modes)) ks)))) as ->.
  { induction Hin as [|a ks Ha Hin IH]; intros c0 t0.
    - simpl. by rewrite !Nat.add_0_r.
    - cbn [map foldl fst snd]. rewrite (get_property_row_of_counts _ _ Ha).
      rewrite truthy_of_nat.
      rewrite (row_total (c a) (λ n, n) t0) by done.
      assert ((if negb (c a a =? 0)%nat then (of_nat c0 + of_nat (c a a))%js else of_nat c0)
              = of_nat (c0 + c a a)) as ->.
      { destruct (c a a) as [|n] eqn:E; simpl negb; cbv iota.
        - by rewrite Nat.add_0_r.
        - apply of_nat_add. }
      rewrite IH. simpl. f_equal; f_equal; lia. }
  cbn [fst snd]. apply ratio_of_nat.
Qed.

Lemma foldl_js_add_NaN_map {A : Type} (g : A → number) (xs : list A) :
  foldl (λ acc x, (acc + g x)%js) NaN xs = NaN.
Proof. by induction xs. Qed.

Lemma calculatePrecision_of_counts (c : string → string → nat) (className : string) :
  calculatePrecision (matrix_of_counts c) className
  = if bool_decide (className ∈ modes)
    then ratio (c className className) (sum_list (map (λ a, c a className) modes))
    else lit 0.
Proof.
  unfold calculatePrecision, truePositives. rewrite matrix_of_counts_lookup.
  destruct (entries_list_to_map_keys (λ a, row_of_counts (c a))) as (ks & Hks & Hperm).
  unfold matrix_of_counts at 1 2. rewrite Hks. cbv zeta.
  destruct (decide (className ∈ modes)) as [Hin|Hnin].
  - rewrite bool_decide_eq_true_2 by done.
    rewrite (get_property_row_of_counts _ _ Hin), or_zero_of_nat.
    rewrite Hperm. clear Hks Hperm.
    assert (∀ p0,
      foldl (λ (predicted : number) (entry : string * gmap string number),
               (predicted + or_zero (get_property entry.2 className))%js)
            (of_nat p0) (map (λ a, (a, row_of_counts (c a))) ks)
      = of_nat (p0 + sum_list (map (λ a, c a className) ks))) as Hfold.
    { induction ks as [|a ks IH]; intros p0.
      - simpl. by rewrite Nat.add_0_r.
      - cbn [map foldl snd]. rewrite (get_property_row_of_counts _ _ Hin), or_zero_of_nat.
        rewrite of_nat_add, IH. simpl. f_equal. lia. }
    change (lit 0) with (of_nat 0). rewrite !Hfold.
    exact (ratio_of_nat _ _).
  - rewrite bool_decide_eq_false_2 by done.
    assert (∀ a, get_property (row_of_counts (c a)) className
                 = if bool_decide (className ∈ Object_prototype_members)
                   then Inherited else Absent) as Hget.
    { intros a. unfold get_property. rewrite row_of_counts_lookup.
      by rewrite bool_decide_eq_false_2. }
    destruct (bool_decide (className ∈ Object_prototype_members)).
    + destruct ks as [|a ks].
      * apply Permutation_nil_r in Hperm. discriminate.
      * cbn [map foldl snd]. rewrite Hget. cbn [or_zero].
        change (lit 0 + NaN)%js with NaN. by rewrite foldl_js_add_NaN_map.
    + assert (foldl (λ (predicted : number) (entry : string * gmap string number),
                      (predicted + or_zero (get_property entry.2 className))%js)
                    (lit 0) (map (λ a, (a, row_of_counts (c a))) ks) = lit 0) as ->; [|done].
      clear Hks Hperm. induction ks as [|a ks IH]; [done|].
      cbn [map foldl snd]. rewrite Hget. cbn [or_zero].
      change (lit 0 + lit 0)%js with (lit 0). apply IH.
Qed.

Lemma calculateRecall_of_counts (c : string → string → nat) (className : string) :
  calculateRecall (matrix_of_counts c) className
  = if bool_decide (className ∈ modes)
    then ratio (c className className) (sum_list (map (c className) modes))
    else lit 0.
Proof.
  unfold calculateRecall, truePositives. rewrite matrix_of_counts_lookup.
  destruct (decide (className ∈ modes)) as [Hin|Hnin].
  - rewrite !bool_decide_eq_true_2 by done. cbv zeta.
    rewrite (get_property_row_of_counts _ _ Hin), or_zero_of_nat.
    change (lit 0) with (of_nat 0).
    rewrite !(row_total (c className) (λ n, or_zero (Own n)) 0) by apply or_zero_of_nat.
    exact (ratio_of_nat _ _).
  - by rewrite !bool_decide_eq_false_2 by done.
Qed.

(** The matrix keeps its five rows of five cells while the labels stay in
    the vocabulary. *)
Lemma increment_matrix_of_counts (c : string → string → nat) (a0 p0 : string) :
  a0 ∈ modes → p0 ∈ modes →
  increment (matrix_of_counts c) a0 p0
  = Ok (matrix_of_counts
          (λ a p, if bool_decide (a = a0 ∧ p = p0) then S (c a p) else c a p)).
Proof.
  intros Ha0 Hp0. unfold increment.
  rewrite matrix_of_counts_lookup, bool_decide_eq_true_2 by done.
  rewrite (modes_not_proto p0 Hp0). cbv zeta.
  rewrite row_of_counts_lookup, bool_decide_eq_true_2 by done.
  change (ToNumber (Num (of_nat (c a0 p0)))) with (of_nat (c a0 p0)).
  rewrite of_nat_succ. f_equal.
  apply map_eq. intros a. rewrite matrix_of_counts_lookup.
  destruct (decide (a = a0)) as [->|Hne].
  - rewrite lookup_insert_eq, bool_decide_eq_true_2 by done. f_equal.
    apply map_eq. intros p. rewrite row_of_counts_lookup.
    destruct (decide (p = p0)) as [->|Hnep].
    + rewrite lookup_insert_eq, !bool_decide_eq_true_2 by done. done.
    + rewrite lookup_insert_ne by done. rewrite row_of_counts_lookup.
      rewrite (bool_decide_eq_false_2 (a0 = a0 ∧ p = p0)); [done | by intros [_ ?]].
  - rewrite lookup_insert_ne by done. rewrite matrix_of_counts_lookup.
    case_bool_decide; [|done]. f_equal.
    apply map_eq. intros p. rewrite !row_of_counts_lookup.
    rewrite (bool_decide_eq_false_2 (a = a0 ∧ p = p0)); [done | by intros [? _]].
Qed.

Lemma matrix_of_counts_ext (c c' : string → string → nat) :
  (∀ a p, a ∈ modes → p ∈ modes → c a p = c' a p) →
  matrix_of_counts c = matrix_of_counts c'.
Proof.
  intros Hext. apply map_eq. intros a. rewrite !matrix_of_counts_lookup.
  case_bool_decide as Ha; [|done]. f_equal.
  apply map_eq. intros p. rewrite !row_of_counts_lookup.
  case_bool_decide as Hp; [|done]. by rewrite Hext.
Qed.

Lemma for_of_matrix_of_counts (predictions : list prediction) (c : string → string → nat) :
  Forall (λ pr, labelled pr = true → in_vocabulary pr) predictions →
  for_of (λ pred matrix,
      if truthy (actual pred) && truthy (predicted pred)
      then increment matrix (default "" (actual pred)) (default "" (predicted pred))
      else Ok matrix)
    predictions (matrix_of_counts c)
  = Ok (matrix_of_counts (λ a p, (c a p + count_pairs a p predictions)%nat)).
Proof.
  intros Hall. revert c.
  induction Hall as [|pr predictions Hpr Hall IH]; intros c.
  - cbn [for_of]. f_equal. apply matrix_of_counts_ext. intros a p _ _.
    unfold count_pairs. simpl. lia.
  - cbn [for_of]. fold (labelled pr). destruct (labelled pr) eqn:Hlab.
    + destruct (Hpr eq_refl) as (a0 & p0 & Ha0 & Hp0 & Hina & Hinp).
      rewrite Ha0, Hp0. simpl default.
      rewrite (increment_matrix_of_counts c a0 p0 Hina Hinp). cbn [obind].
      rewrite IH. f_equal. apply matrix_of_counts_ext. intros a p _ _.
      rewrite count_pairs_cons. unfold is_pair. rewrite Ha0, Hp0.
      destruct (decide (a = a0 ∧ p = p0)) as [[-> ->]|Hne].
      * rewrite !bool_decide_eq_true_2 by done. simpl. lia.
      * rewrite (bool_decide_eq_false_2 (a = a0 ∧ p = p0)) by done.
        destruct (decide (a = a0)) as [->|Hnea].
        -- rewrite (bool_decide_eq_false_2 (Some p0 = Some p)); [by rewrite andb_false_r|].
           intros [= <-]. by apply Hne.
        -- rewrite (bool_decide_eq_false_2 (Some a0 = Some a)); [done|].
           intros [= <-]. by apply Hnea.
    + cbn [obind]. rewrite IH. f_equal. apply matrix_of_counts_ext. intros a p Ha Hp.
      rewrite count_pairs_cons.
      destruct (is_pair a p pr) eqn:Hpair; [|done].
      by rewrite (is_pair_labelled a p pr Ha Hp Hpair) in Hlab.
Qed.

Lemma buildConfusionMatrix_matrix_of_counts (predictions : list prediction) :
  Forall (λ pr, labelled pr = true → in_vocabulary pr) predictions →
  buildConfusionMatrix predictions
  = Ok (matrix_of_counts (λ a p, count_pairs a p predictions)).
Proof.
  intros Hall. unfold buildConfusionMatrix. cbv zeta.
  assert (foldl (λ matrix actual,
                   <[actual := foldl (λ row predicted, <[predicted := lit 0]> row) ∅ modes]>
                     matrix) ∅ modes
          = matrix_of_counts (λ _ _, 0%nat)) as ->.
  { apply map_eq. intros a. rewrite matrix_of_counts_lookup.
    rewrite (foldl_insert_const _ modes ∅ a). rewrite lookup_empty.
    case_bool_decide; [|done].
    f_equal; apply map_eq; intros p; rewrite row_of_counts_lookup;
      rewrite (foldl_insert_const _ modes ∅ p); by rewrite lookup_empty. }
  by rewrite (for_of_matrix_of_counts predictions _ Hall).
Qed.
Lemma sum_select (x : string) (g : string → nat) (l : list string) :
  NoDup l →
  sum_list (map (λ a, if bool_decide (x = a) then g a else 0%nat) l)
  = if bool_decide (x ∈ l) then g x else 0%nat.
Proof.
  induction 1 as [|a l Hnin Hnd IH]; [done|]. cbn [map sum_list_with id].
  rewrite IH. destruct (decide (x = a)) as [->|Hne].
  - rewrite (bool_decide_eq_true_2 (a = a)) by done.
    rewrite (bool_decide_eq_false_2 (a ∈ l)) by done.
    rewrite (bool_decide_eq_true_2 (a ∈ a :: l)) by (by left). lia.
  - rewrite (bool_decide_eq_false_2 (x = a)) by done.
    destruct (decide (x ∈ l)) as [Hin|Hnin'].
    + rewrite !bool_decide_eq_true_2; [done | by right | done].
    + rewrite !bool_decide_eq_false_2; [done | by apply not_elem_of_cons | done].
Qed.

Lemma sum_list_zero {A : Type} (f : A → nat) (l : list A) :
  Forall (λ a, f a = 0%nat) l → sum_list (map f l) = 0%nat.
Proof. induction 1 as [|a l Ha _ IH]; [done|]. simpl. by rewrite Ha, IH. Qed.

Lemma sum_list_map_ext {A : Type} (f g : A → nat) (l : list A) :
  Forall (λ a, f a = g a) l → sum_list (map f l) = sum_list (map g l).
Proof. induction 1 as [|a l Ha _ IH]; [done|]. simpl. by rewrite Ha, IH. Qed.

Lemma is_pair_of_labels (a0 p0 a p : string) (pr : prediction) :
  actual pr = Some a0 → predicted pr = Some p0 →
  is_pair a p pr = bool_decide (a0 = a) && bool_decide (p0 = p).
Proof.
  intros Ha Hp. unfold is_pair. rewrite Ha, Hp.
  f_equal; apply bool_decide_ext; split; congruence.
Qed.

(** Counting the pairs cell by cell along the keys and counting them at once. *)
Lemma count_along (F : string → prediction → bool) (G : prediction → bool)
    (keys : list string) (predictions : list prediction) :
  Forall (λ pr, sum_list (map (λ k, if F k pr then 1 else 0)%nat keys)
                = if G pr then 1%nat else 0%nat) predictions →
  sum_list (map (λ k, length (List.filter (F k) predictions)) keys)
  = length (List.filter G predictions).
Proof.
  induction 1 as [|pr predictions Hpr _ IH].
  - simpl. by apply sum_list_zero, Forall_forall.
  - rewrite (sum_list_map_ext _ (λ k, (if F k pr then 1 else 0)
                                       + length (List.filter (F k) predictions))%nat).
    + rewrite sum_list_map_add, IH, Hpr. simpl. by destruct (G pr).
    + apply Forall_forall. intros k _. simpl. by destruct (F k pr).
Qed.

Section CountsOfPredictions.
Variable predictions : list prediction.
Hypothesis Hvocabulary : Forall (λ pr, labelled pr = true → in_vocabulary pr) predictions.

Lemma unlabelled_no_pair (pr : prediction) (a p : string) :
  labelled pr = false → a ∈ modes → p ∈ modes → is_pair a p pr = false.
Proof.
  intros Hlab Ha Hp. destruct (is_pair a p pr) eqn:Hpair; [|done].
  by rewrite (is_pair_labelled a p pr Ha Hp Hpair) in Hlab.
Qed.

Lemma diagonal_counts :
  sum_list (map (λ a, count_pairs a a predictions) modes)
  = length (List.filter hit predictions).
Proof.
  apply (count_along (λ a, is_pair a a) hit).
  eapply Forall_impl; [exact Hvocabulary|]. intros pr Hpr. cbv beta.
  unfold hit. destruct (labelled pr) eqn:Hlab.
  - destruct (Hpr Hlab) as (a0 & p0 & Ha0 & Hp0 & Hina & Hinp).
    rewrite (sum_list_map_ext _
      (λ a, if bool_decide (a0 = a) then (if bool_decide (p0 = a) then 1 else 0) else 0)%nat).
    + rewrite (sum_select a0 _ modes NoDup_modes), bool_decide_eq_true_2 by done.
      rewrite Ha0, Hp0. simpl andb.
      rewrite (bool_decide_ext (p0 = a0) (Some a0 = Some p0)); [done|].
      split; congruence.
    + apply Forall_forall. intros a _. rewrite (is_pair_of_labels a0 p0 a a pr Ha0 Hp0).
      by destruct (bool_decide (a0 = a)).
  - apply sum_list_zero, Forall_forall. intros a Ha.
    by rewrite (unlabelled_no_pair pr a a Hlab Ha Ha).
Qed.

Lemma column_counts (c : string) :
  c ∈ modes →
  sum_list (map (λ a, count_pairs a c predictions) modes)
  = length (List.filter (predicted_as c) predictions).
Proof.
  intros Hc. apply (count_along (λ a, is_pair a c) (predicted_as c)).
  eapply Forall_impl; [exact Hvocabulary|]. intros pr Hpr. cbv beta.
  unfold predicted_as. destruct (labelled pr) eqn:Hlab.
  - destruct (Hpr Hlab) as (a0 & p0 & Ha0 & Hp0 & Hina & Hinp).
    rewrite (sum_list_map_ext _
      (λ a, if bool_decide (a0 = a) then (if bool_decide (p0 = c) then 1 else 0) else 0)%nat).
    + rewrite (sum_select a0 _ modes NoDup_modes), bool_decide_eq_true_2 by done.
      rewrite Hp0. simpl andb.
      rewrite (bool_decide_ext (p0 = c) (Some p0 = Some c)); [done|].
      split; congruence.
    + apply Forall_forall. intros a _. rewrite (is_pair_of_labels a0 p0 a c pr Ha0 Hp0).
      by destruct (bool_decide (a0 = a)).
  - apply sum_list_zero, Forall_forall. intros a Ha.
    by rewrite (unlabelled_no_pair pr a c Hlab Ha Hc).
Qed.

Lemma row_counts (c : string) :
  c ∈ modes →
  sum_list (map (λ p, count_pairs c p predictions) modes)
  = length (List.filter (actually c) predictions).
Proof.
  intros Hc. apply (count_along (λ p, is_pair c p) (actually c)).
  eapply Forall_impl; [exact Hvocabulary|]. intros pr Hpr. cbv beta.
  unfold actually. destruct (labelled pr) eqn:Hlab.
  - destruct (Hpr Hlab) as (a0 & p0 & Ha0 & Hp0 & Hina & Hinp).
    rewrite (sum_list_map_ext _
      (λ p, if bool_decide (p0 = p) then (if bool_decide (a0 = c) then 1 else 0) else 0)%nat).
    + rewrite (sum_select p0 _ modes NoDup_modes), bool_decide_eq_true_2 by done.
      rewrite Ha0. simpl andb.
      rewrite (bool_decide_ext (a0 = c) (Some a0 = Some c)); [done|].
      split; congruence.
    + apply Forall_forall. intros p _. rewrite (is_pair_of_labels a0 p0 c p pr Ha0 Hp0).
      rewrite andb_comm. by destruct (bool_decide (p0 = p)).
  - apply sum_list_zero, Forall_forall. intros p Hp.
    by rewrite (unlabelled_no_pair pr c p Hlab Hc Hp).
Qed.

Lemma all_counts :
  sum_list (map (λ a, sum_list (map (λ p, count_pairs a p predictions) modes)) modes)
  = length (List.filter labelled predictions).
Proof.
  rewrite (sum_list_map_ext _ (λ a, length (List.filter (actually a) predictions))).
  - apply (count_along actually labelled).
    eapply Forall_impl; [exact Hvocabulary|]. intros pr Hpr. cbv beta.
    unfold actually. destruct (labelled pr) eqn:Hlab.
    + destruct (Hpr Hlab) as (a0 & p0 & Ha0 & Hp0 & Hina & Hinp).
      rewrite (sum_list_map_ext _ (λ a, if bool_decide (a0 = a) then 1 else 0)%nat).
      * by rewrite (sum_select a0 _ modes NoDup_modes), bool_decide_eq_true_2.
      * apply Forall_forall. intros a _. rewrite Ha0. simpl andb.
        rewrite (bool_decide_ext (Some a0 = Some a) (a0 = a)); [done|].
        split; congruence.
    + by apply sum_list_zero, Forall_forall.
  - apply Forall_forall. intros a Ha. by apply row_counts.
Qed.

End CountsOfPredictions.

(** X13: composition of the matrix with the accuracy.  When every pair that
    passes the guard has both labels among the five modes, the accuracy of
    the matrix built from the pairs is the share of the pairs that pass the
    guard whose two labels agree, and 0 when no pair passes the guard. *)
Theorem calculateAccuracy_of_predictions (predictions : list prediction) :
  Forall (λ pr, labelled pr = true → in_vocabulary pr) predictions →
  ∃ matrix, buildConfusionMatrix predictions = Ok matrix ∧
    calculateAccuracy matrix
    = ratio (length (List.filter hit predictions))
            (length (List.filter labelled predictions)).
Proof.
  intros Hall. eexists. split; [by apply buildConfusionMatrix_matrix_of_counts|].
  rewrite calculateAccuracy_of_counts.
  by rewrite (diagonal_counts predictions Hall), (all_counts predictions Hall).
Qed.

(** X14: composition of the matrix with the precision and the recall of one
    of the five modes.  Under the same condition the precision of a mode is
    the share of the pairs predicted as the mode that are of the mode, the
    recall the share of the pairs of the mode that are predicted as the
    mode; each is 0 when its denominator is. *)
Theorem calculatePrecision_Recall_of_predictions (predictions : list prediction)
    (className : string) :
  Forall (λ pr, labelled pr = true → in_vocabulary pr) predictions →
  className ∈ modes →
  ∃ matrix, buildConfusionMatrix predictions = Ok matrix ∧
    calculatePrecision matrix className
    = ratio (count_pairs className className predictions)
            (length (List.filter (predicted_as className) predictions)) ∧
    calculateRecall matrix className
    = ratio (count_pairs className className predictions)
            (length (List.filter (actually className) predictions)).
Proof.
  intros Hall Hin. eexists. split; [by apply buildConfusionMatrix_matrix_of_counts|].
  rewrite calculatePrecision_of_counts, calculateRecall_of_counts.
  rewrite !bool_decide_eq_true_2 by done.
  by rewrite (column_counts predictions Hall className Hin),
             (row_counts predictions Hall className Hin).
Qed.

(** X15: a class name outside the five modes has precision 0 and recall 0
    on a built matrix, whether the name is unknown or names a member every
    object inherits. *)
Theorem calculatePrecision_Recall_unknown_class (predictions : list prediction)
    (className : string) :
  Forall (λ pr, labelled pr = true → in_vocabulary pr) predictions →
  className ∉ modes →
  ∃ matrix, buildConfusionMatrix predictions = Ok matrix ∧
    calculatePrecision matrix className = lit 0 ∧
    calculateRecall matrix className = lit 0.
Proof.
  intros Hall Hnin. eexists. split; [by apply buildConfusionMatrix_matrix_of_counts|].
  rewrite calculatePrecision_of_counts, calculateRecall_of_counts.
  by rewrite !bool_decide_eq_false_2 by done.
Qed.

Lemma foldl_js_add_reaches_NaN {A : Type} (g : A → number) (xs : list A) (t0 : number)
    (x : A) :
  x ∈ xs → g x = NaN → foldl (λ acc y, (acc + g y)%js) t0 xs = NaN.
Proof.
  intros Hin Hx. revert t0. induction xs as [|y xs IH]; intros t0.
  - by apply elem_of_nil in Hin.
  - cbn [foldl]. apply elem_of_cons in Hin as [<-|Hin]; [|by apply IH].
    rewrite Hx. assert ((t0 + NaN)%js = NaN) as -> by (by destruct t0).
    apply foldl_js_add_NaN_map.
Qed.

Lemma calculateAccuracy_has_NaN_cell (matrix : gmap string (gmap string number)) :
  has_NaN_cell matrix → calculateAccuracy matrix = lit 0.
Proof.
  intros (a & row & p & Hrow & Hcell). unfold calculateAccuracy. cbv zeta.
  apply elem_of_map_to_list in Hrow, Hcell.
  set (step := λ (counts : number * number) (entry : string * gmap string number), _).
  assert (∀ l s, s.2 = NaN → (foldl step s l).2 = NaN) as Hkeep.
  { induction l as [|e l IH]; intros s Hs; [done|].
    cbn [foldl]. apply IH. unfold step at 1. cbn [snd]. rewrite Hs.
    apply (foldl_js_add_NaN_map (λ c : string * number, c.2)). }
  assert (∀ l s, (a, row) ∈ l → (foldl step s l).2 = NaN) as Hreach.
  { induction l as [|e l IH]; intros s Hin; [by apply elem_of_nil in Hin|].
    cbn [foldl]. apply elem_of_cons in Hin as [<-|Hin]; [|by apply IH].
    apply Hkeep. unfold step. cbn [snd].
    by apply (foldl_js_add_reaches_NaN (λ c : string * number, c.2) _ _ (p, NaN)). }
  by rewrite (Hreach _ _ Hrow).
Qed.

(** X16: one NaN cell anywhere in a matrix makes the total NaN, the test
    [total > 0] fail and the accuracy 0, whatever the other cells hold. *)
Theorem calculateAccuracy_NaN_cell (matrix : gmap string (gmap string number))
    (a p : string) (row : gmap string number) :
  matrix !! a = Some row → row !! p = Some NaN →
  calculateAccuracy matrix = lit 0.
Proof.
  intros Hrow Hcell. apply calculateAccuracy_has_NaN_cell. by exists a, row, p.
Qed.

Lemma increment_rows_kept (matrix matrix' : gmap string (gmap string number))
    (a p : string) :
  rows_kept matrix → increment matrix a p = Ok matrix' → rows_kept matrix'.
Proof.
  intros Hinv. unfold increment.
  destruct (matrix !! a) as [row|] eqn:Hrow.
  - destruct (String.eqb p "__proto__"); intros [= <-]; [done|].
    intros a' Ha'. destruct (decide (a' = a)) as [->|Hne].
    + rewrite lookup_insert_eq. eexists. split; [done|]. intros q Hq.
      destruct (Hinv a Ha') as (row' & Hrow' & Hcells).
      rewrite Hrow in Hrow'. injection Hrow' as <-.
      destruct (decide (q = p)) as [->|Hneq].
      * rewrite lookup_insert_eq. right. f_equal.
        by destruct (Hcells p Hq) as [-> | ->].
      * rewrite lookup_insert_ne by done. by apply Hcells.
    + rewrite lookup_insert_ne by done. by apply Hinv.
  - case_bool_decide; [|done]. by intros [= <-].
Qed.

Lemma increment_has_NaN_cell (matrix matrix' : gmap string (gmap string number))
    (a p : string) :
  has_NaN_cell matrix → increment matrix a p = Ok matrix' → has_NaN_cell matrix'.
Proof.
  intros (a0 & row0 & p0 & Hrow0 & Hcell0). unfold increment.
  destruct (matrix !! a) as [row|] eqn:Hrow.
  - destruct (String.eqb p "__proto__"); intros [= <-]; [by exists a0, row0, p0|].
    destruct (decide (a0 = a)) as [->|Hne].
    + rewrite Hrow in Hrow0. injection Hrow0 as <-.
      eexists a, _, p0. rewrite lookup_insert_eq. split; [done|].
      destruct (decide (p0 = p)) as [->|Hnep].
      * rewrite lookup_insert_eq. by rewrite Hcell0.
      * by rewrite lookup_insert_ne.
    + exists a0, row0, p0. by rewrite lookup_insert_ne.
  - case_bool_decide; [|done]. intros [= <-]. by exists a0, row0, p0.
Qed.

Lemma increment_out_of_vocabulary (matrix matrix' : gmap string (gmap string number))
    (a p : string) :
  rows_kept matrix → a ∈ modes → p ∉ modes → p ≠ "__proto__" →
  increment matrix a p = Ok matrix' → has_NaN_cell matrix'.
Proof.
  intros Hinv Ha Hp Hproto. unfold increment.
  destruct (Hinv a Ha) as (row & -> & Hcells).
  apply String.eqb_neq in Hproto. rewrite Hproto. intros [= <-].
  eexists a, _, p. rewrite lookup_insert_eq. split; [done|].
  rewrite lookup_insert_eq. f_equal.
  by destruct (Hcells p Hp) as [-> | ->].
Qed.

Lemma for_of_invariant (P : gmap string (gmap string number) → Prop)
    (predictions : list prediction) (matrix matrix' : gmap string (gmap string number)) :
  (∀ m m' a p, P m → increment m a p = Ok m' → P m') →
  P matrix →
  for_of (λ pred matrix,
      if truthy (actual pred) && truthy (predicted pred)
      then increment matrix (default "" (actual pred)) (default "" (predicted pred))
      else Ok matrix)
    predictions matrix = Ok matrix' →
  P matrix'.
Proof.
  intros Hstep. revert matrix.
  induction predictions as [|pr predictions IH]; intros matrix HP; cbn [for_of].
  - by intros [= <-].
  - destruct (truthy (actual pr) && truthy (predicted pr)).
    + destruct (increment matrix _ _) as [m1| |] eqn:Hinc; [|done|done].
      cbn [obind]. apply IH. by eapply Hstep.
    + cbn [obind]. by apply IH.
Qed.

Lemma for_of_out_of_vocabulary (predictions : list prediction)
    (matrix matrix' : gmap string (gmap string number)) (a p : string) :
  rows_kept matrix →
  mkPrediction (Some a) (Some p) ∈ predictions →
  a ∈ modes → p ∉ modes → p ≠ "" → p ≠ "__proto__" →
  for_of (λ pred matrix,
      if truthy (actual pred) && truthy (predicted pred)
      then increment matrix (default "" (actual pred)) (default "" (predicted pred))
      else Ok matrix)
    predictions matrix = Ok matrix' →
  has_NaN_cell matrix'.
Proof.
  intros Hinv Hin Ha Hp Hempty Hproto. revert matrix Hinv.
  induction predictions as [|pr predictions IH]; intros matrix Hinv;
    [by apply elem_of_nil in Hin|].
  cbn [for_of]. apply elem_of_cons in Hin as [<-|Hin].
  - cbn [actual predicted]. rewrite (modes_truthy a Ha).
    assert (truthy (Some p) = true) as ->.
    { unfold truthy. by apply negb_true_iff, String.eqb_neq. }
    cbn [andb default from_option id].
    destruct (increment matrix a p) as [m1| |] eqn:Hinc; [|done|done].
    cbn [obind]. apply for_of_invariant; [apply increment_has_NaN_cell|].
    by apply (increment_out_of_vocabulary matrix m1 a p).
  - destruct (truthy (actual pr) && truthy (predicted pr)).
    + destruct (increment matrix _ _) as [m1| |] eqn:Hinc; [|done|done].
      cbn [obind]. apply IH; [done|]. by eapply increment_rows_kept.
    + cbn [obind]. by apply IH.
Qed.

(** X17: one pair of a mode predicted as a label outside the five modes
    (not empty, not ["__proto__"]) spoils the accuracy of the whole matrix:
    when the matrix is built, its accuracy is 0 whatever the other pairs
    are. *)
Theorem calculateAccuracy_out_of_vocabulary (predictions : list prediction)
    (matrix : gmap string (gmap string number)) (a p : string) :
  buildConfusionMatrix predictions = Ok matrix →
  mkPrediction (Some a) (Some p) ∈ predictions →
  a ∈ modes → p ∉ modes → p ≠ "" → p ≠ "__proto__" →
  calculateAccuracy matrix = lit 0.
Proof.
  intros Hbuild Hin Ha Hp Hempty Hproto. unfold buildConfusionMatrix in Hbuild.
  cbv zeta in Hbuild.
  apply (for_of_out_of_vocabulary _ _ _ a p) in Hbuild; try done.
  - by apply calculateAccuracy_has_NaN_cell.
  - intros a' Ha'. rewrite (foldl_insert_const _ modes ∅ a').
    rewrite bool_decide_eq_true_2 by done. eexists. split; [done|].
    intros q Hq. left. rewrite (foldl_insert_const _ modes ∅ q).
    by rewrite bool_decide_eq_false_2.
Qed.

Lemma calculateAccuracy_of_predictions_witness :
  ∃ matrix,
    buildConfusionMatrix [mkPrediction (Some "walking") (Some "walking");
                          mkPrediction (Some "bus") (Some "car");
                          mkPrediction None (Some "plane")] = Ok matrix ∧
    calculateAccuracy matrix = (lit 1 / lit 2)%js.
Proof.
  apply (calculateAccuracy_of_predictions
           [mkPrediction (Some "walking") (Some "walking");
            mkPrediction (Some "bus") (Some "car");
            mkPrediction None (Some "plane")]).
  repeat constructor.
  - intros _. exists "walking", "walking". repeat split; repeat constructor.
  - intros _. exists "bus", "car". repeat split; repeat constructor.
  - discriminate.
Defined.

Lemma calculatePrecision_Recall_of_predictions_witness :
  ∃ matrix,
    buildConfusionMatrix [mkPrediction (Some "car") (Some "car");
                          mkPrediction (Some "bus") (Some "car");
                          mkPrediction (Some "car") (Some "train");
                          mkPrediction (Some "car") (Some "car")] = Ok matrix ∧
    calculatePrecision matrix "car" = (lit 2 / lit 3)%js ∧
    calculateRecall matrix "car" = (lit 2 / lit 3)%js.
Proof.
  apply (calculatePrecision_Recall_of_predictions
           [mkPrediction (Some "car") (Some "car");
            mkPrediction (Some "bus") (Some "car");
            mkPrediction (Some "car") (Some "train");
            mkPrediction (Some "car") (Some "car")] "car").
  - repeat constructor.
    + intros _. exists "car", "car". repeat split; repeat constructor.
    + intros _. exists "bus", "car". repeat split; repeat constructor.
    + intros _. exists "car", "train". repeat split; repeat constructor.
    + intros _. exists "car", "car". repeat split; repeat constructor.
  - repeat constructor.
Defined.

Lemma calculatePrecision_Recall_unknown_class_witness :
  ∃ matrix,
    buildConfusionMatrix [mkPrediction (Some "car") (Some "car")] = Ok matrix ∧
    calculatePrecision matrix "toString" = lit 0 ∧
    calculateRecall matrix "toString" = lit 0.
Proof.
  apply (calculatePrecision_Recall_unknown_class
           [mkPrediction (Some "car") (Some "car")] "toString").
  - repeat constructor. intros _. exists "car", "car". repeat split; repeat constructor.
  - unfold modes. intros Hin.
    repeat (apply elem_of_cons in Hin as [Hin|Hin]; [discriminate|]).
    by apply elem_of_nil in Hin.
Defined.

Lemma calculateAccuracy_NaN_cell_witness :
  calculateAccuracy {[ "walking" := {[ "walking" := lit 3; "plane" := NaN ]} ]} = lit 0.
Proof.
  apply (calculateAccuracy_NaN_cell _ "walking" "plane" {[ "walking" := lit 3; "plane" := NaN ]}).
  - reflexivity.
  - reflexivity.
Defined.

Lemma calculateAccuracy_out_of_vocabulary_witness :
  ∃ matrix,
    buildConfusionMatrix [mkPrediction (Some "walking") (Some "walking");
                          mkPrediction (Some "walking") (Some "plane")] = Ok matrix ∧
    calculateAccuracy matrix = lit 0.
Proof.
  eexists. split; [reflexivity|].
  apply (calculateAccuracy_out_of_vocabulary
           [mkPrediction (Some "walking") (Some "walking");
            mkPrediction (Some "walking") (Some "plane")] _ "walking" "plane").
  - reflexivity.
  - right. left.
  - left.
  - unfold modes. intros Hin.
    repeat (apply elem_of_cons in Hin as [Hin|Hin]; [discriminate|]).
    by apply elem_of_nil in Hin.
  - discriminate.
  - discriminate.
Defined.

(** ** Angles, bearings and distances *)



Lemma while_loop_stuck {St : Type} (cond : St → bool) (body : St → St) (s : St) (fuel : nat) :
  cond s = true → body s = s → while_loop fuel cond body s = OutOfFuel.
Proof.
  intros Hcond Hbody. induction fuel as [|fuel IH]; [done|].
  by rewrite while_loop_S, Hcond, Hbody.
Qed.

(** X19: on an infinite angle a loop of [normalizeAngle] never ends, since
    an infinity is past the bound and a full turn does not change it: no
    amount of fuel gives a result.  NaN passes both tests and is returned. *)
Theorem normalizeAngle_not_finite (fuel : nat) :
  normalizeAngle fuel PosInf = OutOfFuel ∧
  normalizeAngle fuel NegInf = OutOfFuel ∧
  normalizeAngle (S fuel) NaN = Ok NaN.
Proof.
  split; [|split].
  - unfold normalizeAngle. by rewrite while_loop_stuck.
  - unfold normalizeAngle. destruct fuel as [|fuel]; [done|].
    rewrite while_loop_S. change ((NegInf >? lit 180)%js) with false. cbn [obind].
    by rewrite while_loop_stuck.
  - reflexivity.
Qed.

Section Bearings.
Context `{Host}.

Lemma scaled_not_finite (a : number) :
  (∀ q, a ≠ Fin q) → ∀ q, (a * Math_PI / lit 180)%js ≠ Fin q.
Proof. intros Ha q. destruct a as [x| | |]; [by destruct (Ha x) | done..]. Qed.

Lemma Math_sin_not_finite (a : number) : (∀ q, a ≠ Fin q) → Math_sin a = NaN.
Proof. intros Ha. destruct a as [x| | |]; [by destruct (Ha x) | done..]. Qed.

Lemma Math_cos_not_finite (a : number) : (∀ q, a ≠ Fin q) → Math_cos a = NaN.
Proof. intros Ha. destruct a as [x| | |]; [by destruct (Ha x) | done..]. Qed.

Lemma js_mul_NaN_r (a : number) : (a * NaN)%js = NaN.
Proof. by destruct a. Qed.

Lemma js_add_NaN_r (a : number) : (a + NaN)%js = NaN.
Proof. by destruct a. Qed.

Lemma js_sub_NaN_r (a : number) : (a - NaN)%js = NaN.
Proof. by destruct a. Qed.

Lemma Math_atan2_NaN_r (y : number) : Math_atan2 y NaN = NaN.
Proof. by destruct y. Qed.

Lemma js_sub_not_finite (a b : number) :
  (∀ q, a ≠ Fin q) ∨ (∀ q, b ≠ Fin q) → ∀ q, (b - a)%js ≠ Fin q.
Proof.
  intros [Ha|Hb] q.
  - destruct a as [x| | |]; [by destruct (Ha x)|..]; by destruct b.
  - destruct b as [x| | |]; [by destruct (Hb x)|..]; by destruct a.
Qed.



Lemma getDistanceBetweenPoints_NaN_at (point1 point2 : sample) :
  (∀ q, ToNumber (latitude point1) ≠ Fin q) ∨ (∀ q, ToNumber (longitude point1) ≠ Fin q) ∨
  (∀ q, ToNumber (latitude point2) ≠ Fin q) ∨ (∀ q, ToNumber (longitude point2) ≠ Fin q) →
  getDistanceBetweenPoints point1 point2 = NaN.
Proof.
  intros Hcases. unfold getDistanceBetweenPoints. cbv zeta.
  assert (∀ a, a = NaN →
            (lit 6376377 * (lit 2 * Math_atan2 (Math_sqrt a) (Math_sqrt (lit 1 - a))))%js = NaN)
    as Hend.
  { intros a ->. reflexivity. }
  apply Hend.
  assert (∀ a, (∀ q, a ≠ Fin q) → ∀ q, (a / lit 2)%js ≠ Fin q) as Hhalf.
  { intros a Ha q. destruct a as [x| | |]; [by destruct (Ha x) | done..]. }
  destruct Hcases as [Hlat1|[Hlon1|[Hlat2|Hlon2]]].
  - rewrite (Math_cos_not_finite _ (scaled_not_finite _ Hlat1)).
    cbn [js_mul]. apply js_add_NaN_r.
  - rewrite (Math_sin_not_finite
               (((ToNumber (longitude point2) - ToNumber (longitude point1))
                 * Math_PI / lit 180) / lit 2)%js).
    + rewrite !js_mul_NaN_r. apply js_add_NaN_r.
    + apply Hhalf, scaled_not_finite, js_sub_not_finite. by left.
  - rewrite (Math_cos_not_finite _ (scaled_not_finite _ Hlat2)).
    rewrite js_mul_NaN_r. cbn [js_mul]. apply js_add_NaN_r.
  - rewrite (Math_sin_not_finite
               (((ToNumber (longitude point2) - ToNumber (longitude point1))
                 * Math_PI / lit 180) / lit 2)%js).
    + rewrite !js_mul_NaN_r. apply js_add_NaN_r.
    + apply Hhalf, scaled_not_finite, js_sub_not_finite. by right.
Qed.

(** X22: the distance between two points is NaN as soon as one of the four
    coordinates is not a finite number (missing, NaN or infinite), whatever
    the host computes. *)
Theorem getDistanceBetweenPoints_NaN (point1 point2 : sample) :
  ¬ (∃ a b c d, latitude point1 = finite a ∧ longitude point1 = finite b ∧
                latitude point2 = finite c ∧ longitude point2 = finite d) →
  getDistanceBetweenPoints point1 point2 = NaN.
Proof.
  intros Hnot. apply getDistanceBetweenPoints_NaN_at.
  destruct (latitude point1) as [|[a| | |]]; try (left; by intros);
  destruct (longitude point1) as [|[b| | |]]; try (right; left; by intros);
  destruct (latitude point2) as [|[c| | |]]; try (right; right; left; by intros);
  destruct (longitude point2) as [|[d| | |]]; try (right; right; right; by intros).
  destruct Hnot. by exists a, b, c, d.
Qed.

End Bearings.


Lemma getDistanceBetweenPoints_NaN_witness :
  @getDistanceBetweenPoints plainHost emptySample emptySample = NaN.
Proof.
  apply (@getDistanceBetweenPoints_NaN plainHost emptySample emptySample).
  intros (a & b & c & d & Hlat & _). discriminate.
Defined.

Section PathsWithoutCoordinates.
Context `{Host}.

(** A sample of a trajectory of two samples or more is an end of a pair of
    consecutive samples. *)
Lemma in_consecutive_pair (gpsData : list sample) (p : sample) :
  (2 ≤ length gpsData)%nat → p ∈ gpsData →
  ∃ pq, pq ∈ zip gpsData (tail gpsData) ∧ (pq.1 = p ∨ pq.2 = p).
Proof.
  induction gpsData as [|x l IH]; intros Hlen Hin; [simpl in Hlen; lia|].
  destruct l as [|y l]; [simpl in Hlen; lia|].
  apply elem_of_cons in Hin as [->|Hin].
  - exists (x, y). split; [by left | by left].
  - destruct l as [|z l].
    + apply list_elem_of_singleton in Hin as ->.
      exists (x, y). split; [by left | by right].
    + destruct (IH ltac:(simpl; lia) Hin) as (pq & Hpq & Hends).
      exists pq. split; [by right | done].
Qed.

Lemma pathLength_NaN (gpsData : list sample) :
  (2 ≤ length gpsData)%nat →
  Exists (λ p, (∀ q, ToNumber (latitude p) ≠ Fin q) ∨ (∀ q, ToNumber (longitude p) ≠ Fin q))
         gpsData →
  pathLength gpsData = NaN.
Proof.
  intros Hlen (p & Hp & Hmissing)%Exists_exists.
  destruct (in_consecutive_pair gpsData p Hlen Hp) as (pq & Hpq & Hends).
  unfold pathLength.
  apply (foldl_js_add_reaches_NaN
           (λ pq : sample * sample, getDistanceBetweenPoints pq.1 pq.2) _ _ pq Hpq).
  apply getDistanceBetweenPoints_NaN_at.
  destruct Hends as [-> | ->]; destruct Hmissing; auto.
Qed.

(** X23: a trajectory of two samples or more in which a sample has no
    finite latitude or longitude has a path length of NaN, and within the
    guard the classifier answers car whatever the stops are. *)
Theorem stopPatternClassify_without_coordinates (gpsData : list sample) (qs : list Q)
    (m : Q) :
  map speedKmh gpsData = map finite qs → is_max m qs →
  (25 <= m)%Q → (m <= 80)%Q →
  (2 ≤ length gpsData)%nat →
  Exists (λ p, (∀ q, ToNumber (latitude p) ≠ Fin q) ∨ (∀ q, ToNumber (longitude p) ≠ Fin q))
         gpsData →
  stopPatternClassify gpsData = Ok (Some car).
Proof.
  intros Hspeeds Hmax H25 H80 Hlen Hmissing.
  destruct (stopPatternClassify_decision gpsData qs m Hspeeds Hmax H25 H80)
    as (stops & _ & Hlabel).
  rewrite Hlabel. do 2 f_equal.
  change (busOrCar gpsData stops = car).
  rewrite busOrCar_frequency, (pathLength_NaN gpsData Hlen Hmissing).
  destruct (length stops =? 0)%nat; [done|].
  change (NaN / lit 1000)%js with NaN.
  assert ((of_nat (length stops) / NaN)%js = NaN) as -> by (by unfold of_nat, of_Z).
  done.
Qed.

End PathsWithoutCoordinates.

Lemma stopPatternClassify_without_coordinates_witness :
  @stopPatternClassify plainHost
    [mkSample undefined undefined undefined (finite 0) (finite 30) undefined;
     mkSample undefined undefined undefined (finite 0) (finite 40) undefined]
  = Ok (Some car).
Proof.
  apply (@stopPatternClassify_without_coordinates plainHost _ [30; 40]%Q 40).
  - reflexivity.
  - split; [right; by left|]. repeat (constructor; [discriminate|]). constructor.
  - discriminate.
  - discriminate.
  - simpl. lia.
  - left. left. intros q. discriminate.
Defined.

(** ** Text helpers *)

(** X27: a text longer than a finite [maxLength] of 3 or more is cut to at
    most [maxLength] code units, the last three of them the ellipsis; a
    text that fits comes back unchanged. *)
Theorem truncateText_length (text : jsstring) (q : Q) :
  text ≠ [] → (3 <= q)%Q →
  (inject_Z (Z.of_nat (length (truncateText (Some text) (finite q)))) <= q)%Q ∧
  ((inject_Z (Z.of_nat (length text)) <= q)%Q → truncateText (Some text) (finite q) = text) ∧
  ((q < inject_Z (Z.of_nat (length text)))%Q →
   ∃ kept, truncateText (Some text) (finite q) = kept ++ ellipsis ∧ kept `prefix_of` text).
Proof.
  intros Hne Hq. unfold truncateText, finite.
  destruct text as [|c text]; [done|]. clear Hne. set (s := c :: text).
  unfold js_le, of_nat, of_Z, js_lt.
  destruct (Qlt_bool q (inject_Z (Z.of_nat (length s)))) eqn:Hlong; simpl negb; cbv iota.
  - apply Qlt_bool_true in Hlong.
    change (Fin q - lit 3)%js with (Fin (q + - inject_Z 3)).
    cbn [substring_to].
    pose proof (Qfloor_le (q + - inject_Z 3)) as Hle.
    assert (Qfloor 0 <= Qfloor (q + - inject_Z 3))%Z as Hfloor.
    { apply Qfloor_resp_le. change (inject_Z 3) with 3%Q. lra. }
    change (Qfloor 0) with 0%Z in Hfloor.
    set (k := Qfloor (q + - inject_Z 3)) in *.
    split; [|split].
    + rewrite length_app, length_take. change (length ellipsis) with 3%nat.
      assert (inject_Z (Z.of_nat (Z.to_nat k `min` length s + 3)) <= inject_Z k + 3)%Q
        as Hbound.
      { change 3%Q with (inject_Z 3). rewrite <- inject_Z_plus, <- Zle_Qle. lia. }
      change (inject_Z 3) with 3%Q in Hle. lra.
    + intros Hfits. lra.
    + intros _. eexists. split; [reflexivity|]. apply prefix_take.
  - apply Qlt_bool_false in Hlong. split; [done|]. split; [done|]. intros Hlt. lra.
Qed.

Lemma truncateText_length_witness :
  (inject_Z (Z.of_nat (length (truncateText (Some [104; 101; 108; 108; 111]%N) (finite 4)))) <= 4)%Q ∧
  ((inject_Z (Z.of_nat (length [104; 101; 108; 108; 111]%N)) <= 4)%Q →
   truncateText (Some [104; 101; 108; 108; 111]%N) (finite 4) = [104; 101; 108; 108; 111]%N) ∧
  ((4 < inject_Z (Z.of_nat (length [104; 101; 108; 108; 111]%N)))%Q →
   ∃ kept, truncateText (Some [104; 101; 108; 108; 111]%N) (finite 4) = kept ++ ellipsis ∧
           kept `prefix_of` [104; 101; 108; 108; 111]%N).
Proof.
  apply (truncateText_length [104; 101; 108; 108; 111]%N 4).
  - discriminate.
  - discriminate.
Defined.

(** X28: with a [maxLength] below 4, or NaN, a text that does not fit is
    replaced by the bare ellipsis: three code units, more than a
    [maxLength] below 3 allows. *)
Theorem truncateText_short_limit (text : jsstring) (maxLength : number) :
  text ≠ [] →
  js_le (of_nat (length text)) maxLength = false →
  (maxLength <? lit 4)%js = true ∨ maxLength = NaN →
  truncateText (Some text) (Num maxLength) = ellipsis.
Proof.
  intros Hne Hlong Hsmall. unfold truncateText.
  destruct text as [|c text]; [done|]. rewrite Hlong.
  destruct Hsmall as [Hsmall| ->]; [|done].
  destruct maxLength as [q| | |]; [|done..].
  unfold lit, of_Z in Hsmall. to_Q. change (inject_Z 4) with 4%Q in Hsmall.
  change (Fin q - Fin (inject_Z 3))%js with (Fin (q + - inject_Z 3)).
  cbn [substring_to].
  pose proof (Qfloor_le (q + - inject_Z 3)) as Hle.
  set (k := Qfloor (q + - inject_Z 3)) in *.
  assert (k < 1)%Z as Hfloor.
  { rewrite Zlt_Qlt. change (inject_Z 3) with 3%Q in Hle. change (inject_Z 1) with 1%Q. lra. }
  assert (Z.to_nat k = 0%nat) as -> by lia.
  done.
Qed.

Lemma truncateText_short_limit_witness :
  truncateText (Some [104; 101; 108; 108; 111]%N) (finite 2) = ellipsis.
Proof.
  apply (truncateText_short_limit [104; 101; 108; 108; 111]%N (Fin 2)).
  - discriminate.
  - reflexivity.
  - left. reflexivity.
Defined.

Lemma is_lower_not_upper (c : N) : is_lower c = true → is_upper c = false.
Proof. unfold is_lower, is_upper. intros [H1 H2]%andb_true_iff.
  apply N.leb_le in H1. apply andb_false_iff. right. apply N.leb_gt. lia. Qed.

Lemma is_lower_word (c : N) : is_lower c = true → is_word c = true.
Proof. unfold is_word. by intros ->. Qed.

Lemma toUpperCase_upper (c : N) : is_lower c = true → is_upper (toUpperCase c) = true.
Proof.
  unfold toUpperCase. intros Hc. rewrite Hc. unfold is_lower, is_upper in *.
  apply andb_true_iff in Hc as [H1%N.leb_le H2%N.leb_le].
  apply andb_true_iff. split; apply N.leb_le; lia.
Qed.

Lemma toUpperCase_not_lower (c : N) : is_lower (toUpperCase c) = false.
Proof.
  unfold toUpperCase. destruct (is_lower c) eqn:Hc; [|done].
  pose proof (toUpperCase_upper c Hc) as Hup. unfold toUpperCase in Hup. rewrite Hc in Hup.
  destruct (is_lower (c - 32)) eqn:Hl; [|done].
  by rewrite (is_lower_not_upper _ Hl) in Hup.
Qed.

Lemma toUpperCase_word (c : N) : is_word c = true → is_word (toUpperCase c) = true.
Proof.
  intros Hw. unfold toUpperCase. destruct (is_lower c) eqn:Hc; [|done].
  fold (toUpperCase c). unfold is_word.
  assert (is_upper (toUpperCase c) = true) as Hup by (by apply toUpperCase_upper).
  unfold toUpperCase in Hup. rewrite Hc in Hup. rewrite Hup. by rewrite orb_true_r.
Qed.

Lemma toUpperCase_not_underscore (c : N) : (c =? 95)%N = false → (toUpperCase c =? 95)%N = false.
Proof.
  intros Hc. unfold toUpperCase. destruct (is_lower c) eqn:Hl; [|done].
  unfold is_lower in Hl. apply andb_true_iff in Hl as [H1%N.leb_le H2%N.leb_le].
  apply N.eqb_neq. lia.
Qed.

(** The word character a match starts with stays one. *)
Lemma word_start_word (after_word : bool) (c : N) :
  is_word (if is_word c && negb after_word then toUpperCase c else c) = is_word c.
Proof.
  destruct (is_word c) eqn:Hw; simpl andb; [|done].
  destruct (negb after_word); [|done]. by apply toUpperCase_word.
Qed.

Lemma replace_camel_head (s : jsstring) : head (replace_camel s) = head s.
Proof.
  destruct s as [|a [|b rest]]; [done..|]. simpl.
  by destruct (is_lower a && is_upper b).
Qed.

Lemma no_camel_cons (a : N) (s : jsstring) :
  no_camel (a :: s)
  = match head s with
    | Some b => negb (is_lower a && is_upper b) && no_camel s
    | None => true
    end.
Proof. by destruct s. Qed.

Lemma replace_camel_no_camel (s : jsstring) : no_camel (replace_camel s) = true.
Proof.
  assert (∀ n s, (length s ≤ n)%nat → no_camel (replace_camel s) = true) as Hall;
    [|by apply (Hall (length s))].
  clear s. induction n as [|n IH]; intros s Hlen.
  - by destruct s; [|simpl in Hlen; lia].
  - destruct s as [|a [|b rest]]; [done..|].
    change (replace_camel (a :: b :: rest))
      with (if is_lower a && is_upper b then a :: 32%N :: b :: replace_camel rest
            else a :: replace_camel (b :: rest)).
    destruct (is_lower a && is_upper b) eqn:Hab.
    + apply andb_true_iff in Hab as [Ha Hb].
      assert (is_lower b = false) as Hlb.
      { destruct (is_lower b) eqn:Hlb; [|done]. by rewrite (is_lower_not_upper _ Hlb) in Hb. }
      rewrite !no_camel_cons. cbn [head]. rewrite (replace_camel_head rest).
      change (is_upper 32) with false. change (is_lower 32) with false.
      rewrite andb_false_r. cbn [andb negb].
      destruct (head rest) as [r|] eqn:Hr; [|done].
      rewrite Hlb. cbn [andb negb]. apply IH. simpl in Hlen. lia.
    + rewrite no_camel_cons, (replace_camel_head (b :: rest)). cbn [head]. rewrite Hab. cbn [negb andb].
      apply IH. simpl in *. lia.
Qed.

Lemma no_camel_fixed (s : jsstring) : no_camel s = true → replace_camel s = s.
Proof.
  induction s as [|a s IH]; [done|]. destruct s as [|b rest]; [done|].
  intros [Hab Hrest]%andb_true_iff. apply negb_true_iff in Hab.
  change (replace_camel (a :: b :: rest))
    with (if is_lower a && is_upper b then a :: 32%N :: b :: replace_camel rest
          else a :: replace_camel (b :: rest)).
  rewrite Hab. f_equal. by apply IH.
Qed.

Lemma replace_underscores_fixed (s : jsstring) :
  Forall (λ c, (c =? 95)%N = false) s → replace_underscores s = s.
Proof. induction 1 as [|c s Hc _ IH]; [done|]. simpl. rewrite Hc. f_equal. apply IH. Qed.

Lemma capitalized_fixed (after_word : bool) (s : jsstring) :
  capitalized after_word s = true → replace_word_starts after_word s = s.
Proof.
  revert after_word. induction s as [|c s IH]; intros after_word; [done|].
  intros [Hc Hrest]%andb_true_iff. cbn [replace_word_starts].
  rewrite (IH _ Hrest). f_equal.
  destruct (is_word c && negb after_word) eqn:Hstart; [|done].
  unfold toUpperCase. destruct (is_lower c) eqn:Hl; [|done].
  apply andb_true_iff in Hstart as [_ Hafter]. by rewrite Hafter in Hc.
Qed.

Lemma replace_underscores_none (s : jsstring) :
  Forall (λ c, (c =? 95)%N = false) (replace_underscores s).
Proof.
  induction s as [|c s IH]; [constructor|]. simpl. constructor; [|done].
  by destruct (c =? 95)%N eqn:Hc.
Qed.

Lemma replace_underscores_no_camel (s : jsstring) :
  no_camel s = true → no_camel (replace_underscores s) = true.
Proof.
  assert (∀ c, is_lower (if (c =? 95)%N then 32%N else c) = is_lower c) as Hlow.
  { intros c. destruct (c =? 95)%N eqn:Hc; [|done]. apply N.eqb_eq in Hc as ->. done. }
  assert (∀ c, is_upper (if (c =? 95)%N then 32%N else c) = is_upper c) as Hup.
  { intros c. destruct (c =? 95)%N eqn:Hc; [|done]. apply N.eqb_eq in Hc as ->. done. }
  induction s as [|a s IH]; [done|]. destruct s as [|b rest]; [done|].
  intros [Hab Hrest]%andb_true_iff.
  change (replace_underscores (a :: b :: rest))
    with ((if (a =? 95)%N then 32%N else a) :: replace_underscores (b :: rest)).
  rewrite no_camel_cons. change (head (replace_underscores (b :: rest)))
    with (Some (if (b =? 95)%N then 32%N else b)).
  cbv iota beta. rewrite Hlow, Hup, Hab. by apply IH.
Qed.

Lemma replace_word_starts_none (after_word : bool) (s : jsstring) :
  Forall (λ c, (c =? 95)%N = false) s →
  Forall (λ c, (c =? 95)%N = false) (replace_word_starts after_word s).
Proof.
  intros Hall. revert after_word. induction Hall as [|c s Hc _ IH]; intros after_word;
    [constructor|].
  cbn [replace_word_starts]. constructor; [|apply IH].
  destruct (is_word c && negb after_word); [|done]. by apply toUpperCase_not_underscore.
Qed.

Lemma replace_word_starts_capitalized (after_word : bool) (s : jsstring) :
  capitalized after_word (replace_word_starts after_word s) = true.
Proof.
  revert after_word. induction s as [|c s IH]; intros after_word; [done|].
  cbn [replace_word_starts capitalized]. rewrite word_start_word, IH, andb_true_r.
  apply negb_true_iff.
  destruct (is_word c && negb after_word) eqn:Hstart.
  - by rewrite toUpperCase_not_lower.
  - destruct (is_lower c) eqn:Hl; [|done]. rewrite (is_lower_word _ Hl) in Hstart.
    simpl in Hstart. by rewrite Hstart.
Qed.

Lemma replace_word_starts_no_camel (after_word : bool) (s : jsstring) :
  no_camel s = true → no_camel (replace_word_starts after_word s) = true.
Proof.
  revert after_word. induction s as [|a s IH]; intros after_word; [done|].
  destruct s as [|b rest]; [done|].
  intros [Hab Hrest]%andb_true_iff. apply negb_true_iff in Hab.
  change (replace_word_starts after_word (a :: b :: rest))
    with ((if is_word a && negb after_word then toUpperCase a else a)
            :: replace_word_starts (is_word a) (b :: rest)).
  rewrite no_camel_cons.
  change (head (replace_word_starts (is_word a) (b :: rest)))
    with (Some (if is_word b && negb (is_word a) then toUpperCase b else b)).
  cbv iota beta. rewrite (IH _ Hrest), andb_true_r. apply negb_true_iff.
  destruct (is_word a && negb after_word) eqn:Ha.
  - by rewrite toUpperCase_not_lower.
  - destruct (is_lower a) eqn:Hla; [|done]. rewrite (is_lower_word _ Hla).
    rewrite andb_false_r. simpl andb in *. exact Hab.
Qed.

(** X29: a label has no underscore, no lower-case letter at the start of a
    word and no lower-case letter directly before an upper-case one. *)
Theorem formatFieldLabel_shape (key : jsstring) :
  Forall (λ c, (c =? 95)%N = false) (formatFieldLabel key) ∧
  capitalized false (formatFieldLabel key) = true ∧
  no_camel (formatFieldLabel key) = true.
Proof.
  unfold formatFieldLabel. split; [|split].
  - apply replace_word_starts_none, replace_underscores_none.
  - apply replace_word_starts_capitalized.
  - apply replace_word_starts_no_camel, replace_underscores_no_camel, replace_camel_no_camel.
Qed.

(** X30: formatting a label again changes nothing. *)
Theorem formatFieldLabel_idempotent (key : jsstring) :
  formatFieldLabel (formatFieldLabel key) = formatFieldLabel key.
Proof.
  set (label := formatFieldLabel key).
  assert (Forall (λ c, (c =? 95)%N = false) label) as Hnone
    by apply replace_word_starts_none, replace_underscores_none.
  assert (capitalized false label = true) as Hcap by apply replace_word_starts_capitalized.
  assert (no_camel label = true) as Hcamel
    by apply replace_word_starts_no_camel, replace_underscores_no_camel,
             replace_camel_no_camel.
  unfold formatFieldLabel at 1.
  by rewrite (no_camel_fixed _ Hcamel), (replace_underscores_fixed _ Hnone),
             (capitalized_fixed _ _ Hcap).
Qed.

(** The examples of the function's comment: ['createdAt'] and ['user_name']. *)
Example formatFieldLabel_createdAt :
  formatFieldLabel [99; 114; 101; 97; 116; 101; 100; 65; 116]%N
  = [67; 114; 101; 97; 116; 101; 100; 32; 65; 116]%N.
Proof. reflexivity. Qed.

Example formatFieldLabel_user_name :
  formatFieldLabel [117; 115; 101; 114; 95; 110; 97; 109; 101]%N
  = [85; 115; 101; 114; 32; 78; 97; 109; 101]%N.
Proof. reflexivity. Qed.

(** ** Instances of the edge cases *)

Lemma headingChangeClassify_no_headings_witness :
  @headingChangeClassify plainHost 1 [emptySample; emptySample; emptySample]
  = Ok (Some uncertain).
Proof.
  apply (@headingChangeClassify_no_headings plainHost
           [emptySample; emptySample; emptySample] 0).
  - simpl. lia.
  - repeat constructor.
Defined.

Lemma buildConfusionMatrix_unknown_actual_witness :
  buildConfusionMatrix [mkPrediction (Some "plane") (Some "walking");
                        mkPrediction (Some "bus") (Some "bus")] = TypeError.
Proof.
  apply (buildConfusionMatrix_unknown_actual "plane" "walking"
           [mkPrediction (Some "bus") (Some "bus")]).
  - reflexivity.
  - reflexivity.
  - unfold modes. intros Hin.
    repeat (apply elem_of_cons in Hin as [Hin|Hin]; [discriminate|]).
    by apply elem_of_nil in Hin.
  - unfold Object_prototype_members. intros Hin.
    repeat (apply elem_of_cons in Hin as [Hin|Hin]; [discriminate|]).
    by apply elem_of_nil in Hin.
Defined.
